(** * A shallow embedding of [model.py]

    The file follows the source top to bottom: the configuration
    ([ModelArgs], [find_multiple]), the numeric components ([RMSNorm],
    rotary encoding, [repeat_kv], [Attention], [FeedForward],
    [TransformerBlock], [Transformer]) and the greedy decoding loop.

    Python integers are [Z]; Python floats are IEEE binary64 values
    ([spec_float] at precision 53); a tensor is a shape with its elements
    in row-major order; an operation that can raise returns a [result];
    and the arithmetic of the execution engine is a class of operations
    the model is parametric in. *)

From Stdlib Require Import ZArith List Lia Bool Reals Lra.
From Stdlib Require Import Floats.SpecFloat.
Import ListNotations.

Set Implicit Arguments.

(* ================================================================== *)
(** ** Python results *)

Inductive PyError : Type :=
| ZeroDivisionError
| OverflowError
| ValueError
| IndexError
| RuntimeError.

Inductive result (A : Type) : Type :=
| Ok (a : A)
| Raise (e : PyError).

Arguments Ok {A} a.
Arguments Raise {A} e.

Definition bind {A B : Type} (r : result A) (k : A -> result B) : result B :=
  match r with
  | Ok a => k a
  | Raise e => Raise e
  end.

Declare Scope py_scope.
Delimit Scope py_scope with py.
Notation "x <- r ;; k" := (bind r (fun x => k))
  (at level 61, r at next level, right associativity) : py_scope.
Notation "r ;;; k" := (bind r (fun _ => k))
  (at level 61, right associativity) : py_scope.

Definition succeeds {A : Type} (r : result A) : bool :=
  match r with Ok _ => true | Raise _ => false end.

Definition guard (b : bool) (e : PyError) : result unit :=
  if b then Ok tt else Raise e.

(* ================================================================== *)
(** ** Python floats: IEEE binary64 *)

Module PyFloat.

Definition float : Type := spec_float.

Definition prec : Z := 53.
Definition emax : Z := 1024.

(** [float(n)] for a Python integer: round to nearest even, and
      [OverflowError] when the integer is beyond the largest double. *)
Definition of_int (n : Z) : result float :=
    match binary_normalize prec emax n 0 false with
    | S754_infinity _ => Raise OverflowError
    | f => Ok f
    end.

Definition mul (x y : float) : float := SFmul prec emax x y.

(** [n * x] and [x * n] with [n] an integer and [x] a float: the integer
      is converted first. *)
Definition int_mul (n : Z) (x : float) : result float :=
    (f <- of_int n ;; Ok (mul f x))%py.

Definition mul_int (x : float) (n : Z) : result float :=
    (f <- of_int n ;; Ok (mul x f))%py.

(** [a / b] on two Python integers: the correctly rounded quotient. *)
Definition int_truediv (a b : Z) : result float :=
    match b with
    | Z0 => Raise ZeroDivisionError
    | _ =>
        match a with
        | Z0 => Ok (S754_zero (b <? 0)%Z)
        | _ =>
            let s := xorb (a <? 0)%Z (b <? 0)%Z in
            let '(q, e, l) :=
              SFdiv_core_binary prec emax (Z.abs a) 0 (Z.abs b) 0 in
            match binary_round_aux prec emax s q e l with
            | S754_infinity _ => Raise OverflowError
            | f => Ok f
            end
        end
    end.

(** [int(x)]: truncation toward zero. *)
Definition to_int (x : float) : result Z :=
    match x with
    | S754_zero _ => Ok 0%Z
    | S754_infinity _ => Raise OverflowError
    | S754_nan => Raise ValueError
    | S754_finite s m e =>
        let a := Z.shiftl (Zpos m) e in
        Ok (if s then Z.opp a else a)
    end.

(** [math.sqrt(n)] on a Python integer. *)
Definition sqrt_int (n : Z) : result float :=
    if (n <? 0)%Z then Raise ValueError
    else (f <- of_int n ;; Ok (SFsqrt prec emax f))%py.

End PyFloat.

(* ================================================================== *)
(** ** Configuration *)

(** [n % k] and [n // k] of Python agree with [Z.modulo] and [Z.div]
    (floor division, the remainder has the sign of the divisor) except
    that a zero divisor raises. *)
Definition py_mod (n k : Z) : result Z :=
  if (k =? 0)%Z then Raise ZeroDivisionError else Ok (n mod k)%Z.

Definition py_floordiv (n k : Z) : result Z :=
  if (k =? 0)%Z then Raise ZeroDivisionError else Ok (n / k)%Z.

Definition find_multiple (n k : Z) : result Z :=
  (r <- py_mod n k ;;
   if (r =? 0)%Z then Ok n else Ok (n + k - r)%Z)%py.

(** The keyword arguments of the dataclass, as its generated [__init__]
    stores them. *)
Record ModelArgsFields : Type := {
  f_dim : Z;
  f_n_layers : Z;
  f_n_heads : Z;
  f_n_kv_heads : option Z;
  f_vocab_size : Z;
  f_multiple_of : Z;
  f_ffn_dim_multiplier : option PyFloat.float;
  f_norm_eps : PyFloat.float;
  f_max_batch_size : Z;
  f_max_seq_len : Z
}.

(** The object once [__post_init__] has run. *)
Record ModelArgs : Type := {
  dim : Z;
  n_layers : Z;
  n_heads : Z;
  n_kv_heads : Z;
  vocab_size : Z;
  multiple_of : Z;
  ffn_dim_multiplier : PyFloat.float;
  norm_eps : PyFloat.float;
  max_batch_size : Z;
  max_seq_len : Z;
  intermediate_size : Z
}.

(** [1e-5], the nearest double. *)
Definition norm_eps_default : PyFloat.float :=
  S754_finite false 5902958103587057 (-69).

Definition ModelArgs_defaults : ModelArgsFields := {|
  f_dim := 4096;
  f_n_layers := 32;
  f_n_heads := 32;
  f_n_kv_heads := None;
  f_vocab_size := 32000;
  f_multiple_of := 256;
  f_ffn_dim_multiplier := None;
  f_norm_eps := norm_eps_default;
  f_max_batch_size := 32;
  f_max_seq_len := 2048
|}.

Definition post_init (a : ModelArgsFields) : result ModelArgs :=
  (let kv := match f_n_kv_heads a with
             | None => f_n_heads a
             | Some k => k
             end in
   m <- match f_ffn_dim_multiplier a with
        | None => PyFloat.int_truediv 4 3
        | Some m => Ok m
        end ;;
   two_m <- PyFloat.int_mul 2 m ;;
   prod <- PyFloat.mul_int two_m (f_dim a) ;;
   size <- PyFloat.to_int prod ;;
   size' <- find_multiple size (f_multiple_of a) ;;
   Ok {| dim := f_dim a;
         n_layers := f_n_layers a;
         n_heads := f_n_heads a;
         n_kv_heads := kv;
         vocab_size := f_vocab_size a;
         multiple_of := f_multiple_of a;
         ffn_dim_multiplier := m;
         norm_eps := f_norm_eps a;
         max_batch_size := f_max_batch_size a;
         max_seq_len := f_max_seq_len a;
         intermediate_size := size' |})%py.

(** The configuration of [main]. *)
Definition main_fields : ModelArgsFields := {|
  f_dim := 128;
  f_n_layers := 64;
  f_n_heads := 64;
  f_n_kv_heads := Some 64%Z;
  f_vocab_size := 50257;
  f_multiple_of := 32;
  f_ffn_dim_multiplier := None;
  f_norm_eps := norm_eps_default;
  f_max_batch_size := 32;
  f_max_seq_len := 128
|}.

(* ================================================================== *)
(** ** Tensors

    A tensor is what a contiguous torch tensor is: a shape and the
    elements in row-major order.  Every operation below builds its
    result by tabulating an index function over the result shape, so
    that a view keeps the data and only changes the shape. *)

Class Default (A : Type) : Type := { dflt : A }.

#[export] Instance Default_Z : Default Z := {| dflt := 0%Z |}.
#[export] Instance Default_unit : Default unit := {| dflt := tt |}.
#[export] Instance Default_pair {A B : Type} `{Default A} `{Default B} :
  Default (A * B) := {| dflt := (dflt, dflt) |}.

Record tensor (A : Type) : Type := {
  shape : list nat;
  data : list A
}.

Arguments Build_tensor {A} shape data.

Definition numel (sh : list nat) : nat := fold_right Nat.mul 1 sh.

(** Position of a multi-index in row-major order, and back. *)
Fixpoint ravel (sh idx : list nat) : nat :=
  match sh, idx with
  | n :: sh', i :: idx' => i * numel sh' + ravel sh' idx'
  | _, _ => 0
  end.

Fixpoint unravel (sh : list nat) (k : nat) : list nat :=
  match sh with
  | [] => []
  | n :: sh' => (k / numel sh') :: unravel sh' (k mod numel sh')
  end.

Fixpoint in_range (idx sh : list nat) : Prop :=
  match idx, sh with
  | [], [] => True
  | i :: idx', n :: sh' => i < n /\ in_range idx' sh'
  | _, _ => False
  end.

Definition shape_eqb (s1 s2 : list nat) : bool :=
  if list_eq_dec Nat.eq_dec s1 s2 then true else false.

Section TensorOps.
  Context {A : Type} `{Default A}.

Definition wf (t : tensor A) : Prop := length (data t) = numel (shape t).

Definition get (t : tensor A) (idx : list nat) : A :=
    nth (ravel (shape t) idx) (data t) dflt.

Definition tabulate (sh : list nat) (f : list nat -> A) : tensor A :=
    {| shape := sh;
       data := map (fun k => f (unravel sh k)) (seq 0 (numel sh)) |}.

(** [t.view(sh)] with every size given. *)
Definition view (t : tensor A) (sh : list nat) : result (tensor A) :=
    if numel sh =? numel (shape t)
    then Ok {| shape := sh; data := data t |}
    else Raise RuntimeError.

(** The size torch infers for a [-1] among sizes whose product is
      [known]: it must divide the number of elements, and it is
      ambiguous when [known] is zero. *)
Definition infer_dim (total known : nat) : result nat :=
    if known =? 0 then Raise RuntimeError
    else if total mod known =? 0 then Ok (total / known)
    else Raise RuntimeError.

(** [t.transpose(1, 2)] on four axes and [t.transpose(-2, -1)]. *)
Definition transpose_1_2 (t : tensor A) : result (tensor A) :=
    match shape t with
    | [b; s; h; d] =>
        Ok (tabulate [b; h; s; d]
              (fun idx => match idx with
                          | [i; k; j; l] => get t [i; j; k; l]
                          | _ => dflt
                          end))
    | _ => Raise IndexError
    end.

Definition transpose_last (t : tensor A) : result (tensor A) :=
    match shape t with
    | [b; h; s; d] =>
        Ok (tabulate [b; h; d; s]
              (fun idx => match idx with
                          | [i; k; l; j] => get t [i; k; j; l]
                          | _ => dflt
                          end))
    | _ => Raise IndexError
    end.

(** Python slice bounds on an axis of size [n]: a negative bound counts
      from the end, and both are clamped to [0, n]. *)
Definition slice_bound (n : nat) (i : Z) : nat :=
    if (i <? 0)%Z then Z.to_nat (Z.max (i + Z.of_nat n) 0)
    else Nat.min (Z.to_nat i) n.

(** [t[start:stop]] on the first axis. *)
Definition slice0 (t : tensor A) (start stop : Z) : result (tensor A) :=
    match shape t with
    | n :: rest =>
        let lo := slice_bound n start in
        let hi := slice_bound n stop in
        let len := hi - lo in
        Ok {| shape := len :: rest;
              data := firstn (len * numel rest)
                        (skipn (lo * numel rest) (data t)) |}
    | [] => Raise IndexError
    end.

(** Element-wise map, which keeps the shape. *)
Definition tmap {B : Type} (f : A -> B) (t : tensor A) : tensor B :=
    {| shape := shape t; data := map f (data t) |}.

(** The last axis of [t] at the leading index [idx]. *)
Definition row (t : tensor A) (idx : list nat) : list A :=
    map (fun k => get t (idx ++ [k])) (seq 0 (last (shape t) 0)).

End TensorOps.

(** Broadcasting of two shapes, aligned on their last axes: two sizes
    must agree or one of them must be 1. *)
Definition broadcast_dim (a b : nat) : result nat :=
  if a =? b then Ok a
  else if a =? 1 then Ok b
  else if b =? 1 then Ok a
  else Raise RuntimeError.

Fixpoint broadcast_rev (r1 r2 : list nat) : result (list nat) :=
  match r1, r2 with
  | [], r => Ok r
  | r, [] => Ok r
  | a :: r1', b :: r2' =>
      (rest <- broadcast_rev r1' r2' ;;
       d <- broadcast_dim a b ;;
       Ok (d :: rest))%py
  end.

Definition broadcast_shapes (s1 s2 : list nat) : result (list nat) :=
  (r <- broadcast_rev (rev s1) (rev s2) ;; Ok (rev r))%py.

(** The index into an operand of shape [sh] that a result index [idx]
    reads: the trailing axes of [idx], with 0 on the axes of size 1. *)
Definition bsel (n i : nat) : nat := if n =? 1 then 0 else i.

Definition bidx (sh idx : list nat) : list nat :=
  map (fun p => bsel (fst p) (snd p))
      (combine sh (skipn (length idx - length sh) idx)).

Section Broadcast.
  Context {A B C : Type} `{Default A} `{Default B}.

Definition broadcast_op (f : A -> B -> C) (t1 : tensor A) (t2 : tensor B)
    : result (tensor C) :=
    (sh <- broadcast_shapes (shape t1) (shape t2) ;;
     Ok (tabulate sh
           (fun idx => f (get t1 (bidx (shape t1) idx))
                         (get t2 (bidx (shape t2) idx)))))%py.

End Broadcast.

(** Sizes given as Python integers: [-1] is inferred by [view] and kept
    by [expand]; any other negative size is refused. *)
Definition count_inferred (sizes : list Z) : nat :=
  length (filter (fun z => (z =? -1)%Z) sizes).

Definition known_product (sizes : list Z) : nat :=
  numel (map Z.to_nat (filter (fun z => negb (z =? -1)%Z) sizes)).

Section TensorViews.
  Context {A : Type} `{Default A}.

Definition view_z (t : tensor A) (sizes : list Z) : result (tensor A) :=
    if existsb (fun z => (z <? -1)%Z) sizes then Raise RuntimeError
    else
      match count_inferred sizes with
      | 0 => view t (map Z.to_nat sizes)
      | 1 =>
          (d <- infer_dim (numel (shape t)) (known_product sizes) ;;
           view t (map (fun z => if (z =? -1)%Z then d else Z.to_nat z) sizes))%py
      | _ => Raise RuntimeError
      end.

Fixpoint expand_shape (sh : list nat) (sizes : list Z) : result (list nat) :=
    match sh, sizes with
    | [], [] => Ok []
    | n :: sh', z :: sizes' =>
        (rest <- expand_shape sh' sizes' ;;
         if (z =? -1)%Z then Ok (n :: rest)
         else if (z <? -1)%Z then Raise RuntimeError
         else if Z.to_nat z =? n then Ok (n :: rest)
         else if n =? 1 then Ok (Z.to_nat z :: rest)
         else Raise RuntimeError)%py
    | _, _ => Raise RuntimeError
    end.

Definition expand (t : tensor A) (sizes : list Z) : result (tensor A) :=
    (sh <- expand_shape (shape t) sizes ;;
     Ok (tabulate sh (fun idx => get t (bidx (shape t) idx))))%py.

(** [t[:, :, :, None, :]] on four axes. *)
Definition unsqueeze_3 (t : tensor A) : result (tensor A) :=
    match shape t with
    | [b; s; h; d] => Ok {| shape := [b; s; h; 1; d]; data := data t |}
    | _ => Raise IndexError
    end.

(** [t.flatten(3)]: the axes from the fourth on become one; a tensor
      of fewer than four axes has no axis 3. *)
Definition flatten_3 (t : tensor A) : result (tensor A) :=
    match shape t with
    | b :: s :: h :: f :: rest =>
        Ok {| shape := [b; s; h; numel (f :: rest)]; data := data t |}
    | _ => Raise IndexError
    end.

(** [torch.triu(t, diagonal)]: on the last two axes, the entries with
      [column - row >= diagonal] are kept and the others are zero. *)
Definition triu (zero : A) (t : tensor A) (diagonal : Z) : tensor A :=
    tabulate (shape t)
      (fun idx =>
         let r := nth (length idx - 2) idx 0 in
         let c := nth (length idx - 1) idx 0 in
         if (diagonal <=? Z.of_nat c - Z.of_nat r)%Z then get t idx else zero).

(** [torch.full(sh, v)]. *)
Definition full (sh : list nat) (v : A) : tensor A :=
    tabulate sh (fun _ => v).

End TensorViews.

(* ================================================================== *)
(** ** The execution engine

    The element type of the float tensors and the kernels torch runs on
    them.  Casts between the working precision and 32-bit floats are
    operations of the engine as well. *)

Class Arith (T : Type) : Type := {
  zero : T;
  one : T;
  of_int : Z -> T;                      (* an integer used as a float *)
  add : T -> T -> T;
  sub : T -> T -> T;
  mul : T -> T -> T;
  div : T -> T -> T;
  pow : T -> T -> T;                    (* base ** exponent *)
  powi : T -> Z -> T;                   (* x.pow(n) *)
  rsqrt : T -> T;
  cos : T -> T;
  sin : T -> T;
  mean : list T -> T;                   (* reduction of one row *)
  float_ : T -> T;                      (* .float() *)
  type_as : T -> T                      (* .type_as(x), x in working precision *)
}.

Class Engine (T : Type) : Type := {
  engine_arith :: Arith T;
  neg_inf : T;                          (* float("-inf") *)
  scalar : PyFloat.float -> T;          (* a Python float operand *)
  silu : T -> T;
  dot : list T -> list T -> T;          (* inner product of matmul *)
  softmax : list T -> list T            (* softmax of one row *)
}.

#[export] Instance Default_arith {T : Type} `{Arith T} : Default T :=
  {| dflt := zero |}.

(** Every kernel returns the one value: what is left of a computation is
    which operations run and on which shapes. *)
#[export] Instance shape_arith : Arith unit := {|
  zero := tt; one := tt;
  of_int := fun _ => tt;
  add := fun _ _ => tt; sub := fun _ _ => tt;
  mul := fun _ _ => tt; div := fun _ _ => tt;
  pow := fun _ _ => tt; powi := fun _ _ => tt;
  rsqrt := fun _ => tt; cos := fun _ => tt; sin := fun _ => tt;
  mean := fun _ => tt;
  float_ := fun x => x; type_as := fun x => x
|}.

#[export] Instance shape_engine : Engine unit := {|
  engine_arith := shape_arith;
  neg_inf := tt;
  scalar := fun _ => tt;
  silu := fun _ => tt;
  dot := fun _ _ => tt;
  softmax := fun l => l
|}.

Section Reductions.
  Context {T : Type} `{Arith T}.

(** [x.mean(-1, keepdim=True)]; on a tensor without axes it is the
      mean of the one element. *)
Definition mean_last (x : tensor T) : result (tensor T) :=
    match shape x with
    | [] => Ok (tabulate [] (fun _ => mean [get x []]))
    | sh =>
        Ok (tabulate (removelast sh ++ [1])
              (fun idx => mean (row x (removelast idx))))
    end.

End Reductions.

Section Kernels.
  Context {T : Type} `{Engine T}.

(** [F.linear(x, w)] without bias: [w] is [out, in] and the last axis
      of [x] is [in]. *)
Definition linear (w x : tensor T) : result (tensor T) :=
    match shape w, rev (shape x) with
    | [n_out; n_in], k :: lead =>
        if k =? n_in
        then Ok (tabulate (rev lead ++ [n_out])
                   (fun idx => dot (row x (removelast idx))
                                   (row w [last idx 0])))
        else Raise RuntimeError
    | _, _ => Raise RuntimeError
    end.

(** [torch.matmul] on two tensors of four axes: the two leading axes
      broadcast and the inner sizes must agree. *)
Definition matmul (a b : tensor T) : result (tensor T) :=
    match shape a, shape b with
    | [b1; h1; n; m], [b2; h2; m'; p] =>
        if m =? m' then
          (lead <- broadcast_shapes [b1; h1] [b2; h2] ;;
           Ok (tabulate (lead ++ [n; p])
                 (fun idx =>
                    match idx with
                    | [i; k; r; c] =>
                        let ia := bidx [b1; h1] [i; k] in
                        let ib := bidx [b2; h2] [i; k] in
                        dot (map (fun x => get a (ia ++ [r; x])) (seq 0 m))
                            (map (fun x => get b (ib ++ [x; c])) (seq 0 m))
                    | _ => zero
                    end)))%py
        else Raise RuntimeError
    | _, _ => Raise RuntimeError
    end.

(** [F.softmax(x, dim=-1)]. *)
Definition softmax_last (x : tensor T) : tensor T :=
    tabulate (shape x)
      (fun idx => nth (last idx 0) (softmax (row x (removelast idx))) zero).

End Kernels.

(* ================================================================== *)
(** ** The model components *)

(** Complex numbers of [torch.polar] and [torch.view_as_complex]: the
    real and the imaginary part. *)
Definition complex (T : Type) : Type := (T * T)%type.

Section Model.
  Context {T : Type} `{Arith T}.

(** *** RMSNorm *)

Record RMSNorm : Type := {
    eps : T;
    weight : tensor T
  }.

Definition RMSNorm_norm (self : RMSNorm) (x : tensor T) : result (tensor T) :=
    (m <- mean_last (tmap (fun v => powi v 2) x) ;;
     let r := tmap rsqrt (tmap (fun v => add v (eps self)) m) in
     broadcast_op mul x r)%py.

Definition RMSNorm_forward (self : RMSNorm) (x : tensor T) : result (tensor T) :=
    (n <- RMSNorm_norm self (tmap float_ x) ;;
     let output := tmap type_as n in
     broadcast_op mul output (weight self))%py.

(** The value at one index: the element in 32-bit precision times the
      reciprocal root of the mean square of its row plus [eps], cast
      back, times the scale of its column. *)
Definition rms_entry (self : RMSNorm) (x : tensor T) (idx : list nat) : T :=
    mul (type_as
           (mul (float_ (get x idx))
                (rsqrt (add (mean (map (fun v => powi (float_ v) 2)
                                       (row x (removelast idx))))
                            (eps self)))))
        (get (weight self) [last idx 0]).

(** *** Rotary position encoding *)

Definition polar (a phi : T) : complex T := (mul a (cos phi), mul a (sin phi)).

Definition cmul (x y : complex T) : complex T :=
    (sub (mul (fst x) (fst y)) (mul (snd x) (snd y)),
     add (mul (fst x) (snd y)) (mul (snd x) (fst y))).

(** [torch.arange(0, dim, 2)] has [(dim + 1) // 2] entries and
      [torch.arange(end)] has [end]; a negative bound is refused. *)
Definition precompute_freqs_cis (dim_ end_ : Z) (theta : T)
    : result (tensor (complex T)) :=
    (guard (0 <=? dim_)%Z RuntimeError ;;;
     guard (0 <=? end_)%Z RuntimeError ;;;
     let n := Z.to_nat ((dim_ + 1) / 2) in
     let freq (i : nat) : T :=
       div one (pow theta (div (float_ (of_int (2 * Z.of_nat i))) (of_int dim_))) in
     Ok (tabulate [Z.to_nat end_; n]
           (fun idx =>
              match idx with
              | [p; i] =>
                  polar one (float_ (mul (of_int (Z.of_nat p)) (freq i)))
              | _ => (zero, zero)
              end)))%py.

Definition view_as_complex (t : tensor T) : result (tensor (complex T)) :=
    match rev (shape t) with
    | 2 :: lead =>
        Ok (tabulate (rev lead)
              (fun idx => (get t (idx ++ [0]), get t (idx ++ [1]))))
    | _ => Raise RuntimeError
    end.

Definition view_as_real (t : tensor (complex T)) : tensor T :=
    tabulate (shape t ++ [2])
      (fun idx =>
         let z := get t (removelast idx) in
         if last idx 0 =? 0 then fst z else snd z).

Definition pair_sizes (x : tensor T) : list Z :=
    map Z.of_nat (removelast (shape x)) ++ [-1; 2]%Z.

Definition apply_rotary_emb (xq xk : tensor T) (freqs_cis : tensor (complex T))
    : result (tensor T * tensor T) :=
    (xq_ <- view_z (tmap float_ xq) (pair_sizes xq) ;;
     xk_ <- view_z (tmap float_ xk) (pair_sizes xk) ;;
     xq_c <- view_as_complex xq_ ;;
     xk_c <- view_as_complex xk_ ;;
     freqs_cis <- match shape freqs_cis with
                  | n0 :: n1 :: _ => view freqs_cis [1; n0; 1; n1]
                  | _ => Raise IndexError
                  end ;;
     pq <- broadcast_op cmul xq_c freqs_cis ;;
     xq_out <- flatten_3 (view_as_real pq) ;;
     pk <- broadcast_op cmul xk_c freqs_cis ;;
     xk_out <- flatten_3 (view_as_real pk) ;;
     Ok (tmap type_as xq_out, tmap type_as xk_out))%py.

(** The rotation at one index of a tensor of four axes: the pair that
      index [d] belongs to, in 32-bit precision, times the table entry of
      its position and pair, and of the product the real part for an even
      [d] and the imaginary part for an odd one, cast back. *)
Definition rotary_entry (x : tensor T) (freqs_cis : tensor (complex T))
      (idx : list nat) : T :=
    match idx with
    | [i; j; k; d] =>
        let p := d / 2 in
        let z := cmul (float_ (get x [i; j; k; 2 * p]),
                       float_ (get x [i; j; k; 2 * p + 1]))
                      (get freqs_cis [j; p]) in
        type_as (if d mod 2 =? 0 then fst z else snd z)
    | _ => zero
    end.

End Model.

Arguments RMSNorm T : clear implicits.

Section RepeatKV.
  Context {A : Type} `{Default A}.

Definition repeat_kv (x : tensor A) (n_rep : Z) : result (tensor A) :=
    match shape x with
    | [batch; seq_len; n_kv_heads; head_dim] =>
        if (n_rep =? 1)%Z then Ok x
        else
          (x1 <- unsqueeze_3 x ;;
           x2 <- expand x1 [Z.of_nat batch; Z.of_nat seq_len;
                            Z.of_nat n_kv_heads; n_rep; Z.of_nat head_dim] ;;
           view_z x2 [Z.of_nat batch; Z.of_nat seq_len;
                      (Z.of_nat n_kv_heads * n_rep)%Z; Z.of_nat head_dim])%py
    | _ => Raise ValueError
    end.

End RepeatKV.

Section Layers.
  Context {T : Type} `{Engine T}.

(** *** Attention *)

Record Attention : Type := {
    att_n_kv_heads : Z;
    att_n_heads_q : Z;
    att_n_rep : Z;
    att_head_dim : Z;
    wq : tensor T;
    wk : tensor T;
    wv : tensor T;
    wo : tensor T
  }.

Definition Attention_forward (self : Attention) (x : tensor T)
      (freqs_cis : tensor (complex T)) (mask : option (tensor T))
    : result (tensor T) :=
    match shape x with
    | [bsz; seqlen; _] =>
        (xq <- linear (wq self) x ;;
         xk <- linear (wk self) x ;;
         xv <- linear (wv self) x ;;
         xq <- view_z xq [Z.of_nat bsz; Z.of_nat seqlen;
                          att_n_heads_q self; att_head_dim self] ;;
         xk <- view_z xk [Z.of_nat bsz; Z.of_nat seqlen;
                          att_n_kv_heads self; att_head_dim self] ;;
         xv <- view_z xv [Z.of_nat bsz; Z.of_nat seqlen;
                          att_n_kv_heads self; att_head_dim self] ;;
         qk <- apply_rotary_emb xq xk freqs_cis ;;
         let xq := fst qk in
         let xk := snd qk in
         xk <- repeat_kv xk (att_n_rep self) ;;
         xv <- repeat_kv xv (att_n_rep self) ;;
         xq <- transpose_1_2 xq ;;
         xk <- transpose_1_2 xk ;;
         xv <- transpose_1_2 xv ;;
         xkT <- transpose_last xk ;;
         prod <- matmul xq xkT ;;
         root <- PyFloat.sqrt_int (att_head_dim self) ;;
         let scores := tmap (fun v => div v (scalar root)) prod in
         scores <- match mask with
                   | Some m => broadcast_op add scores m
                   | None => Ok scores
                   end ;;
         let scores := tmap type_as (softmax_last (tmap float_ scores)) in
         output <- matmul scores xv ;;
         output <- transpose_1_2 output ;;
         output <- view_z output [Z.of_nat bsz; Z.of_nat seqlen; (-1)%Z] ;;
         linear (wo self) output)%py
    | _ => Raise ValueError
    end.

(** *** FeedForward *)

Record FeedForward : Type := {
    w1 : tensor T;
    w2 : tensor T;
    w3 : tensor T
  }.

Definition FeedForward_forward (self : FeedForward) (x : tensor T)
    : result (tensor T) :=
    (a <- linear (w1 self) x ;;
     b <- linear (w3 self) x ;;
     g <- broadcast_op mul (tmap silu a) b ;;
     linear (w2 self) g)%py.

(** *** TransformerBlock *)

Record TransformerBlock : Type := {
    attention : Attention;
    feed_forward : FeedForward;
    attention_norm : RMSNorm T;
    ffn_norm : RMSNorm T
  }.

Definition TransformerBlock_forward (self : TransformerBlock) (x : tensor T)
      (freqs_cis : tensor (complex T)) (mask : option (tensor T))
    : result (tensor T) :=
    (nx <- RMSNorm_forward (attention_norm self) x ;;
     a <- Attention_forward (attention self) nx freqs_cis mask ;;
     h <- broadcast_op add x a ;;
     nh <- RMSNorm_forward (ffn_norm self) h ;;
     f <- FeedForward_forward (feed_forward self) nh ;;
     broadcast_op add h f)%py.

End Layers.

Arguments Attention T : clear implicits.
Arguments FeedForward T : clear implicits.
Arguments TransformerBlock T : clear implicits.

(** The hidden width that [FeedForward.__init__] gives to [w1], [w2] and
    [w3] from its [hidden_dim] argument. *)
Definition FeedForward_hidden_dim (hidden_dim multiple_of_ : Z) : result Z :=
  (q <- PyFloat.int_truediv (2 * hidden_dim) 3 ;;
   h <- PyFloat.to_int q ;;
   find_multiple h multiple_of_)%py.

(* ================================================================== *)
(** ** Transformer *)

Inductive Device : Type := CPU | CUDA.

(** [10000.0], the default [theta] of [precompute_freqs_cis]. *)
Definition theta_default : PyFloat.float :=
  S754_finite false 5497558138880000 (-39).

Section TransformerDef.
  Context {T : Type} `{Engine T}.

(** [nn.Embedding]: a row of the table for every token id; an id
      outside the table is refused. *)
Definition embedding (w : tensor T) (tokens : tensor Z) : result (tensor T) :=
    match shape w with
    | [n; d] =>
        if forallb (fun t => (0 <=? t)%Z && (t <? Z.of_nat n)%Z) (data tokens)
        then Ok (tabulate (shape tokens ++ [d])
                   (fun idx => get w [Z.to_nat (get tokens (removelast idx));
                                      last idx 0]))
        else Raise IndexError
    | _ => Raise RuntimeError
    end.

(** The module state.  [device] is where [.to(device)] has put the
      parameters; the rotary table is a plain attribute that [.to] does
      not move, which is why [forward] moves it. *)
Record Transformer : Type := {
    params : ModelArgs;
    tok_embeddings : tensor T;
    layers : list (TransformerBlock T);
    norm : RMSNorm T;
    output : tensor T;
    freqs_cis : tensor (complex T);
    device : Device;
    freqs_device : Device
  }.

Definition Transformer_to (self : Transformer) (d : Device) : Transformer :=
    {| params := params self;
       tok_embeddings := tok_embeddings self;
       layers := layers self;
       norm := norm self;
       output := output self;
       freqs_cis := freqs_cis self;
       device := d;
       freqs_device := freqs_device self |}.

(** [self.freqs_cis = self.freqs_cis.to(h.device)] *)
Definition move_freqs (self : Transformer) : Transformer :=
    {| params := params self;
       tok_embeddings := tok_embeddings self;
       layers := layers self;
       norm := norm self;
       output := output self;
       freqs_cis := freqs_cis self;
       device := device self;
       freqs_device := device self |}.

Definition causal_mask (seqlen : nat) : option (tensor T) :=
    if 1 <? seqlen
    then Some (triu zero (full [1; 1; seqlen; seqlen] neg_inf) 1)
    else None.

Fixpoint run_layers (ls : list (TransformerBlock T)) (h : tensor T)
      (freqs : tensor (complex T)) (mask : option (tensor T))
    : result (tensor T) :=
    match ls with
    | [] => Ok h
    | layer :: ls' =>
        (h' <- TransformerBlock_forward layer h freqs mask ;;
         run_layers ls' h' freqs mask)%py
    end.

(** The state after the call and what the call returns. *)
Definition Transformer_forward (self : Transformer) (tokens : tensor Z)
      (start_pos : Z) : Transformer * result (tensor T) :=
    match shape tokens with
    | [_bsz; seqlen] =>
        match embedding (tok_embeddings self) tokens with
        | Raise e => (self, Raise e)
        | Ok h =>
            let self := move_freqs self in
            (self,
             (freqs <- slice0 (freqs_cis self) start_pos
                          (start_pos + Z.of_nat seqlen) ;;
              let mask := causal_mask seqlen in
              h <- run_layers (layers self) h freqs mask ;;
              h <- RMSNorm_forward (norm self) h ;;
              linear (output self) h)%py)
        end
    | _ => (self, Raise ValueError)
    end.

(** *** Construction

      The initial values of the weights come from an initialiser
      [rand], a value for every index; the shapes are those of the
      source. *)
  Variable rand : list nat -> T.

Definition Linear_new (in_features out_features : Z) : result (tensor T) :=
    (guard ((0 <=? in_features)%Z && (0 <=? out_features)%Z) RuntimeError ;;;
     Ok (tabulate [Z.to_nat out_features; Z.to_nat in_features] rand))%py.

Definition Embedding_new (num_embeddings embedding_dim : Z) : result (tensor T) :=
    (guard ((0 <=? num_embeddings)%Z && (0 <=? embedding_dim)%Z) RuntimeError ;;;
     Ok (tabulate [Z.to_nat num_embeddings; Z.to_nat embedding_dim] rand))%py.

Definition RMSNorm_new (dim_ : Z) (eps_ : PyFloat.float) : result (RMSNorm T) :=
    (guard (0 <=? dim_)%Z RuntimeError ;;;
     Ok {| eps := scalar eps_; weight := full [Z.to_nat dim_] one |})%py.

Definition Attention_new (args : ModelArgs) : result (Attention T) :=
    (n_rep <- py_floordiv (n_heads args) (n_kv_heads args) ;;
     head_dim <- py_floordiv (dim args) (n_heads args) ;;
     wq_ <- Linear_new (dim args) (n_heads args * head_dim) ;;
     wk_ <- Linear_new (dim args) (n_kv_heads args * head_dim) ;;
     wv_ <- Linear_new (dim args) (n_kv_heads args * head_dim) ;;
     wo_ <- Linear_new (n_heads args * head_dim) (dim args) ;;
     Ok {| att_n_kv_heads := n_kv_heads args;
           att_n_heads_q := n_heads args;
           att_n_rep := n_rep;
           att_head_dim := head_dim;
           wq := wq_; wk := wk_; wv := wv_; wo := wo_ |})%py.

Definition FeedForward_new (dim_ hidden_dim multiple_of_ : Z)
    : result (FeedForward T) :=
    (hidden <- FeedForward_hidden_dim hidden_dim multiple_of_ ;;
     w1_ <- Linear_new dim_ hidden ;;
     w2_ <- Linear_new hidden dim_ ;;
     w3_ <- Linear_new dim_ hidden ;;
     Ok {| w1 := w1_; w2 := w2_; w3 := w3_ |})%py.

Definition TransformerBlock_new (layer_id : Z) (args : ModelArgs)
    : result (TransformerBlock T) :=
    (py_floordiv (dim args) (n_heads args) ;;;
     att <- Attention_new args ;;
     ff <- FeedForward_new (dim args) (intermediate_size args) (multiple_of args) ;;
     an <- RMSNorm_new (dim args) (norm_eps args) ;;
     fn <- RMSNorm_new (dim args) (norm_eps args) ;;
     Ok {| attention := att; feed_forward := ff;
           attention_norm := an; ffn_norm := fn |})%py.

Fixpoint new_layers (args : ModelArgs) (layer_id : Z) (n : nat)
    : result (list (TransformerBlock T)) :=
    match n with
    | O => Ok []
    | S n' =>
        (l <- TransformerBlock_new layer_id args ;;
         ls <- new_layers args (layer_id + 1) n' ;;
         Ok (l :: ls))%py
    end.

Definition Transformer_new (args : ModelArgs) : result Transformer :=
    (emb <- Embedding_new (vocab_size args) (dim args) ;;
     ls <- new_layers args 0 (Z.to_nat (n_layers args)) ;;
     nrm <- RMSNorm_new (dim args) (norm_eps args) ;;
     out <- Linear_new (dim args) (vocab_size args) ;;
     head_dim <- py_floordiv (dim args) (n_heads args) ;;
     table <- precompute_freqs_cis head_dim (max_seq_len args * 2)
                (scalar theta_default) ;;
     Ok {| params := args;
           tok_embeddings := emb;
           layers := ls;
           norm := nrm;
           output := out;
           freqs_cis := table;
           device := CPU;
           freqs_device := CPU |})%py.

End TransformerDef.

Arguments Transformer T : clear implicits.

(* ================================================================== *)
(** ** Greedy decoding

    [generate_text_greedy] receives the model and the tokenizer as
    arguments.  The model is a callable with a state of its own; the
    tokenizer gives the prompt as a [1, n] tensor of ids, names the
    end-of-sequence id and turns a row of ids back into text. *)

Section Greedy.
  Context {T : Type} `{Default T}.
  Variable tdiv : T -> T -> T.           (* the division of [logits / temperature] *)
  Variable ltb : T -> T -> bool.         (* the order [argmax] compares with *)

  Context {St Text : Type}.
  Variable model : St -> tensor Z -> Z -> St * result (tensor T).
  Variable encode : Text -> tensor Z.
  Variable decode : list Z -> Text.
  Variable eos_token_id : Z.

(** Position of the first largest element, scanning left to right:
      [best] is the position kept so far and [v] its value. *)
Fixpoint argmax_from (l : list T) (pos best : nat) (v : T) : nat :=
    match l with
    | [] => best
    | x :: l' =>
        if ltb v x then argmax_from l' (S pos) pos x
        else argmax_from l' (S pos) best v
    end.

Definition argmax (l : list T) : result nat :=
    match l with
    | [] => Raise IndexError
    | x :: l' => Ok (argmax_from l' 1 0 x)
    end.

Fixpoint mapM {X Y : Type} (f : X -> result Y) (l : list X) : result (list Y) :=
    match l with
    | [] => Ok []
    | x :: l' => (y <- f x ;; ys <- mapM f l' ;; Ok (y :: ys))%py
    end.

(** [outputs[:, -1, :]] on three axes. *)
Definition last_position (outputs : tensor T) : result (tensor T) :=
    match shape outputs with
    | [b; s; v] =>
        if s =? 0 then Raise IndexError
        else Ok (tabulate [b; v]
                   (fun idx => match idx with
                               | [i; k] => get outputs [i; s - 1; k]
                               | _ => dflt
                               end))
    | _ => Raise IndexError
    end.

(** [torch.argmax(t, dim=-1).unsqueeze(-1)] on two axes. *)
Definition argmax_last (t : tensor T) : result (tensor Z) :=
    match shape t with
    | [b; v] =>
        (ids <- mapM (fun i => argmax (row t [i])) (seq 0 b) ;;
         Ok {| shape := [b; 1]; data := map Z.of_nat ids |})%py
    | _ => Raise IndexError
    end.

(** [torch.cat([a, b], dim=-1)] on two axes. *)
Definition cat_last (a b : tensor Z) : result (tensor Z) :=
    match shape a, shape b with
    | [r1; c1], [r2; c2] =>
        if r1 =? r2
        then Ok (tabulate [r1; c1 + c2]
                   (fun idx => match idx with
                               | [i; j] => if j <? c1 then get a [i; j]
                                           else get b [i; j - c1]
                               | _ => 0%Z
                               end))
        else Raise RuntimeError
    | _, _ => Raise RuntimeError
    end.

(** [t.item()] *)
Definition item (t : tensor Z) : result Z :=
    match data t with
    | [x] => Ok x
    | _ => Raise RuntimeError
    end.

Fixpoint greedy_loop (n : nat) (st : St) (input_ids : tensor Z)
      (temperature : T) : St * result (tensor Z) :=
    match n with
    | O => (st, Ok input_ids)
    | S n' =>
        let '(st', r) := model st input_ids 0%Z in
        match (outputs <- r ;;
               lastp <- last_position outputs ;;
               let next_token_logits := tmap (fun x => tdiv x temperature) lastp in
               next_token <- argmax_last next_token_logits ;;
               ids <- cat_last input_ids next_token ;;
               tok <- item next_token ;;
               Ok (ids, tok))%py with
        | Raise e => (st', Raise e)
        | Ok (ids, tok) =>
            if (tok =? eos_token_id)%Z then (st', Ok ids)
            else greedy_loop n' st' ids temperature
        end
    end.

(** [input_ids[0]] *)
Definition first_row (t : tensor Z) : result (list Z) :=
    match shape t with
    | r :: rest =>
        if r =? 0 then Raise IndexError
        else Ok (firstn (numel rest) (data t))
    | [] => Raise IndexError
    end.

Definition generate_text_greedy (st : St) (prompt : Text) (max_length : Z)
      (temperature : T) : St * result Text :=
    let input_ids := encode prompt in
    let '(st', r) := greedy_loop (Z.to_nat max_length) st input_ids temperature in
    (st', (ids <- r ;; row0 <- first_row ids ;; Ok (decode row0))%py).

End Greedy.

(* ================================================================== *)
(** ** Exact arithmetic

    The arithmetic of the real numbers, in which the casts between
    precisions change nothing and a mean is the sum over the count. *)

Definition Rsum (l : list R) : R := fold_right Rplus 0%R l.

#[export] Instance real_arith : Arith R := {|
  zero := 0%R;
  one := 1%R;
  of_int := IZR;
  add := Rplus;
  sub := Rminus;
  mul := Rmult;
  div := Rdiv;
  pow := Rpower;
  powi := powerRZ;
  rsqrt := fun x => (/ sqrt x)%R;
  cos := Rtrigo_def.cos;
  sin := Rtrigo_def.sin;
  mean := fun l => (Rsum l / INR (length l))%R;
  float_ := fun x => x;
  type_as := fun x => x
|}.

Definition Rltb (a b : R) : bool := if Rlt_dec a b then true else false.

(** Squared magnitude of a complex number. *)
Definition norm2 (z : complex R) : R := (fst z * fst z + snd z * snd z)%R.

(* ================================================================== *)
(** ** What the specification says, in its own words *)

(** "Rounded up to the nearest multiple of [k]". *)
Definition round_up (n k : Z) : Z := (k * ((n + k - 1) / k))%Z.

(** "mean(x_j^2)": the population mean of the squares. *)
Definition mean_of_squares (l : list R) : R :=
  (Rsum (map (fun v => v * v) l) / INR (length l))%R.

(** The two stages of the feed-forward width: "[int(2 * ffn_dim_multiplier
    * dim)] rounded up to the nearest multiple of [multiple_of]", then
    "[int(2 * intermediate_size / 3)] rounded up again". *)
Definition spec_intermediate_size (m : PyFloat.float) (dim_ k : Z) : result Z :=
  (two_m <- PyFloat.int_mul 2 m ;;
   prod <- PyFloat.mul_int two_m dim_ ;;
   n <- PyFloat.to_int prod ;;
   Ok (round_up n k))%py.

Definition spec_hidden_dim (intermediate k : Z) : result Z :=
  (q <- PyFloat.int_truediv (2 * intermediate) 3 ;;
   n <- PyFloat.to_int q ;;
   Ok (round_up n k))%py.

(* ================================================================== *)
(** ** Concrete configurations *)

(** [dim] is not a multiple of [n_heads]. *)
Definition uneven_dim_fields : ModelArgsFields := {|
  f_dim := 10;
  f_n_layers := 1;
  f_n_heads := 4;
  f_n_kv_heads := Some 2%Z;
  f_vocab_size := 5;
  f_multiple_of := 4;
  f_ffn_dim_multiplier := None;
  f_norm_eps := norm_eps_default;
  f_max_batch_size := 1;
  f_max_seq_len := 2
|}.

(** [n_heads] is not a multiple of [n_kv_heads]. *)
Definition uneven_heads_fields : ModelArgsFields := {|
  f_dim := 10;
  f_n_layers := 1;
  f_n_heads := 5;
  f_n_kv_heads := Some 2%Z;
  f_vocab_size := 5;
  f_multiple_of := 4;
  f_ffn_dim_multiplier := None;
  f_norm_eps := norm_eps_default;
  f_max_batch_size := 1;
  f_max_seq_len := 2
|}.

(** A small well-formed configuration: 4 query heads on 2 key/value
    heads of width 2, and a rotary table of 4 positions. *)
Definition small_fields : ModelArgsFields := {|
  f_dim := 8;
  f_n_layers := 2;
  f_n_heads := 4;
  f_n_kv_heads := Some 2%Z;
  f_vocab_size := 5;
  f_multiple_of := 4;
  f_ffn_dim_multiplier := None;
  f_norm_eps := norm_eps_default;
  f_max_batch_size := 1;
  f_max_seq_len := 2
|}.

(** Construction and one forward pass on the engine that keeps shapes
    only. *)
Definition shape_model (f : ModelArgsFields) : result (Transformer unit) :=
  (a <- post_init f ;; Transformer_new (fun _ => tt) a)%py.

Definition token_row (l : list Z) : tensor Z :=
  {| shape := [1; length l]; data := l |}.

Definition shape_run (f : ModelArgsFields) (tokens : list Z) (start_pos : Z)
  : result (list nat) :=
  (m <- shape_model f ;;
   out <- snd (Transformer_forward m (token_row tokens) start_pos) ;;
   Ok (shape out))%py.

(** [4 / 3], the default [ffn_dim_multiplier]. *)
Definition four_thirds : PyFloat.float :=
  S754_finite false 6004799503160661 (-52).

(** The same keyword arguments with other head counts. *)
Definition with_heads (f : ModelArgsFields) (h : Z) (kv : option Z)
  : ModelArgsFields := {|
  f_dim := f_dim f;
  f_n_layers := f_n_layers f;
  f_n_heads := h;
  f_n_kv_heads := kv;
  f_vocab_size := f_vocab_size f;
  f_multiple_of := f_multiple_of f;
  f_ffn_dim_multiplier := f_ffn_dim_multiplier f;
  f_norm_eps := f_norm_eps f;
  f_max_batch_size := f_max_batch_size f;
  f_max_seq_len := f_max_seq_len f
|}.

Definition small_args : ModelArgs := {|
  dim := 8;
  n_layers := 2;
  n_heads := 4;
  n_kv_heads := 2;
  vocab_size := 5;
  multiple_of := 4;
  ffn_dim_multiplier := four_thirds;
  norm_eps := norm_eps_default;
  max_batch_size := 1;
  max_seq_len := 2;
  intermediate_size := 24
|}.

(** A model for examples of the decoding loop: whatever the ids, the
    logits of every position are 1 for token 0 and 2 for token 1. *)
Definition toy_model (st : unit) (ids : tensor Z) (start_pos : Z)
  : unit * result (tensor R) :=
  (st,
   Ok (tabulate [1; last (shape ids) 0; 2]
         (fun idx => match idx with
                     | [_; _; k] => if k =? 0 then 1%R else 2%R
                     | _ => 0%R
                     end))).

(** Squared magnitude of the pair [p] of a head vector. *)
Definition pair_norm2 (t : tensor R) (i j k p : nat) : R :=
  norm2 (get t [i; j; k; 2 * p], get t [i; j; k; 2 * p + 1]).

(** "phase p * theta^(-2i/head_dim)" *)
Definition rotary_phase (theta : R) (head_dim p i : nat) : R :=
  (INR p * Rpower theta (- (2 * INR i / INR head_dim)))%R.

(* ================================================================== *)
(** ** Attention, head by head

    The steps of the specification written index by index: for batch
    entry [i], head [h] and positions [j] (query) and [t] (key). *)

Section AttentionSpec.
  Context {T : Type} `{Engine T}.
  Variable self : Attention T.
  Variable x : tensor T.                      (* [B, S, dim] *)
  Variable freqs_cis : tensor (complex T).    (* [S, D / 2] *)
  Variable mask : option (tensor T).          (* [1, 1, S, S] *)
  Variable root : T.                          (* sqrt(head_dim) *)
  Variables B S Hq KV R D : nat.

(** A bias-free projection, reshaped to [n_h] heads of [D] entries. *)
Definition head_projection (w : tensor T) (n_h : nat) : tensor T :=
    tabulate [B; S; n_h; D]
      (fun idx => match idx with
                  | [i; j; h; d] => dot (row x [i; j]) (row w [h * D + d])
                  | _ => zero
                  end).

(** Rotary encoding on queries and keys; the values are not rotated. *)
Definition sp_query (i j h d : nat) : T :=
    rotary_entry (head_projection (wq self) Hq) freqs_cis [i; j; h; d].

Definition sp_key (i j g d : nat) : T :=
    rotary_entry (head_projection (wk self) KV) freqs_cis [i; j; g; d].

Definition sp_value (i j g d : nat) : T :=
    get (head_projection (wv self) KV) [i; j; g; d].

(** Query head [h] reads key/value head [h / R]. *)
Definition sp_score (i h j t : nat) : T :=
    div (dot (map (fun d => sp_query i j h d) (seq 0 D))
             (map (fun d => sp_key i t (h / R) d) (seq 0 D)))
        root.

Definition sp_masked (i h j t : nat) : T :=
    match mask with
    | Some m => add (sp_score i h j t) (get m [0; 0; j; t])
    | None => sp_score i h j t
    end.

(** Softmax over the key positions, on 32-bit values, cast back. *)
Definition sp_prob (i h j t : nat) : T :=
    type_as (nth t (softmax (map (fun t' => float_ (sp_masked i h j t'))
                                 (seq 0 S)))
                 zero).

Definition sp_head (i h j d : nat) : T :=
    dot (map (fun t => sp_prob i h j t) (seq 0 S))
        (map (fun t => sp_value i t (h / R) d) (seq 0 S)).

(** The same quantities as tensors of axes [batch, head, position, _]. *)
Definition sp_Q : tensor T :=
    tabulate [B; Hq; S; D]
      (fun idx => match idx with
                  | [i; h; j; d] => sp_query i j h d
                  | _ => zero
                  end).

Definition sp_K : tensor T :=
    tabulate [B; Hq; S; D]
      (fun idx => match idx with
                  | [i; h; t; d] => sp_key i t (h / R) d
                  | _ => zero
                  end).

Definition sp_Kt : tensor T :=
    tabulate [B; Hq; D; S]
      (fun idx => match idx with
                  | [i; h; d; t] => sp_key i t (h / R) d
                  | _ => zero
                  end).

Definition sp_V : tensor T :=
    tabulate [B; Hq; S; D]
      (fun idx => match idx with
                  | [i; h; t; d] => sp_value i t (h / R) d
                  | _ => zero
                  end).

Definition sp_scaled : tensor T :=
    tabulate [B; Hq; S; S]
      (fun idx => match idx with
                  | [i; h; j; t] => sp_score i h j t
                  | _ => zero
                  end).

Definition sp_scores : tensor T :=
    tabulate [B; Hq; S; S]
      (fun idx => match idx with
                  | [i; h; j; t] => sp_masked i h j t
                  | _ => zero
                  end).

Definition sp_probs : tensor T :=
    tabulate [B; Hq; S; S]
      (fun idx => match idx with
                  | [i; h; j; t] => sp_prob i h j t
                  | _ => zero
                  end).

Definition sp_heads : tensor T :=
    tabulate [B; Hq; S; D]
      (fun idx => match idx with
                  | [i; h; j; d] => sp_head i h j d
                  | _ => zero
                  end).

(** Heads side by side, then the bias-free output projection. *)
Definition attention_spec (Dout : nat) : tensor T :=
    tabulate [B; S; Dout]
      (fun idx => match idx with
                  | [i; j; o] =>
                      dot (map (fun c => sp_head i (c / D) j (c mod D))
                               (seq 0 (Hq * D)))
                          (row (wo self) [o])
                  | _ => zero
                  end).

End AttentionSpec.

(** An attention layer of 2 query heads on 1 key/value head of width 2,
    on the engine that keeps shapes only. *)
Definition small_attention : Attention unit := {|
  att_n_kv_heads := 1;
  att_n_heads_q := 2;
  att_n_rep := 2;
  att_head_dim := 2;
  wq := full [4; 2] tt;
  wk := full [2; 2] tt;
  wv := full [2; 2] tt;
  wo := full [2; 4] tt
|}.

(** [math.sqrt(2)] *)
Definition sqrt_two : PyFloat.float :=
  S754_finite false 6369051672525773 (-52).

(* ================================================================== *)
(** ** Models whose parameters have the shapes of [__init__]

    For a width [dim_], [F] rotary pairs per head ([head_dim = 2 F]) and,
    for the whole model, a vocabulary of [vocab] ids and a rotary table
    of [n] positions. *)

Section WellFormed.
  Context {T : Type} `{Engine T}.

Definition Attention_wf (att : Attention T) (dim_ F : nat) : Prop :=
  exists (KV R : nat) (root : PyFloat.float),
    0 < KV /\ 0 < R /\
    att_n_heads_q att = Z.of_nat (KV * R) /\
    att_n_kv_heads att = Z.of_nat KV /\
    att_n_rep att = Z.of_nat R /\
    att_head_dim att = Z.of_nat (F * 2) /\
    shape (wq att) = [KV * R * (F * 2); dim_] /\
    shape (wk att) = [KV * (F * 2); dim_] /\
    shape (wv att) = [KV * (F * 2); dim_] /\
    shape (wo att) = [dim_; KV * R * (F * 2)] /\
    PyFloat.sqrt_int (att_head_dim att) = Ok root.

Definition FeedForward_wf (ff : FeedForward T) (dim_ : nat) : Prop :=
  exists hidden : nat,
    shape (w1 ff) = [hidden; dim_] /\
    shape (w2 ff) = [dim_; hidden] /\
    shape (w3 ff) = [hidden; dim_].

Definition Block_wf (blk : TransformerBlock T) (dim_ F : nat) : Prop :=
  Attention_wf (attention blk) dim_ F /\
  FeedForward_wf (feed_forward blk) dim_ /\
  shape (weight (attention_norm blk)) = [dim_] /\
  shape (weight (ffn_norm blk)) = [dim_].

Definition Transformer_wf (m : Transformer T) (vocab dim_ n F : nat) : Prop :=
  shape (tok_embeddings m) = [vocab; dim_] /\
  Forall (fun blk => Block_wf blk dim_ F) (layers m) /\
  shape (weight (norm m)) = [dim_] /\
  shape (output m) = [vocab; dim_] /\
  wf (freqs_cis m) /\
  shape (freqs_cis m) = [n; F].

(** Two module states with the same parameters and the same rotary
    table, wherever they have been placed and whatever calls came
    before. *)
Definition same_weights (m1 m2 : Transformer T) : Prop :=
  tok_embeddings m1 = tok_embeddings m2 /\
  layers m1 = layers m2 /\
  norm m1 = norm m2 /\
  output m1 = output m2 /\
  freqs_cis m1 = freqs_cis m2.

End WellFormed.

(** Token ids inside the vocabulary. *)
Definition tokens_in_vocab (tokens : tensor Z) (vocab : nat) : Prop :=
  Forall (fun t => (0 <= t < Z.of_nat vocab)%Z) (data tokens).

(** A configuration that meets the invariants of the specification:
    [n_heads = n_kv_heads * R] and [dim = n_heads * 2 F]. *)
Definition valid_args (a : ModelArgs) (KV R F : nat) : Prop :=
  0 < KV /\ 0 < R /\
  n_kv_heads a = Z.of_nat KV /\
  n_heads a = Z.of_nat (KV * R) /\
  dim a = Z.of_nat (KV * R * (F * 2)) /\
  (0 <= vocab_size a)%Z /\
  succeeds (PyFloat.sqrt_int (Z.of_nat (F * 2))) = true.

(* ================================================================== *)
(** ** The data set and its preparation *)

From Stdlib Require String.
Import String.StringSyntax.
Delimit Scope string_scope with string.

(** A Python dict, in insertion order. *)
Definition dict (V : Type) : Type := list (String.string * V).

Fixpoint dict_get {V : Type} (d : dict V) (k : String.string) : option V :=
  match d with
  | [] => None
  | (k', v) :: d' => if String.eqb k' k then Some v else dict_get d' k
  end.

(** [l[i]] on a Python list: a negative index counts from the end, and an
    index outside the list is refused. *)
Definition py_index {A : Type} (l : list A) (i : Z) : result A :=
  let n := Z.of_nat (length l) in
  let j := if (i <? 0)%Z then (i + n)%Z else i in
  if (j <? 0)%Z || (n <=? j)%Z then Raise IndexError
  else match nth_error l (Z.to_nat j) with
       | Some a => Ok a
       | None => Raise IndexError
       end.

(** [torch.tensor(row)] on a list of integers. *)
Definition tensor_of_list (l : list Z) : tensor Z :=
  {| shape := [length l]; data := l |}.

(** *** WikiTextDataset

    [encodings] maps a column name to its rows. *)
Record WikiTextDataset : Type := {
  encodings : dict (list (list Z))
}.

(** [__len__]; [None] is the [KeyError] of a mapping that has no
    ["input_ids"]. *)
Definition WikiTextDataset_len (self : WikiTextDataset) : option nat :=
  option_map (@length (list Z)) (dict_get (encodings self) "input_ids"%string).

(** [__getitem__]: the comprehension over [self.encodings.items()]. *)
Definition WikiTextDataset_getitem (self : WikiTextDataset) (idx : Z)
  : result (dict (tensor Z)) :=
  mapM (fun kv : String.string * list (list Z) =>
          (r <- py_index (snd kv) idx ;;
           Ok (fst kv, tensor_of_list r))%py)
       (encodings self).

(** *** tokenize_function

    The function that [load_and_preprocess_data] maps over the corpus.
    The tokenizer is an argument of the enclosing function: [tokenizer]
    gives the ids [tokenizer(text)["input_ids"][0]] of a text. *)

(** [t[:, 1:]] on two axes. *)
Definition drop_first_column (t : tensor Z) : result (tensor Z) :=
  match shape t with
  | [n; m] =>
      Ok (tabulate [n; m - 1]
            (fun idx => match idx with
                        | [i; j] => get t [i; j + 1]
                        | _ => 0%Z
                        end))
  | _ => Raise IndexError
  end.

(** [dst[:, :-1] = src] on two axes: [src] is expanded to the sizes of
    the target. *)
Definition assign_but_last_column (dst src : tensor Z) : result (tensor Z) :=
  match shape dst with
  | [n; m] =>
      (src' <- expand src [Z.of_nat n; Z.of_nat (m - 1)] ;;
       Ok (tabulate [n; m]
             (fun idx => match idx with
                         | [i; j] => if j <? m - 1 then get src' [i; j]
                                     else get dst [i; j]
                         | _ => 0%Z
                         end)))%py
  | _ => Raise IndexError
  end.

(** [dst[:, -1] = v] on two axes. *)
Definition assign_last_column (dst : tensor Z) (v : Z) : result (tensor Z) :=
  match shape dst with
  | [n; m] =>
      if m =? 0 then Raise IndexError
      else Ok (tabulate [n; m]
                 (fun idx => match idx with
                             | [i; j] => if j =? m - 1 then v
                                         else get dst [i; j]
                             | _ => 0%Z
                             end))
  | _ => Raise IndexError
  end.

(** [t.tolist()] on two axes: the list of the rows. *)
Definition tolist (t : tensor Z) : list (list Z) :=
  map (fun i => row t [i]) (seq 0 (hd 0 (shape t))).

Section Preprocess.
  Variable tokenizer : String.string -> list Z.
  Variable eos_token : String.string.
  Variable max_length : Z.

Definition tokenize_function (examples_text : list String.string)
  : result (dict (list (list Z))) :=
  let text := String.concat eos_token examples_text in
  let input_ids := tensor_of_list (tokenizer text) in
  let total_length := Z.of_nat (hd 0 (shape input_ids)) in
  (q <- py_floordiv total_length max_length ;;
   let total_length := (q * max_length)%Z in
   sliced <- slice0 input_ids 0 total_length ;;
   input_ids <- view_z sliced [(-1)%Z; max_length] ;;
   let labels := input_ids in
   shifted <- drop_first_column input_ids ;;
   labels <- assign_but_last_column labels shifted ;;
   labels <- assign_last_column labels (-100) ;;
   Ok [("input_ids"%string, tolist input_ids);
       ("labels"%string, tolist labels)])%py.

End Preprocess.

(* ================================================================== *)
(** ** More concrete examples *)

(** The toy model with integer logits, for runs of the decoding loop
    that compute: whatever the ids, the logits of every position are 1
    for token 0 and 2 for token 1. *)
Definition toy_model_int (st : unit) (ids : tensor Z) (start_pos : Z)
  : unit * result (tensor Z) :=
  (st,
   Ok (tabulate [1; last (shape ids) 0; 2]
         (fun idx => match idx with
                     | [_; _; k] => if k =? 0 then 1%Z else 2%Z
                     | _ => 0%Z
                     end))).

(* ================================================================== *)
(** ** The parameters of the modules

    What [model.parameters()] yields: the weights in the order in which
    [__init__] registers them.  The rotary table is a plain attribute
    and not among them. *)

Section Parameters.
  Context {T : Type} `{Engine T}.

Definition RMSNorm_parameters (self : RMSNorm T) : list (tensor T) :=
  [weight self].

Definition Attention_parameters (self : Attention T) : list (tensor T) :=
  [wq self; wk self; wv self; wo self].

Definition FeedForward_parameters (self : FeedForward T) : list (tensor T) :=
  [w1 self; w2 self; w3 self].

Definition TransformerBlock_parameters (self : TransformerBlock T)
  : list (tensor T) :=
  Attention_parameters (attention self) ++
  FeedForward_parameters (feed_forward self) ++
  RMSNorm_parameters (attention_norm self) ++
  RMSNorm_parameters (ffn_norm self).

Definition Transformer_parameters (self : Transformer T) : list (tensor T) :=
  [tok_embeddings self] ++
  flat_map TransformerBlock_parameters (layers self) ++
  RMSNorm_parameters (norm self) ++
  [output self].

(** [sum(p.numel() for p in model.parameters())] of [main]. *)
Definition total_params (self : Transformer T) : nat :=
  list_sum (map (fun p => numel (shape p)) (Transformer_parameters self)).

End Parameters.

(** The parameters of one layer of a model with [KV] key/value heads,
    [KV * R] query heads of [2 F] entries and feed-forward width
    [hidden]: the four projections of the attention, the three of the
    feed-forward network and the two scale vectors. *)
Definition block_params (KV R F : nat) (hidden : Z) : nat :=
  let D := KV * R * (F * 2) in
  2 * (D * D) + 2 * (KV * (F * 2) * D) + 3 * (Z.to_nat hidden * D) + 2 * D.

(** The inner product of the query vector at the leading index [iq] and
    the key vector at [ik], over their [d] entries: what
    [torch.matmul(xq, xk.transpose(-2, -1))] sums for one query and one
    key, in exact arithmetic. *)
Definition head_dot (q k : tensor R) (iq ik : list nat) (d : nat) : R :=
  Rsum (map (fun c => get q (iq ++ [c]) * get k (ik ++ [c]))%R (seq 0 d)).

(* ================================================================== *)
(** ** Engines in which minus infinity hides a position

    The laws of the kernels that the causal mask relies on: adding minus
    infinity gives minus infinity, a cast keeps it, softmax gives a
    position of minus infinity the weight zero, a cast keeps zero, and an
    inner product does not look at the entries whose weight is zero.
    They hold in exact arithmetic extended with minus infinity; in
    floating point they hold as long as no value is infinite or
    not-a-number. *)

Class MaskLaws (T : Type) {E : Engine T} : Prop := {
  add_neg_inf : forall v : T, add v neg_inf = neg_inf;
  float_neg_inf : float_ (neg_inf : T) = neg_inf;
  softmax_neg_inf :
    forall (l : list T) (j : nat),
      j < length l -> nth j l zero = neg_inf ->
      nth j (softmax l) zero = zero;
  type_as_zero : type_as (zero : T) = zero;
  dot_zero_weight :
    forall p v v' : list T,
      length v = length v' ->
      (forall j, nth j p zero = zero \/ nth j v zero = nth j v' zero) ->
      dot p v = dot p v'
}.

Arguments MaskLaws T {E}.

(** Two tensors of three axes with the same entries in batch row [b0]
    at the positions up to [i0]; and the same for token ids. *)
Definition agree_upto {A : Type} `{Default A} (b0 i0 D : nat)
    (x x' : tensor A) : Prop :=
  forall j k, j <= i0 -> k < D -> get x [b0; j; k] = get x' [b0; j; k].

Definition tokens_agree_upto (b0 i0 : nat) (tokens tokens' : tensor Z) : Prop :=
  forall j, j <= i0 -> get tokens [b0; j] = get tokens' [b0; j].

(* ================================================================== *)
(** ** Exact arithmetic with minus infinity

    The real numbers and one more value, minus infinity ([None]), which
    every operation passes on; in a product a factor zero wins over it,
    and its exponential is zero. *)

Definition xreal : Type := option R.

Definition xlift2 (f : R -> R -> R) (a b : xreal) : xreal :=
  match a, b with
  | Some x, Some y => Some (f x y)
  | _, _ => None
  end.

Definition xmul (a b : xreal) : xreal :=
  match a, b with
  | Some x, Some y => Some (x * y)%R
  | Some x, None | None, Some x =>
      if Req_dec_T x 0 then Some 0%R else None
  | None, None => None
  end.

Definition xexp (a : xreal) : R :=
  match a with
  | Some x => exp x
  | None => 0%R
  end.

Definition xsum (l : list xreal) : xreal :=
  fold_right (xlift2 Rplus) (Some 0%R) l.

Definition xdot (p v : list xreal) : xreal :=
  xsum (map (fun pv => xmul (fst pv) (snd pv)) (combine p v)).

Definition xsoftmax (l : list xreal) : list xreal :=
  map (fun a => Some (xexp a / Rsum (map xexp l))%R) l.

(** The value of a double: the number for a finite one, minus infinity
    for the negative infinity; the other doubles (plus infinity and
    not-a-number) have no value here and are read as zero. *)
Definition float_value (f : PyFloat.float) : xreal :=
  match f with
  | S754_zero _ => Some 0%R
  | S754_finite s m e =>
      Some ((if s then -1 else 1) * IZR (Zpos m) * powerRZ 2 e)%R
  | S754_infinity true => None
  | S754_infinity false => Some 0%R
  | S754_nan => Some 0%R
  end.

#[export] Instance xreal_arith : Arith xreal := {|
  zero := Some 0%R;
  one := Some 1%R;
  of_int := fun z => Some (IZR z);
  add := xlift2 Rplus;
  sub := xlift2 Rminus;
  mul := xmul;
  div := xlift2 Rdiv;
  pow := xlift2 Rpower;
  powi := fun a n => option_map (fun x => powerRZ x n) a;
  rsqrt := option_map (fun x => / sqrt x)%R;
  cos := option_map Rtrigo_def.cos;
  sin := option_map Rtrigo_def.sin;
  mean := fun l => xlift2 Rdiv (xsum l) (Some (INR (length l)));
  float_ := fun a => a;
  type_as := fun a => a
|}.

#[export] Instance xreal_engine : Engine xreal := {|
  engine_arith := xreal_arith;
  neg_inf := None;
  scalar := float_value;
  silu := option_map (fun x => x / (1 + exp (- x)))%R;
  dot := xdot;
  softmax := xsoftmax
|}.

(* ================================================================== *)
(** ** The 32-bit floats of the logits

    IEEE binary32: the element type of the tensors that the model
    returns, with the division and the comparison that
    [logits / temperature] and [torch.argmax] run on them.  The
    temperature is a Python float, which the division takes as a 32-bit
    float. *)

Module Float32.

Definition float : Type := spec_float.

Definition prec : Z := 24.
Definition emax : Z := 128.

(** A Python float rounded to 32 bits: to the nearest, and to infinity
      beyond the largest 32-bit float. *)
Definition of_float (x : PyFloat.float) : float :=
    match x with
    | S754_finite s m e =>
        binary_normalize prec emax (if s then Z.neg m else Z.pos m) e s
    | _ => x
    end.

Definition div (x y : float) : float := SFdiv prec emax x y.

Definition ltb (x y : float) : bool := SFltb x y.

End Float32.

#[export] Instance Default_float32 : Default Float32.float :=
  {| dflt := S754_zero false |}.

(** The doubles [1.0] (the default temperature), [0.7] and [1e40]. *)
Definition one_double : PyFloat.float :=
  S754_finite false 4503599627370496 (-52).

Definition seven_tenths : PyFloat.float :=
  S754_finite false 6305039478318694 (-53).

Definition ten_to_forty : PyFloat.float :=
  S754_finite false 8271806125530277 80.

(** Two logits next to each other among the 32-bit floats,
    [13686864 * 2^-21] for token 0 and the next float for token 1. *)
Definition close_logits : tensor Float32.float :=
  {| shape := [1; 2];
     data := [S754_finite false 13686864 (-21);
              S754_finite false 13686865 (-21)] |}.

(** The toy model with 32-bit logits: whatever the ids, the logits of
    every position are [1.0] for token 0 and [2.0] for token 1. *)
Definition toy_model_float32 (st : unit) (ids : tensor Z) (start_pos : Z)
  : unit * result (tensor Float32.float) :=
  (st,
   Ok (tabulate [1; last (shape ids) 0; 2]
         (fun idx => match idx with
                     | [_; _; k] =>
                         if k =? 0 then S754_finite false 8388608 (-23)
                         else S754_finite false 8388608 (-22)
                     | _ => S754_zero false
                     end))).

(* ================================================================== *)
(** * Properties *)

Unset Implicit Arguments.

(** ** Index arithmetic *)

Lemma in_range_length (idx sh : list nat) :
  in_range idx sh -> length idx = length sh.
Proof.
  revert sh; induction idx as [|i idx IH]; intros [|n sh]; simpl; try tauto.
  intros [_ Hr]. f_equal. now apply IH.
Qed.

Lemma in_range_app (idx1 idx2 sh1 sh2 : list nat) :
  in_range idx1 sh1 -> in_range idx2 sh2 ->
  in_range (idx1 ++ idx2) (sh1 ++ sh2).
Proof.
  revert sh1; induction idx1 as [|i idx1 IH]; intros [|n sh1]; simpl; try tauto.
  intros [Hi Hr] H2. split; [assumption | now apply IH].
Qed.

Lemma in_range_app_inv (idx sh1 sh2 : list nat) :
  in_range idx (sh1 ++ sh2) ->
  exists idx1 idx2,
    idx = idx1 ++ idx2 /\ in_range idx1 sh1 /\ in_range idx2 sh2.
Proof.
  revert idx; induction sh1 as [|n sh1 IH]; intros idx Hr.
  - exists [], idx. simpl. auto.
  - destruct idx as [|i idx]; simpl in Hr; [tauto|].
    destruct Hr as [Hi Hr]. destruct (IH _ Hr) as (i1 & i2 & -> & H1 & H2).
    exists (i :: i1), i2. simpl. auto.
Qed.

Lemma numel_app (s1 s2 : list nat) : numel (s1 ++ s2) = numel s1 * numel s2.
Proof.
  induction s1 as [|n s1 IH]; simpl; [lia|]. rewrite IH. lia.
Qed.

Lemma ravel_lt (sh idx : list nat) :
  in_range idx sh -> ravel sh idx < numel sh.
Proof.
  revert idx; induction sh as [|n sh IH]; intros [|i idx]; simpl; try tauto; try lia.
  intros [Hi Hr]. specialize (IH _ Hr). nia.
Qed.

Lemma unravel_ravel (sh idx : list nat) :
  in_range idx sh -> unravel sh (ravel sh idx) = idx.
Proof.
  revert idx; induction sh as [|n sh IH]; intros [|i idx]; simpl; try tauto.
  intros [Hi Hr]. pose proof (ravel_lt _ _ Hr) as Hlt.
  assert (Hn : numel sh <> 0) by lia.
  rewrite Nat.div_add_l by assumption.
  rewrite (Nat.div_small _ _ Hlt), Nat.add_0_r.
  rewrite Nat.add_comm, Nat.Div0.mod_add, (Nat.mod_small _ _ Hlt).
  now rewrite IH.
Qed.

Lemma unravel_in_range (sh : list nat) (k : nat) :
  k < numel sh -> in_range (unravel sh k) sh.
Proof.
  revert k; induction sh as [|n sh IH]; intros k Hk; simpl in *; [exact I|].
  assert (Hn : numel sh <> 0) by (intros E; rewrite E in Hk; lia).
  split.
  - apply Nat.Div0.div_lt_upper_bound. lia.
  - apply IH. now apply Nat.mod_upper_bound.
Qed.

Lemma ravel_unravel (sh : list nat) (k : nat) :
  k < numel sh -> ravel sh (unravel sh k) = k.
Proof.
  revert k; induction sh as [|n sh IH]; intros k Hk; simpl in *; [lia|].
  assert (Hn : numel sh <> 0) by (intros E; rewrite E in Hk; lia).
  rewrite IH by now apply Nat.mod_upper_bound.
  pose proof (Nat.div_mod_eq k (numel sh)). lia.
Qed.

(** ** Tabulation and extensionality *)

Lemma nth_map_seq {A : Type} (f : nat -> A) (n k : nat) (d : A) :
  k < n -> nth k (map f (seq 0 n)) d = f k.
Proof.
  intros Hk. rewrite (nth_indep _ d (f 0)) by now rewrite length_map, length_seq.
  rewrite map_nth, seq_nth by assumption. reflexivity.
Qed.

Lemma map_nth_seq {A : Type} (l : list A) (d : A) :
  map (fun k => nth k l d) (seq 0 (length l)) = l.
Proof.
  induction l as [|a l IH]; simpl; [reflexivity|].
  f_equal. rewrite <- seq_shift, map_map. exact IH.
Qed.

Section TensorFacts.
  Context {A : Type} `{Default A}.

Lemma wf_tabulate (sh : list nat) (f : list nat -> A) : wf (tabulate sh f).
  Proof. unfold wf, tabulate; simpl. now rewrite length_map, length_seq. Qed.

Lemma get_tabulate (sh : list nat) (f : list nat -> A) (idx : list nat) :
    in_range idx sh -> get (tabulate sh f) idx = f idx.
  Proof.
    intros Hr. unfold get, tabulate; simpl.
    rewrite nth_map_seq by now apply ravel_lt.
    now rewrite unravel_ravel.
  Qed.

Lemma tabulate_ext (sh : list nat) (f g : list nat -> A) :
    (forall idx, in_range idx sh -> f idx = g idx) ->
    tabulate sh f = tabulate sh g.
  Proof.
    intros E. unfold tabulate. f_equal. apply map_ext_in.
    intros k Hk. apply in_seq in Hk. apply E, unravel_in_range. lia.
  Qed.

Lemma tensor_eta (t : tensor A) :
    wf t -> t = tabulate (shape t) (get t).
  Proof.
    destruct t as [sh l]. unfold wf, tabulate, get; simpl. intros Hwf.
    f_equal. rewrite <- Hwf.
    rewrite <- (map_nth_seq l dflt) at 1.
    apply map_ext_in. intros k Hk. apply in_seq in Hk.
    now rewrite ravel_unravel by lia.
  Qed.

Lemma tensor_ext (t1 t2 : tensor A) :
    wf t1 -> wf t2 -> shape t1 = shape t2 ->
    (forall idx, in_range idx (shape t1) -> get t1 idx = get t2 idx) ->
    t1 = t2.
  Proof.
    intros W1 W2 Hs E.
    rewrite (tensor_eta _ W1), (tensor_eta _ W2), <- Hs.
    now apply tabulate_ext.
  Qed.

Lemma get_same_data (t1 t2 : tensor A) (i1 i2 : list nat) :
    data t1 = data t2 ->
    ravel (shape t1) i1 = ravel (shape t2) i2 ->
    get t1 i1 = get t2 i2.
  Proof. unfold get. now intros -> ->. Qed.

Lemma view_ok (t : tensor A) (sh : list nat) :
    numel sh = numel (shape t) ->
    view t sh = Ok {| shape := sh; data := data t |}.
  Proof. intros E. unfold view. now rewrite E, Nat.eqb_refl. Qed.

End TensorFacts.

Lemma get_tmap {A B : Type} `{Default A} `{Default B}
    (f : A -> B) (t : tensor A) (idx : list nat) :
  wf t -> in_range idx (shape t) -> get (tmap f t) idx = f (get t idx).
Proof.
  intros Hwf Hr. unfold get, tmap; simpl.
  rewrite (nth_indep _ dflt (f dflt)).
  - apply map_nth.
  - rewrite length_map, Hwf. now apply ravel_lt.
Qed.

Lemma wf_tmap {A B : Type} (f : A -> B) (t : tensor A) :
  wf t -> wf (tmap f t).
Proof. unfold wf, tmap; simpl. now rewrite length_map. Qed.

(** ** Results *)

Lemma bind_ok_inv {A B : Type} (r : result A) (k : A -> result B) (y : B) :
  bind r k = Ok y -> exists x, r = Ok x /\ k x = Ok y.
Proof. destruct r as [x|e]; simpl; [eauto | discriminate]. Qed.

Lemma Ok_inj {A : Type} (a b : A) : Ok a = Ok b -> a = b.
Proof. now intros [= ->]. Qed.

Ltac inv_bind H :=
  let x := fresh "x" in
  let E := fresh "E" in
  apply bind_ok_inv in H; destruct H as (x & E & H).

Lemma guard_ok_inv (b : bool) (e : PyError) (u : unit) :
  guard b e = Ok u -> b = true.
Proof. destruct b; simpl; [reflexivity | discriminate]. Qed.

(** ** Rounding to a multiple *)

Lemma round_up_cases (n k : Z) :
  (0 < k)%Z ->
  round_up n k = (if (n mod k =? 0)%Z then n else n + k - n mod k)%Z.
Proof.
  intros Hk. unfold round_up.
  pose proof (Z.div_mod n k ltac:(lia)) as Hdm.
  pose proof (Z.mod_pos_bound n k Hk) as Hb.
  destruct (Z.eqb_spec (n mod k) 0) as [E|E].
  - replace (n + k - 1)%Z with ((k - 1) + (n / k) * k)%Z by lia.
    rewrite Z.div_add, Z.div_small by lia. lia.
  - replace (n + k - 1)%Z with ((n mod k - 1) + (n / k + 1) * k)%Z by lia.
    rewrite Z.div_add, Z.div_small by lia. lia.
Qed.

Lemma find_multiple_round_up (n k : Z) :
  (0 < k)%Z -> find_multiple n k = Ok (round_up n k).
Proof.
  intros Hk. unfold find_multiple, py_mod.
  destruct (Z.eqb_spec k 0) as [E|_]; [lia|]. simpl.
  rewrite round_up_cases by assumption.
  now destruct (n mod k =? 0)%Z.
Qed.

(** [round_up n k] is the least multiple of [k] that is at least [n]. *)
Lemma round_up_least (n k : Z) :
  (0 < k)%Z ->
  (k | round_up n k)%Z /\ (n <= round_up n k)%Z /\
  (forall m, (k | m)%Z -> (n <= m)%Z -> (round_up n k <= m)%Z).
Proof.
  intros Hk. unfold round_up. repeat split.
  - exists ((n + k - 1) / k)%Z. lia.
  - pose proof (Z.mul_succ_div_gt (n + k - 1) k Hk). lia.
  - intros m [q ->] Hle.
    assert ((n + k - 1) / k <= q)%Z.
    { apply Z.lt_succ_r, Z.div_lt_upper_bound; nia. }
    nia.
Qed.

Lemma find_multiple_zero (n : Z) : find_multiple n 0 = Raise ZeroDivisionError.
Proof. reflexivity. Qed.

(** ** Configuration *)

Lemma py_floordiv_ok_inv (n k q : Z) :
  py_floordiv n k = Ok q -> k <> 0%Z /\ q = (n / k)%Z.
Proof.
  unfold py_floordiv. destruct (Z.eqb_spec k 0); [discriminate|].
  intros [= <-]. auto.
Qed.

Lemma post_init_fields (f : ModelArgsFields) (a : ModelArgs) :
  post_init f = Ok a ->
  dim a = f_dim f /\ n_heads a = f_n_heads f /\
  n_kv_heads a = match f_n_kv_heads f with
                 | None => f_n_heads f
                 | Some k => k
                 end /\
  multiple_of a = f_multiple_of f /\
  ffn_dim_multiplier a = match f_ffn_dim_multiplier f with
                         | None => four_thirds
                         | Some m => m
                         end /\
  exists n,
    (two_m <- PyFloat.int_mul 2 (ffn_dim_multiplier a) ;;
     prod <- PyFloat.mul_int two_m (f_dim f) ;;
     PyFloat.to_int prod)%py = Ok n /\
    find_multiple n (f_multiple_of f) = Ok (intermediate_size a).
Proof.
  unfold post_init. intros Hp.
  inv_bind Hp. rename x into m, E into Em.
  inv_bind Hp. rename x into two_m, E into E2.
  inv_bind Hp. rename x into prod, E into Ep.
  inv_bind Hp. rename x into size, E into Es.
  inv_bind Hp. rename x into size', E into Ef.
  injection Hp as <-.
  cbn [dim n_heads n_kv_heads multiple_of ffn_dim_multiplier intermediate_size].
  repeat split; try reflexivity.
  - destruct (f_ffn_dim_multiplier f); [now injection Em as -> |].
    vm_compute in Em. now injection Em as <-.
  - exists size. rewrite E2. cbn [bind]. rewrite Ep. cbn [bind]. now split.
Qed.

Lemma Linear_new_inv {T : Type} `{Engine T} (rand : list nat -> T)
    (i o : Z) (w : tensor T) :
  Linear_new rand i o = Ok w ->
  (0 <= i)%Z /\ (0 <= o)%Z /\
  w = tabulate [Z.to_nat o; Z.to_nat i] rand.
Proof.
  unfold Linear_new. intros Hw. inv_bind Hw.
  apply guard_ok_inv, andb_prop in E as [Hi Ho].
  injection Hw as <-. repeat split; lia.
Qed.

(** C6.  For every configuration with a positive [multiple_of], the
    width of [w1] and [w3] comes from two stages: [ModelArgs] sets
    [intermediate_size] to [int(2 * ffn_dim_multiplier * dim)] rounded up
    to a multiple of [multiple_of], and [FeedForward] takes
    [int(2 * intermediate_size / 3)] rounded up to a multiple of
    [multiple_of] again. *)
Theorem feed_forward_width_two_stages
    {T : Type} `{Engine T} (rand : list nat -> T)
    (f : ModelArgsFields) (a : ModelArgs) (layer_id : Z)
    (blk : TransformerBlock T) :
  (0 < f_multiple_of f)%Z ->
  post_init f = Ok a ->
  TransformerBlock_new rand layer_id a = Ok blk ->
  exists hidden : Z,
    spec_intermediate_size (ffn_dim_multiplier a) (f_dim f) (f_multiple_of f)
      = Ok (intermediate_size a) /\
    spec_hidden_dim (intermediate_size a) (f_multiple_of f) = Ok hidden /\
    shape (w1 (feed_forward blk)) = [Z.to_nat hidden; Z.to_nat (f_dim f)] /\
    shape (w3 (feed_forward blk)) = [Z.to_nat hidden; Z.to_nat (f_dim f)] /\
    shape (w2 (feed_forward blk)) = [Z.to_nat (f_dim f); Z.to_nat hidden].
Proof.
  intros Hk Hp Hb.
  destruct (post_init_fields _ _ Hp) as (Hd & _ & _ & Hm & _ & n & Hn & Hf).
  rewrite find_multiple_round_up in Hf by assumption.
  injection Hf as Hf.
  unfold TransformerBlock_new in Hb.
  inv_bind Hb. clear E x.
  inv_bind Hb. rename x into att, E into Eatt.
  inv_bind Hb. rename x into ff, E into Eff.
  inv_bind Hb. rename x into an, E into Ean.
  inv_bind Hb. rename x into fn, E into Efn.
  injection Hb as <-. cbn [feed_forward].
  unfold FeedForward_new in Eff.
  inv_bind Eff. rename x into hidden, E into Eh.
  inv_bind Eff. rename x into w1_, E into E1.
  apply Linear_new_inv in E1 as (_ & _ & ->).
  inv_bind Eff. rename x into w2_, E into E2.
  apply Linear_new_inv in E2 as (_ & _ & ->).
  inv_bind Eff. rename x into w3_, E into E3.
  apply Linear_new_inv in E3 as (_ & _ & ->).
  injection Eff as <-. cbn [w1 w2 w3 shape tabulate].
  exists hidden. rewrite Hd, Hm in *.
  repeat split.
  - unfold spec_intermediate_size.
    inv_bind Hn. rewrite E. cbn [bind].
    inv_bind Hn. rewrite E0. cbn [bind]. rewrite Hn. cbn [bind]. now rewrite Hf.
  - unfold FeedForward_hidden_dim in Eh. unfold spec_hidden_dim.
    inv_bind Eh. rewrite E. cbn [bind].
    inv_bind Eh. rewrite E0. cbn [bind].
    rewrite find_multiple_round_up in Eh by assumption. exact Eh.
Qed.

Lemma feed_forward_width_two_stages_witness :
  exists (blk : TransformerBlock unit) (hidden : Z),
    post_init small_fields = Ok small_args /\
    TransformerBlock_new (fun _ => tt) 0 small_args = Ok blk /\
    spec_hidden_dim (intermediate_size small_args) 4 = Ok hidden /\
    shape (w1 (feed_forward blk)) = [Z.to_nat hidden; 8].
Proof.
  assert (Ha : post_init small_fields = Ok small_args) by (vm_compute; reflexivity).
  destruct (TransformerBlock_new (fun _ : list nat => tt) 0 small_args)
    as [blk|e] eqn:Eb; [|vm_compute in Eb; discriminate].
  destruct (feed_forward_width_two_stages (fun _ : list nat => tt)
              small_fields small_args 0 blk ltac:(simpl; lia) Ha Eb)
    as (hidden & _ & Hh & H1 & _).
  exists blk, hidden. repeat split; assumption.
Defined.

(** The two stages on the configuration of [main]: 352, then 256. *)
Example main_widths :
  exists a, post_init main_fields = Ok a /\
            intermediate_size a = 352%Z /\
            FeedForward_hidden_dim (intermediate_size a) (multiple_of a) = Ok 256%Z.
Proof. eexists. split; [vm_compute; reflexivity|]. split; vm_compute; reflexivity. Qed.

(** C1, as amended.  [__post_init__] has no divisibility check: whether
    it succeeds, and the sizes it stores, do not depend on the head
    counts; [Attention.__init__] then takes [dim // n_heads] and
    [n_heads // n_kv_heads] by floor division. *)
Theorem post_init_ignores_divisibility
    (f : ModelArgsFields) (a : ModelArgs) (h : Z) (kv : option Z) :
  post_init f = Ok a ->
  dim a = f_dim f /\ n_heads a = f_n_heads f /\
  n_kv_heads a = match f_n_kv_heads f with
                 | None => f_n_heads f
                 | Some k => k
                 end /\
  (exists a', post_init (with_heads f h kv) = Ok a' /\
              n_heads a' = h /\
              intermediate_size a' = intermediate_size a) /\
  (forall (T : Type) (E : Engine T) (rand : list nat -> T) (att : Attention T),
      Attention_new rand a = Ok att ->
      att_head_dim att = (dim a / n_heads a)%Z /\
      att_n_rep att = (n_heads a / n_kv_heads a)%Z).
Proof.
  intros Hp.
  destruct (post_init_fields _ _ Hp) as (Hd & Hh & Hkv & _).
  repeat split; try assumption.
  - unfold post_init in *.
    cbn [with_heads f_dim f_n_layers f_n_heads f_n_kv_heads f_vocab_size
         f_multiple_of f_ffn_dim_multiplier f_norm_eps f_max_batch_size
         f_max_seq_len].
    inv_bind Hp. rewrite E. cbn [bind].
    inv_bind Hp. rewrite E0. cbn [bind].
    inv_bind Hp. rewrite E1. cbn [bind].
    inv_bind Hp. rewrite E2. cbn [bind].
    inv_bind Hp. rewrite E3. cbn [bind].
    injection Hp as <-. eexists. split; [reflexivity|].
    cbn [n_heads intermediate_size]. auto.
  - unfold Attention_new in H.
    inv_bind H. inv_bind H. apply py_floordiv_ok_inv in E1 as [_ ->].
    repeat (inv_bind H). now injection H as <-.
  - unfold Attention_new in H.
    inv_bind H. apply py_floordiv_ok_inv in E0 as [_ ->].
    repeat (inv_bind H). now injection H as <-.
Qed.

Lemma post_init_ignores_divisibility_witness :
  exists a', post_init (with_heads small_fields 5 (Some 2%Z)) = Ok a' /\
             n_heads a' = 5%Z /\ intermediate_size a' = 24%Z.
Proof.
  assert (Ha : post_init small_fields = Ok small_args) by (vm_compute; reflexivity).
  destruct (post_init_ignores_divisibility small_fields small_args 5 (Some 2%Z) Ha)
    as (_ & _ & _ & Hex & _).
  exact Hex.
Defined.

(** A configuration whose [dim] is not a multiple of [n_heads] is
    accepted, the model is built and a forward pass returns logits; one
    whose [n_heads] is not a multiple of [n_kv_heads] is accepted and
    built as well, and only the forward pass fails, on shapes. *)
Lemma indivisible_configurations_accepted :
  (f_dim uneven_dim_fields mod f_n_heads uneven_dim_fields <> 0)%Z /\
  succeeds (post_init uneven_dim_fields) = true /\
  shape_run uneven_dim_fields [1; 2; 3]%Z 0 = Ok [1; 3; 5] /\
  (f_n_heads uneven_heads_fields mod 2 <> 0)%Z /\
  succeeds (post_init uneven_heads_fields) = true /\
  succeeds (shape_model uneven_heads_fields) = true /\
  shape_run uneven_heads_fields [1; 2; 3]%Z 0 = Raise RuntimeError.
Proof.
  repeat split; try (vm_compute; congruence); vm_compute; reflexivity.
Qed.

(** ** Broadcast indices *)

Lemma bsel_lt (n i : nat) : i < n -> bsel n i = i.
Proof.
  unfold bsel. destruct (Nat.eqb_spec n 1); [lia | reflexivity].
Qed.

Lemma bsel_one (i : nat) : bsel 1 i = 0.
Proof. reflexivity. Qed.

Lemma broadcast_dim_same (a : nat) : broadcast_dim a a = Ok a.
Proof. unfold broadcast_dim. now rewrite Nat.eqb_refl. Qed.

Lemma broadcast_dim_one_r (a : nat) : broadcast_dim a 1 = Ok a.
Proof.
  unfold broadcast_dim. destruct (Nat.eqb_spec a 1) as [->|]; reflexivity.
Qed.

Lemma broadcast_dim_one_l (b : nat) : broadcast_dim 1 b = Ok b.
Proof.
  unfold broadcast_dim. destruct (Nat.eqb_spec 1 b) as [<-|]; reflexivity.
Qed.

(** ** The causal mask *)

Lemma triu_full_entry {A : Type} `{Default A} (z v : A) (n i j : nat) :
  i < n -> j < n ->
  get (triu z (full [1; 1; n; n] v) 1) [0; 0; i; j] = if i <? j then v else z.
Proof.
  intros Hi Hj. unfold triu.
  assert (Hr : in_range [0; 0; i; j] [1; 1; n; n]) by (simpl; lia).
  change (shape (full [1; 1; n; n] v)) with [1; 1; n; n].
  rewrite get_tabulate by exact Hr.
  cbn [length Nat.sub nth].
  unfold full. rewrite get_tabulate by exact Hr.
  destruct (Nat.ltb_spec i j), (Z.leb_spec 1 (Z.of_nat j - Z.of_nat i));
    try reflexivity; lia.
Qed.

(** C4.  The mask that [Transformer.forward] builds is the one every
    layer, and in it [Attention.forward], receives.  For a sequence of two positions or more its entry
    [i][j] is minus infinity when [i < j] and zero when [i >= j]; for a
    sequence of one position no mask is built and the layers, hence
    attention, receive [None]. *)
Theorem causal_mask_strictly_upper
    {T : Type} `{Engine T}
    (self : Transformer T) (tokens : tensor Z) (start_pos : Z)
    (bsz seqlen : nat) :
  shape tokens = [bsz; seqlen] ->
  snd (Transformer_forward self tokens start_pos) =
    (h <- embedding (tok_embeddings self) tokens ;;
     freqs <- slice0 (freqs_cis self) start_pos (start_pos + Z.of_nat seqlen) ;;
     h <- run_layers (layers self) h freqs (causal_mask seqlen) ;;
     h <- RMSNorm_forward (norm self) h ;;
     linear (output self) h)%py /\
  (forall (blk : TransformerBlock T) (ls : list (TransformerBlock T))
          (h : tensor T) (freqs : tensor (complex T)),
      run_layers (blk :: ls) h freqs (causal_mask seqlen) =
        (nx <- RMSNorm_forward (attention_norm blk) h ;;
         a <- Attention_forward (attention blk) nx freqs (causal_mask seqlen) ;;
         h1 <- broadcast_op add h a ;;
         nh <- RMSNorm_forward (ffn_norm blk) h1 ;;
         f <- FeedForward_forward (feed_forward blk) nh ;;
         h' <- broadcast_op add h1 f ;;
         run_layers ls h' freqs (causal_mask seqlen))%py) /\
  (seqlen = 1 -> causal_mask (T := T) seqlen = None) /\
  (2 <= seqlen ->
   exists m : tensor T,
     causal_mask seqlen = Some m /\
     shape m = [1; 1; seqlen; seqlen] /\
     forall i j, i < seqlen -> j < seqlen ->
       get m [0; 0; i; j] = if i <? j then neg_inf else zero).
Proof.
  intros Hs. split; [|split; [|split]].
  - unfold Transformer_forward. rewrite Hs.
    destruct (embedding (tok_embeddings self) tokens); reflexivity.
  - intros blk ls h freqs. cbn [run_layers]. unfold TransformerBlock_forward.
    destruct (RMSNorm_forward (attention_norm blk) h) as [nx|]; cbn [bind];
      [|reflexivity].
    destruct (Attention_forward (attention blk) nx freqs (causal_mask seqlen))
      as [a|]; cbn [bind]; [|reflexivity].
    destruct (broadcast_op add h a) as [h1|]; cbn [bind]; [|reflexivity].
    destruct (RMSNorm_forward (ffn_norm blk) h1) as [nh|]; cbn [bind];
      [|reflexivity].
    destruct (FeedForward_forward (feed_forward blk) nh) as [f|]; cbn [bind];
      reflexivity.
  - now intros ->.
  - intros Hn. unfold causal_mask.
    destruct (Nat.ltb_spec 1 seqlen) as [_|]; [|lia].
    eexists. split; [reflexivity|]. split; [reflexivity|].
    intros i j Hi Hj. now apply triu_full_entry.
Qed.

Lemma causal_mask_strictly_upper_witness :
  exists m : tensor unit,
    causal_mask 2 = Some m /\ shape m = [1; 1; 2; 2] /\
    get m [0; 0; 0; 1] = neg_inf /\ get m [0; 0; 1; 0] = zero.
Proof.
  destruct (causal_mask_strictly_upper (T := unit)
              {| params := small_args;
                 tok_embeddings := full [5; 8] tt;
                 layers := [];
                 norm := {| eps := tt; weight := full [8] tt |};
                 output := full [5; 8] tt;
                 freqs_cis := full [4; 1] (tt, tt);
                 device := CPU;
                 freqs_device := CPU |}
              (token_row [1; 2]%Z) 0 1 2 eq_refl)
    as (_ & _ & _ & Hm).
  destruct (Hm ltac:(lia)) as (m & Hc & Hs & He).
  exists m. repeat split; try assumption.
  - apply (He 0 1); lia.
  - apply (He 1 0); lia.
Defined.

(** ** Grouped-query expansion *)

Lemma of_nat_not_inferred (n : nat) : (Z.of_nat n =? -1)%Z = false.
Proof. apply Z.eqb_neq. lia. Qed.

Lemma of_nat_not_refused (n : nat) : (Z.of_nat n <? -1)%Z = false.
Proof. apply Z.ltb_ge. lia. Qed.

Lemma ravel_split_heads (b s kv r hd i j h d : nat) :
  0 < r ->
  ravel [b; s; kv * r; hd] [i; j; h; d] =
  ravel [b; s; kv; r; hd] [i; j; h / r; h mod r; d].
Proof.
  intros Hr. cbn [ravel numel fold_right].
  pose proof (Nat.div_mod_eq h r) as E.
  remember (h / r) as q. remember (h mod r) as m.
  rewrite E. ring.
Qed.

Section RepeatKVFacts.
  Context {A : Type} `{Default A}.

Lemma repeat_kv_expands (x : tensor A) (b s kv hd : nat) (n_rep : Z) :
    shape x = [b; s; kv; hd] ->
    (1 < n_rep)%Z ->
    repeat_kv x n_rep =
      Ok {| shape := [b; s; kv * Z.to_nat n_rep; hd];
            data := data (tabulate [b; s; kv; Z.to_nat n_rep; hd]
                            (fun idx =>
                               get {| shape := [b; s; kv; 1; hd]; data := data x |}
                                   (bidx [b; s; kv; 1; hd] idx))) |}.
  Proof.
    intros Hs Hn. unfold repeat_kv. rewrite Hs.
    destruct (Z.eqb_spec n_rep 1) as [|_]; [lia|].
    unfold unsqueeze_3. rewrite Hs. cbn [bind].
    unfold expand. cbn [shape expand_shape].
    rewrite !of_nat_not_inferred, !of_nat_not_refused, !Nat2Z.id, !Nat.eqb_refl.
    destruct (Z.eqb_spec n_rep (-1)) as [|_]; [lia|].
    destruct (Z.ltb_spec n_rep (-1)) as [|_]; [lia|].
    destruct (Nat.eqb_spec (Z.to_nat n_rep) 1) as [|_]; [lia|].
    cbn [bind Nat.eqb].
    unfold view_z.
    assert (Hneg : existsb (fun z => (z <? -1)%Z)
                     [Z.of_nat b; Z.of_nat s; (Z.of_nat kv * n_rep)%Z; Z.of_nat hd]
                   = false).
    { cbn [existsb]. rewrite !of_nat_not_refused.
      destruct (Z.ltb_spec (Z.of_nat kv * n_rep) (-1)); [nia | reflexivity]. }
    rewrite Hneg.
    assert (Hcnt : count_inferred
                     [Z.of_nat b; Z.of_nat s; (Z.of_nat kv * n_rep)%Z; Z.of_nat hd]
                   = 0).
    { unfold count_inferred. cbn [filter]. rewrite !of_nat_not_inferred.
      destruct (Z.eqb_spec (Z.of_nat kv * n_rep) (-1)); [nia | reflexivity]. }
    rewrite Hcnt. cbn [map]. rewrite !Nat2Z.id.
    replace (Z.to_nat (Z.of_nat kv * n_rep)) with (kv * Z.to_nat n_rep)
      by (rewrite Z2Nat.inj_mul, Nat2Z.id by lia; reflexivity).
    rewrite view_ok; [reflexivity|].
    cbn [shape tabulate numel fold_right]. ring.
  Qed.

End RepeatKVFacts.

Lemma repeat_kv_pointwise
    {A : Type} `{Default A} (x : tensor A) (b s kv hd : nat) (n_rep : Z) :
  wf x ->
  shape x = [b; s; kv; hd] ->
  (1 <= n_rep)%Z ->
  exists y : tensor A,
    repeat_kv x n_rep = Ok y /\
    wf y /\
    shape y = [b; s; kv * Z.to_nat n_rep; hd] /\
    (forall i j h d,
        i < b -> j < s -> h < kv * Z.to_nat n_rep -> d < hd ->
        get y [i; j; h; d] = get x [i; j; h / Z.to_nat n_rep; d]) /\
    (n_rep = 1%Z -> y = x).
Proof.
  intros Hwf Hs Hn.
  destruct (Z.eq_dec n_rep 1) as [->|Hne].
  - exists x. unfold repeat_kv. rewrite Hs. cbn [Z.eqb Pos.eqb].
    repeat split; try assumption; try reflexivity.
    + cbn [Z.to_nat Pos.to_nat Pos.iter_op]. now rewrite Nat.mul_1_r.
    + intros i j h d _ _ _ _. cbn [Z.to_nat Pos.to_nat Pos.iter_op].
      now rewrite Nat.div_1_r.
  - set (r := Z.to_nat n_rep). assert (Hr : 1 < r) by (unfold r; lia).
    rewrite (repeat_kv_expands x b s kv hd n_rep Hs) by lia.
    fold r. eexists. split; [reflexivity|].
    split; [|split; [reflexivity|split]].
    + unfold wf. cbn [shape data tabulate].
      rewrite length_map, length_seq. cbn [numel fold_right]. ring.
    + intros i j h d Hi Hj Hh Hd.
      assert (Hq : h / r < kv).
      { apply Nat.Div0.div_lt_upper_bound. lia. }
      assert (Hm : h mod r < r) by (apply Nat.mod_upper_bound; lia).
      transitivity
        (get (tabulate [b; s; kv; r; hd]
                (fun idx =>
                   get {| shape := [b; s; kv; 1; hd]; data := data x |}
                       (bidx [b; s; kv; 1; hd] idx)))
             [i; j; h / r; h mod r; d]).
      { apply get_same_data; [reflexivity|].
        cbn [shape tabulate]. apply ravel_split_heads. lia. }
      rewrite get_tabulate by (simpl; lia).
      unfold bidx. cbn [length Nat.sub skipn combine map fst snd].
      rewrite bsel_one, !bsel_lt by assumption.
      apply get_same_data; [reflexivity|].
      rewrite Hs. cbn [shape ravel numel fold_right]. ring.
    + intros E. lia.
Qed.

Lemma repeat_kv_tabulate {A : Type} `{Default A} (x : tensor A)
    (b s kv hd r : nat) :
  wf x -> shape x = [b; s; kv; hd] -> 1 <= r ->
  repeat_kv x (Z.of_nat r) =
    Ok (tabulate [b; s; kv * r; hd]
          (fun idx => match idx with
                      | [i; j; h; d] => get x [i; j; h / r; d]
                      | _ => dflt
                      end)).
Proof.
  intros Hwf Hs Hr.
  destruct (repeat_kv_pointwise x b s kv hd (Z.of_nat r) Hwf Hs ltac:(lia))
    as (y & Hy & Hwy & Hsy & Hg & _).
  rewrite Nat2Z.id in *. rewrite Hy. f_equal.
  apply tensor_ext; [assumption | apply wf_tabulate | exact Hsy |].
  rewrite Hsy. intros idx Hidx.
  destruct idx as [|i [|j [|h [|d [|? ?]]]]]; simpl in Hidx; try tauto.
  rewrite get_tabulate by (simpl; lia).
  apply Hg; lia.
Qed.

(** C5.  On a tensor of shape [batch, seq, n_kv_heads, head_dim] and for
    [n_rep >= 1], [repeat_kv] returns a tensor of [n_kv_heads * n_rep]
    heads whose head [h] is the input head [h // n_rep]; for [n_rep = 1]
    it returns the input itself. *)
Theorem repeat_kv_head_index
    {A : Type} `{Default A} (x : tensor A) (b s kv hd : nat) (n_rep : Z) :
  wf x ->
  shape x = [b; s; kv; hd] ->
  (1 <= n_rep)%Z ->
  exists y : tensor A,
    repeat_kv x n_rep = Ok y /\
    wf y /\
    shape y = [b; s; kv * Z.to_nat n_rep; hd] /\
    (forall i j h d,
        i < b -> j < s -> h < kv * Z.to_nat n_rep -> d < hd ->
        get y [i; j; h; d] = get x [i; j; h / Z.to_nat n_rep; d]) /\
    (n_rep = 1%Z -> y = x).
Proof.
  intros Hwf Hs Hn.
  pose proof (repeat_kv_tabulate x b s kv hd (Z.to_nat n_rep) Hwf Hs
                ltac:(lia)) as Ht.
  rewrite Z2Nat.id in Ht by lia.
  eexists. split; [exact Ht|].
  split; [apply wf_tabulate|]. split; [reflexivity|]. split.
  - intros i j h d Hi Hj Hh Hd.
    rewrite get_tabulate by (cbn [in_range]; auto). reflexivity.
  - intros ->. unfold repeat_kv in Ht. rewrite Hs in Ht.
    cbn [Z.eqb Pos.eqb] in Ht. apply Ok_inj in Ht. now symmetry.
Qed.

Lemma repeat_kv_head_index_witness :
  let x : tensor Z :=
    {| shape := [1; 1; 3; 1]; data := [10; 20; 30]%Z |} in
  exists y : tensor Z,
    repeat_kv x 3 = Ok y /\
    shape y = [1; 1; 9; 1] /\
    get y [0; 0; 7; 0] = 30%Z.
Proof.
  intros x.
  destruct (repeat_kv_head_index x 1 1 3 1 3 eq_refl eq_refl ltac:(lia))
    as (y & Hy & _ & Hs & Hg & _).
  exists y. repeat split; try assumption.
  rewrite (Hg 0 0 7 0) by (simpl; lia). reflexivity.
Defined.

(** ** Greedy decoding *)

Section ArgmaxFacts.
  Context {T : Type}.
  Variable ltb : T -> T -> bool.
  Variable f : T -> T.
  Hypothesis f_order : forall a b, ltb (f a) (f b) = ltb a b.

Lemma argmax_from_map (l : list T) (pos best : nat) (v : T) :
    argmax_from ltb (map f l) pos best (f v) = argmax_from ltb l pos best v.
  Proof.
    revert pos best v; induction l as [|x l IH]; intros pos best v; simpl.
    - reflexivity.
    - rewrite f_order. destruct (ltb v x); apply IH.
  Qed.

Lemma argmax_map (l : list T) : argmax ltb (map f l) = argmax ltb l.
  Proof.
    destruct l as [|x l]; simpl; [reflexivity|].
    now rewrite argmax_from_map.
  Qed.

Lemma mapM_ext {X Y : Type} (g h : X -> result Y) (l : list X) :
    (forall x, In x l -> g x = h x) -> mapM g l = mapM h l.
  Proof.
    induction l as [|x l IH]; intros E; simpl; [reflexivity|].
    rewrite (E x) by now left.
    rewrite IH by (intros y Hy; apply E; now right). reflexivity.
  Qed.

  Context `{Default T}.

Lemma row_tmap (t : tensor T) (i b v : nat) :
    wf t -> shape t = [b; v] -> i < b ->
    row (tmap f t) [i] = map f (row t [i]).
  Proof.
    intros Hwf Hs Hi. unfold row. cbn [shape tmap]. rewrite Hs.
    cbn [last]. rewrite map_map. apply map_ext_in.
    intros k Hk. apply in_seq in Hk.
    apply get_tmap; [assumption|]. rewrite Hs. simpl. lia.
  Qed.

Lemma argmax_last_tmap (t : tensor T) (b v : nat) :
    wf t -> shape t = [b; v] ->
    argmax_last ltb (tmap f t) = argmax_last ltb t.
  Proof.
    intros Hwf Hs. unfold argmax_last. cbn [shape tmap]. rewrite Hs.
    f_equal. apply mapM_ext. intros i Hi. apply in_seq in Hi.
    rewrite (row_tmap t i b v) by (assumption || lia).
    apply argmax_map.
  Qed.

End ArgmaxFacts.

Lemma last_position_wf {T : Type} `{Default T} (outputs lastp : tensor T) :
  last_position outputs = Ok lastp ->
  wf lastp /\ exists b v, shape lastp = [b; v].
Proof.
  unfold last_position.
  destruct (shape outputs) as [|b [|s [|v [|? ?]]]]; try discriminate.
  destruct (s =? 0); [discriminate|].
  intros [= <-]. split; [apply wf_tabulate|]. now exists b, v.
Qed.

Section GreedyFacts.
  Context {T : Type} `{Default T}.
  Variable tdiv : T -> T -> T.
  Variable ltb : T -> T -> bool.
  Context {St Text : Type}.
  Variable model : St -> tensor Z -> Z -> St * result (tensor T).
  Variable eos_token_id : Z.

(** Two temperatures whose divisions keep the order that [argmax]
      compares with give the same run. *)
Lemma greedy_loop_order_invariant (t1 t2 : T) :
    (forall a b, ltb (tdiv a t1) (tdiv b t1) = ltb a b) ->
    (forall a b, ltb (tdiv a t2) (tdiv b t2) = ltb a b) ->
    forall n st ids,
      greedy_loop tdiv ltb model eos_token_id n st ids t1 =
      greedy_loop tdiv ltb model eos_token_id n st ids t2.
  Proof.
    intros H1 H2. induction n as [|n IH]; intros st ids; simpl; [reflexivity|].
    destruct (model st ids 0%Z) as [st' [outputs|e]]; cbn [bind]; [|reflexivity].
    destruct (last_position outputs) as [lastp|e] eqn:El; cbn [bind]; [|reflexivity].
    destruct (last_position_wf _ _ El) as (Hwf & b & v & Hs).
    rewrite (argmax_last_tmap ltb (fun x => tdiv x t1) H1 lastp b v Hwf Hs).
    rewrite (argmax_last_tmap ltb (fun x => tdiv x t2) H2 lastp b v Hwf Hs).
    destruct (argmax_last ltb lastp) as [next|e]; cbn [bind]; [|reflexivity].
    destruct (cat_last ids next) as [ids'|e]; cbn [bind]; [|reflexivity].
    destruct (item next) as [tok|e]; cbn [bind]; [|reflexivity].
    destruct (tok =? eos_token_id)%Z; [reflexivity | apply IH].
  Qed.

End GreedyFacts.

Lemma Rltb_div (t a b : R) :
  (0 < t)%R -> Rltb (a / t) (b / t) = Rltb a b.
Proof.
  intros Ht. unfold Rltb.
  assert (Hi : (0 < / t)%R) by now apply Rinv_0_lt_compat.
  destruct (Rlt_dec (a / t) (b / t)) as [L|L], (Rlt_dec a b) as [L'|L'];
    try reflexivity; exfalso.
  - apply L'. unfold Rdiv in L.
    now apply (Rmult_lt_reg_r (/ t)).
  - apply L. unfold Rdiv. now apply Rmult_lt_compat_r.
Qed.

(** C10, as amended.  [generate_text_greedy] divides the logits of the
    last position by the temperature before the argmax.  In any
    arithmetic, a temperature whose division keeps the strict order that
    the argmax compares with has no effect: the argmax of the divided
    logits is the argmax of the raw logits, and two such temperatures
    give the same run, state and text.  In exact arithmetic every
    positive temperature is such a temperature. *)
Theorem greedy_temperature_order_preserving :
  (forall (T : Type) (D : Default T)
          (tdiv : T -> T -> T) (ltb : T -> T -> bool)
          (St Text : Type)
          (model : St -> tensor Z -> Z -> St * result (tensor T))
          (encode : Text -> tensor Z) (decode : list Z -> Text)
          (eos_token_id : Z) (st : St) (prompt : Text) (max_length : Z)
          (temperature temperature' : T),
      (forall a b, ltb (tdiv a temperature) (tdiv b temperature) = ltb a b) ->
      (forall a b, ltb (tdiv a temperature') (tdiv b temperature') = ltb a b) ->
      (forall (logits : tensor T) (b v : nat),
          wf logits -> shape logits = [b; v] ->
          argmax_last ltb (tmap (fun x => tdiv x temperature) logits) =
          argmax_last ltb logits) /\
      generate_text_greedy tdiv ltb model encode decode eos_token_id
        st prompt max_length temperature =
      generate_text_greedy tdiv ltb model encode decode eos_token_id
        st prompt max_length temperature') /\
  (forall temperature : R,
      (0 < temperature)%R ->
      forall a b : R,
        Rltb (Rdiv a temperature) (Rdiv b temperature) = Rltb a b).
Proof.
  split.
  - intros T D tdiv ltb St Text model encode decode eos_token_id st prompt
      max_length temperature temperature' Ht Ht'. split.
    + intros logits b v Hwf Hs.
      now apply (argmax_last_tmap ltb (fun x => tdiv x temperature) Ht
                   logits b v).
    + unfold generate_text_greedy.
      now rewrite (greedy_loop_order_invariant tdiv ltb model eos_token_id
                     temperature temperature' Ht Ht').
  - intros temperature Ht a b. now apply Rltb_div.
Qed.

Lemma greedy_temperature_order_preserving_witness :
  generate_text_greedy Rdiv Rltb toy_model token_row (fun l => l) 7%Z
    tt [3; 4]%Z 2%Z 2%R =
  generate_text_greedy Rdiv Rltb toy_model token_row (fun l => l) 7%Z
    tt [3; 4]%Z 2%Z (1 / 2)%R.
Proof.
  exact (proj2 (proj1 greedy_temperature_order_preserving
                  R _ Rdiv Rltb unit (list Z)
                  toy_model token_row (fun l => l)
                  7%Z tt [3; 4]%Z 2%Z 2%R (1 / 2)%R
                  (proj2 greedy_temperature_order_preserving 2%R ltac:(lra))
                  (proj2 greedy_temperature_order_preserving (1 / 2)%R
                     ltac:(lra)))).
Defined.

(** In the 32-bit floats of the logits a positive temperature can change
    the tokens.  Dividing two neighbouring logits by [0.7] rounds both
    to one quotient, and the argmax, which takes the first of equal
    logits, moves from token 1 to token 0.  The temperature [1e40] is
    infinite as a 32-bit float, every quotient is zero, and the run that
    gives [3, 4, 1, 1] at the default temperature [1.0] gives
    [3, 4, 0, 0]. *)
Lemma float32_temperature_changes_tokens :
  let t := Float32.of_float seven_tenths in
  SFltb (S754_zero false) seven_tenths = true /\
  SFltb (S754_zero false) ten_to_forty = true /\
  wf close_logits /\
  argmax_last Float32.ltb close_logits
    = Ok {| shape := [1; 1]; data := [1%Z] |} /\
  argmax_last Float32.ltb (tmap (fun x => Float32.div x t) close_logits)
    = Ok {| shape := [1; 1]; data := [0%Z] |} /\
  generate_text_greedy Float32.div Float32.ltb toy_model_float32
    token_row (fun l => l) 7%Z tt [3; 4]%Z 2%Z (Float32.of_float one_double)
    = (tt, Ok [3; 4; 1; 1]%Z) /\
  generate_text_greedy Float32.div Float32.ltb toy_model_float32
    token_row (fun l => l) 7%Z tt [3; 4]%Z 2%Z (Float32.of_float ten_to_forty)
    = (tt, Ok [3; 4; 0; 0]%Z).
Proof.
  vm_compute. repeat split.
Qed.

(** ** Broadcasting *)

Lemma broadcast_rev_nil_r (r : list nat) : broadcast_rev r [] = Ok r.
Proof. now destruct r. Qed.

Lemma broadcast_rev_same (r : list nat) : broadcast_rev r r = Ok r.
Proof.
  induction r as [|a r IH]; simpl; [reflexivity|].
  rewrite IH. cbn [bind]. now rewrite broadcast_dim_same.
Qed.

Lemma broadcast_shapes_same (sh : list nat) : broadcast_shapes sh sh = Ok sh.
Proof.
  unfold broadcast_shapes. rewrite broadcast_rev_same. cbn [bind].
  now rewrite rev_involutive.
Qed.

Lemma broadcast_shapes_keepdim (lead : list nat) (d : nat) :
  broadcast_shapes (lead ++ [d]) (lead ++ [1]) = Ok (lead ++ [d]).
Proof.
  unfold broadcast_shapes. rewrite !rev_unit. cbn [broadcast_rev].
  rewrite broadcast_rev_same. cbn [bind]. rewrite broadcast_dim_one_r.
  cbn [bind rev]. now rewrite rev_involutive.
Qed.

Lemma broadcast_shapes_vector (lead : list nat) (d : nat) :
  broadcast_shapes (lead ++ [d]) [d] = Ok (lead ++ [d]).
Proof.
  unfold broadcast_shapes. rewrite rev_unit. cbn [rev app broadcast_rev].
  rewrite broadcast_rev_nil_r. cbn [bind]. rewrite broadcast_dim_same.
  cbn [bind rev]. now rewrite rev_involutive.
Qed.

Lemma bidx_same_length (sh idx : list nat) :
  length idx = length sh ->
  bidx sh idx = map (fun p => bsel (fst p) (snd p)) (combine sh idx).
Proof.
  intros E. unfold bidx. now rewrite E, Nat.sub_diag.
Qed.

Lemma bidx_in_range (sh idx : list nat) :
  in_range idx sh -> bidx sh idx = idx.
Proof.
  intros Hr. rewrite bidx_same_length by now apply in_range_length.
  revert idx Hr; induction sh as [|n sh IH]; intros [|i idx]; simpl; try tauto.
  intros [Hi Hr]. now rewrite bsel_lt, IH.
Qed.

Lemma combine_app_same {X Y : Type} (l1 l2 : list X) (m1 m2 : list Y) :
  length l1 = length m1 ->
  combine (l1 ++ l2) (m1 ++ m2) = combine l1 m1 ++ combine l2 m2.
Proof.
  revert m1; induction l1 as [|a l1 IH]; intros [|b m1]; simpl; try discriminate.
  - reflexivity.
  - intros [= E]. now rewrite IH.
Qed.

Lemma bidx_app (s1 s2 i1 i2 : list nat) :
  length i1 = length s1 -> length i2 = length s2 ->
  bidx (s1 ++ s2) (i1 ++ i2) = bidx s1 i1 ++ bidx s2 i2.
Proof.
  intros E1 E2.
  rewrite !bidx_same_length by (rewrite ?length_app; lia).
  rewrite combine_app_same by lia. now rewrite map_app.
Qed.

Lemma bidx_last (d i : nat) (il : list nat) :
  bidx [d] (il ++ [i]) = [bsel d i].
Proof.
  unfold bidx. rewrite length_app. cbn [length].
  replace (length il + 1 - 1) with (length il + 0) by lia.
  rewrite skipn_app, Nat.add_0_r, skipn_all.
  replace (length il - length il) with 0 by lia. reflexivity.
Qed.

Section BroadcastFacts.
  Context {A B C : Type} `{Default A} `{Default B}.

Lemma broadcast_op_ok (f : A -> B -> C) (t1 : tensor A) (t2 : tensor B)
      (sh : list nat) :
    broadcast_shapes (shape t1) (shape t2) = Ok sh ->
    broadcast_op f t1 t2 =
      Ok (tabulate sh (fun idx => f (get t1 (bidx (shape t1) idx))
                                    (get t2 (bidx (shape t2) idx)))).
  Proof. intros E. unfold broadcast_op. now rewrite E. Qed.

Lemma broadcast_op_shape (f : A -> B -> C) (t1 : tensor A) (t2 : tensor B)
      (y : tensor C) :
    broadcast_op f t1 t2 = Ok y ->
    broadcast_shapes (shape t1) (shape t2) = Ok (shape y) /\ wf y.
  Proof.
    unfold broadcast_op. intros Hy. inv_bind Hy. injection Hy as <-.
    split; [assumption | apply wf_tabulate].
  Qed.

End BroadcastFacts.

Lemma removelast_unit {A : Type} (l : list A) (a : A) :
  removelast (l ++ [a]) = l.
Proof. apply removelast_last. Qed.

Lemma last_unit {A : Type} (l : list A) (a d : A) : last (l ++ [a]) d = a.
Proof. apply last_last. Qed.

Lemma mean_last_ok {T : Type} `{Arith T} (x : tensor T) :
  shape x <> [] ->
  mean_last x =
    Ok (tabulate (removelast (shape x) ++ [1])
          (fun idx => mean (row x (removelast idx)))).
Proof.
  unfold mean_last. destruct (shape x); [congruence | reflexivity].
Qed.

(** ** RMSNorm *)

Lemma row_map_get {A B : Type} `{Default A} `{Default B}
    (f : A -> B) (t : tensor A) (lead il : list nat) (d : nat) :
  wf t -> shape t = lead ++ [d] -> in_range il lead ->
  row (tmap f t) il = map f (row t il).
Proof.
  intros Hwf Hs Hr. unfold row. cbn [shape tmap]. rewrite Hs, last_unit.
  rewrite map_map. apply map_ext_in. intros k Hk. apply in_seq in Hk.
  apply get_tmap; [assumption|]. rewrite Hs.
  apply in_range_app; [assumption | simpl; lia].
Qed.

Section RMSNormFacts.
  Context {T : Type} `{Arith T}.

Lemma RMSNorm_forward_ok (self : RMSNorm T) (x : tensor T)
      (lead : list nat) (d : nat) :
    wf x -> shape x = lead ++ [d] -> shape (weight self) = [d] ->
    RMSNorm_forward self x = Ok (tabulate (lead ++ [d]) (rms_entry self x)).
  Proof.
    intros Hwf Hs Hw. unfold RMSNorm_forward, RMSNorm_norm.
    set (x' := tmap float_ x).
    assert (Hwf' : wf x') by now apply wf_tmap.
    assert (Hs' : shape x' = lead ++ [d]) by exact Hs.
    set (sq := tmap (fun v => powi v 2) x').
    assert (Hsq : shape sq = lead ++ [d]) by exact Hs.
    rewrite mean_last_ok by (rewrite Hsq; now destruct lead).
    cbn [bind]. rewrite Hsq, removelast_unit.
    set (m := tabulate (lead ++ [1]) _).
    assert (Hwm : wf m) by apply wf_tabulate.
    set (r := tmap rsqrt (tmap (fun v => add v (eps self)) m)).
    assert (Hwr : wf r) by (unfold r; now repeat apply wf_tmap).
    assert (Hsr : shape r = lead ++ [1]) by reflexivity.
    rewrite (broadcast_op_ok mul x' r (lead ++ [d]))
      by (rewrite Hs', Hsr; apply broadcast_shapes_keepdim).
    cbn [bind]. rewrite Hs', Hsr.
    set (n := tabulate (lead ++ [d]) _).
    assert (Hwn : wf n) by apply wf_tabulate.
    assert (Hsn : shape (tmap type_as n) = lead ++ [d]) by reflexivity.
    rewrite (broadcast_op_ok mul (tmap type_as n) (weight self) (lead ++ [d]))
      by (rewrite Hsn, Hw; apply broadcast_shapes_vector).
    rewrite Hsn, Hw.
    f_equal. apply tabulate_ext. intros idx Hr.
    destruct (in_range_app_inv _ _ _ Hr) as (il & i1 & -> & Hil & Hi1).
    destruct i1 as [|i [|? ?]]; simpl in Hi1; try tauto.
    destruct Hi1 as [Hi _].
    pose proof (in_range_length _ _ Hil) as Hlen.
    unfold rms_entry. rewrite removelast_unit, last_unit.
    rewrite bidx_last, bsel_lt by assumption.
    rewrite bidx_in_range by exact Hr.
    f_equal.
    rewrite get_tmap by (assumption || exact Hr). f_equal.
    unfold n. rewrite get_tabulate by exact Hr.
    rewrite bidx_in_range by exact Hr.
    rewrite (bidx_app lead [1] il [i]) by (assumption || reflexivity).
    rewrite bidx_in_range by exact Hil.
    cbn [bidx length Nat.sub skipn combine map fst snd]. rewrite bsel_one.
    assert (Hr0 : in_range (il ++ [0]) (lead ++ [1]))
      by (apply in_range_app; [assumption | simpl; lia]).
    f_equal.
    - unfold x'. apply get_tmap; [assumption | now rewrite Hs].
    - unfold r. rewrite get_tmap by (try apply wf_tmap; assumption || exact Hr0).
      f_equal.
      rewrite get_tmap by (assumption || exact Hr0). f_equal.
      unfold m. rewrite get_tabulate by exact Hr0.
      rewrite removelast_unit. f_equal.
      unfold sq. rewrite (row_map_get _ x' lead il d) by assumption.
      unfold x'. rewrite (row_map_get _ x lead il d) by assumption.
      now rewrite map_map.
  Qed.

End RMSNormFacts.

Lemma Rsum_map_ext (f g : R -> R) (l : list R) :
  (forall v, f v = g v) -> Rsum (map f l) = Rsum (map g l).
Proof. intros E. f_equal. apply map_ext. exact E. Qed.

(** C7.  In exact arithmetic, on an input whose last axis has [d]
    entries and with a scale vector of [d] entries, [RMSNorm.forward]
    returns at every index [weight_i * x_i / sqrt(mean_j(x_j^2) + eps)],
    the mean being the population mean of the squares of the row, with
    no mean subtracted. *)
Theorem rmsnorm_formula
    (self : RMSNorm R) (x : tensor R) (lead : list nat) (d : nat) :
  wf x ->
  shape x = lead ++ [d] ->
  shape (weight self) = [d] ->
  exists y : tensor R,
    RMSNorm_forward self x = Ok y /\
    shape y = shape x /\
    forall (il : list nat) (i : nat),
      in_range il lead -> i < d ->
      get y (il ++ [i]) =
        (get (weight self) [i] * get x (il ++ [i])
         / sqrt (mean_of_squares (row x il) + eps self))%R.
Proof.
  intros Hwf Hs Hw.
  rewrite (RMSNorm_forward_ok self x lead d Hwf Hs Hw).
  eexists. split; [reflexivity|]. split; [now rewrite Hs|].
  intros il i Hil Hi.
  rewrite get_tabulate by (apply in_range_app; [assumption | simpl; lia]).
  unfold rms_entry. rewrite removelast_unit, last_unit.
  cbn [mul type_as float_ rsqrt add mean powi real_arith].
  unfold mean_of_squares. rewrite length_map.
  rewrite (Rsum_map_ext (fun v => powerRZ v 2) (fun v => v * v)%R)
    by (intros v; simpl; ring).
  unfold Rdiv. ring.
Qed.

Lemma rmsnorm_formula_witness :
  let x : tensor R := {| shape := [2]; data := [3; 4]%R |} in
  let self : RMSNorm R :=
    {| eps := 0%R; weight := {| shape := [2]; data := [1; 1]%R |} |} in
  exists y : tensor R,
    RMSNorm_forward self x = Ok y /\
    get y [0] = (1 * 3 / sqrt (mean_of_squares [3; 4] + 0))%R.
Proof.
  intros x self.
  destruct (rmsnorm_formula self x [] 2 eq_refl eq_refl eq_refl)
    as (y & Hy & _ & Hg).
  exists y. split; [assumption|].
  exact (Hg [] 0 I ltac:(lia)).
Defined.

(** ** Slices of the first axis *)

Lemma slice_bound_le (n : nat) (i : Z) : slice_bound n i <= n.
Proof.
  unfold slice_bound. destruct (Z.ltb_spec i 0); lia.
Qed.

Lemma slice_bound_nonneg (n : nat) (i : Z) :
  (0 <= i)%Z -> slice_bound n i = Nat.min (Z.to_nat i) n.
Proof.
  intros Hi. unfold slice_bound. destruct (Z.ltb_spec i 0); [lia | reflexivity].
Qed.

Lemma slice0_ok {A : Type} `{Default A} (t : tensor A) (n : nat)
    (rest : list nat) (start stop : Z) :
  wf t -> shape t = n :: rest ->
  exists fr : tensor A,
    slice0 t start stop = Ok fr /\
    shape fr = (slice_bound n stop - slice_bound n start) :: rest /\
    wf fr /\
    forall p idx,
      p < slice_bound n stop - slice_bound n start ->
      in_range idx rest ->
      get fr (p :: idx) = get t ((slice_bound n start + p) :: idx).
Proof.
  intros Hwf Hs. unfold slice0. rewrite Hs.
  set (lo := slice_bound n start). set (hi := slice_bound n stop).
  pose proof (slice_bound_le n stop) as Hhi. fold hi in Hhi.
  eexists. split; [reflexivity|]. split; [reflexivity|].
  unfold wf in *. rewrite Hs in Hwf. cbn [numel fold_right] in Hwf.
  fold (numel rest) in Hwf.
  split.
  - cbn [shape data numel fold_right]. fold (numel rest).
    rewrite length_firstn, length_skipn, Hwf. nia.
  - intros p idx Hp Hr. unfold get. cbn [shape data].
    rewrite Hs. cbn [ravel]. pose proof (ravel_lt _ _ Hr) as Hlt.
    rewrite nth_firstn.
    destruct (Nat.ltb_spec (p * numel rest + ravel rest idx)
                ((hi - lo) * numel rest)) as [_|Hge]; [|nia].
    rewrite nth_skipn. f_equal. ring.
Qed.

(** ** Rotary position encoding *)

Lemma ravel_pairs (b s h f i j k d : nat) :
  ravel [b; s; h; f * 2] [i; j; k; d] =
  ravel [b; s; h; f; 2] [i; j; k; d / 2; d mod 2].
Proof.
  cbn [ravel numel fold_right].
  pose proof (Nat.div_mod_eq d 2) as E.
  remember (d / 2) as q. remember (d mod 2) as m.
  rewrite E. ring.
Qed.

Lemma ravel_pair_component (b s h f i j k p c : nat) :
  c < 2 ->
  ravel [b; s; h; f; 2] [i; j; k; p; c] =
  ravel [b; s; h; f * 2] [i; j; k; 2 * p + c].
Proof. intros Hc. cbn [ravel numel fold_right]. ring. Qed.

Lemma infer_dim_ok (known d : nat) :
  known <> 0 -> infer_dim (known * d) known = Ok d.
Proof.
  intros Hk. unfold infer_dim.
  destruct (Nat.eqb_spec known 0); [contradiction|].
  rewrite Nat.mul_comm, Nat.Div0.mod_mul, Nat.div_mul by assumption.
  reflexivity.
Qed.

Section RotaryFacts.
  Context {T : Type} `{Arith T}.

(** The steps of [apply_rotary_emb] on one operand. *)
Lemma view_pairs_ok (x : tensor T) (b s h f : nat) :
    shape x = [b; s; h; f * 2] ->
    0 < b -> 0 < s -> 0 < h ->
    view_z (tmap float_ x) (pair_sizes x) =
      Ok {| shape := [b; s; h; f; 2]; data := map float_ (data x) |}.
  Proof.
    intros Hs Hb Hs' Hh. unfold pair_sizes, view_z. rewrite Hs.
    cbn [removelast map app existsb].
    rewrite !of_nat_not_refused. cbn [Z.ltb Z.compare orb].
    unfold count_inferred. cbn [filter]. rewrite !of_nat_not_inferred.
    cbn [Z.eqb Pos.eqb length].
    unfold known_product. cbn [filter]. rewrite !of_nat_not_inferred.
    cbn [Z.eqb Pos.eqb negb map]. rewrite !Nat2Z.id.
    cbn [shape tmap]. rewrite Hs.
    change (Z.to_nat 2) with 2. change (-1 <? -1)%Z with false. cbn [orb].
    replace (numel [b; s; h; f * 2]) with (numel [b; s; h; 2] * f)
      by (cbn [numel fold_right]; ring).
    rewrite infer_dim_ok by (cbn [numel fold_right]; nia).
    cbn [bind].
    rewrite view_ok; [reflexivity|].
    cbn [shape tmap]. rewrite Hs. cbn [numel fold_right]. ring.
  Qed.

Lemma view_as_complex_ok (t : tensor T) (b s h f : nat) :
    shape t = [b; s; h; f; 2] ->
    view_as_complex t =
      Ok (tabulate [b; s; h; f]
            (fun idx => (get t (idx ++ [0]), get t (idx ++ [1])))).
  Proof. intros Hs. unfold view_as_complex. now rewrite Hs. Qed.

Lemma broadcast_shapes_table (b s h f : nat) :
    broadcast_shapes [b; s; h; f] [1; s; 1; f] = Ok [b; s; h; f].
  Proof.
    unfold broadcast_shapes. cbn [rev app broadcast_rev bind].
    rewrite !broadcast_dim_same, !broadcast_dim_one_r. reflexivity.
  Qed.

Lemma get_pair_component (x : tensor T) (b s h f i j k p c : nat) :
    wf x -> shape x = [b; s; h; f * 2] ->
    i < b -> j < s -> k < h -> p < f -> c < 2 ->
    get {| shape := [b; s; h; f; 2]; data := map float_ (data x) |}
        [i; j; k; p; c] =
    float_ (get x [i; j; k; 2 * p + c]).
  Proof.
    intros Hwf Hs Hi Hj Hk Hp Hc.
    rewrite <- (get_tmap float_ x) by (assumption || (rewrite Hs; simpl; lia)).
    apply get_same_data; [reflexivity|].
    cbn [shape tmap]. rewrite Hs. now apply ravel_pair_component.
  Qed.

(** One operand, once its pairs are complex numbers and the table has
      the axes of the operand: the product, seen as reals again and cast
      back, is the rotation of every entry. *)
Lemma rotated_operand (x : tensor T) (freqs : tensor (complex T))
      (b s h f : nat) :
    wf x -> shape x = [b; s; h; f * 2] ->
    wf freqs -> shape freqs = [s; f] ->
    let xc := tabulate [b; s; h; f]
                (fun idx =>
                   (get {| shape := [b; s; h; f; 2];
                           data := map float_ (data x) |} (idx ++ [0]),
                    get {| shape := [b; s; h; f; 2];
                           data := map float_ (data x) |} (idx ++ [1]))) in
    let fr := {| shape := [1; s; 1; f]; data := data freqs |} in
    let pq := tabulate [b; s; h; f]
                (fun idx => cmul (get xc (bidx [b; s; h; f] idx))
                                 (get fr (bidx [1; s; 1; f] idx))) in
    tmap type_as {| shape := [b; s; h; f * 2];
                    data := data (view_as_real pq) |} =
    tabulate [b; s; h; f * 2] (rotary_entry x freqs).
  Proof.
    intros Hwf Hs Hwfr Hsfr xc fr pq.
    apply tensor_ext.
    - apply wf_tmap. unfold wf, view_as_real. cbn [shape data tabulate].
      rewrite length_map, length_seq.
      change (shape pq) with [b; s; h; f]. cbn [app numel fold_right]. ring.
    - apply wf_tabulate.
    - reflexivity.
    - cbn [shape tmap]. intros idx Hr.
      destruct idx as [|i [|j [|k [|d [|? ?]]]]]; simpl in Hr; try tauto.
      destruct Hr as (Hi & Hj & Hk & Hd & _).
      rewrite get_tabulate by (simpl; lia).
      assert (Hp : d / 2 < f) by (apply Nat.Div0.div_lt_upper_bound; lia).
      assert (Hc : d mod 2 < 2) by (apply Nat.mod_upper_bound; lia).
      assert (Hr5 : in_range [i; j; k; d / 2; d mod 2] [b; s; h; f; 2])
        by (cbn [in_range]; repeat split; assumption).
      assert (Hr4 : in_range [i; j; k; d / 2] [b; s; h; f])
        by (cbn [in_range]; repeat split; assumption).
      transitivity
        (type_as (get (view_as_real pq) [i; j; k; d / 2; d mod 2])).
      { rewrite <- (get_tmap type_as (view_as_real pq))
          by (apply wf_tabulate || exact Hr5).
        apply get_same_data; [reflexivity|]. apply ravel_pairs. }
      unfold rotary_entry. f_equal.
      unfold view_as_real. change (shape pq) with [b; s; h; f]. cbn [app].
      rewrite get_tabulate by exact Hr5.
      cbn [removelast last].
      unfold pq. rewrite get_tabulate by exact Hr4.
      rewrite bidx_in_range by exact Hr4.
      unfold bidx. cbn [length Nat.sub skipn combine map fst snd].
      rewrite !bsel_one, !bsel_lt by assumption.
      unfold xc. rewrite get_tabulate by exact Hr4. cbn [app].
      rewrite !(get_pair_component x b s h f) by (assumption || lia).
      rewrite Nat.add_0_r.
      replace (get fr [0; j; 0; d / 2]) with (get freqs [j; d / 2]).
      + reflexivity.
      + apply get_same_data; [reflexivity|].
        rewrite Hsfr. cbn [shape fr ravel numel fold_right]. ring.
  Qed.

Lemma apply_rotary_emb_ok (xq xk : tensor T) (freqs : tensor (complex T))
      (b s h kv f : nat) :
    wf xq -> shape xq = [b; s; h; f * 2] ->
    wf xk -> shape xk = [b; s; kv; f * 2] ->
    wf freqs -> shape freqs = [s; f] ->
    0 < b -> 0 < s -> 0 < h -> 0 < kv ->
    apply_rotary_emb xq xk freqs =
      Ok (tabulate [b; s; h; f * 2] (rotary_entry xq freqs),
          tabulate [b; s; kv; f * 2] (rotary_entry xk freqs)).
  Proof.
    intros Hwq Hsq Hwk Hsk Hwf Hsf Hb Hs Hh Hkv.
    unfold apply_rotary_emb.
    rewrite (view_pairs_ok xq b s h f), (view_pairs_ok xk b s kv f)
      by assumption.
    cbn [bind].
    rewrite (view_as_complex_ok _ b s h f), (view_as_complex_ok _ b s kv f)
      by reflexivity.
    cbn [bind]. rewrite Hsf.
    rewrite view_ok by (rewrite Hsf; cbn [numel fold_right]; ring).
    cbn [bind].
    rewrite (broadcast_op_ok cmul _ _ [b; s; h; f])
      by apply broadcast_shapes_table.
    cbn [bind shape tabulate].
    rewrite (broadcast_op_ok cmul _ _ [b; s; kv; f])
      by apply broadcast_shapes_table.
    cbn [bind shape tabulate view_as_real flatten_3 app].
    do 2 f_equal.
    - apply (rotated_operand xq freqs b s h f); assumption.
    - apply (rotated_operand xk freqs b s kv f); assumption.
  Qed.

End RotaryFacts.

Lemma slice0_in_range {A : Type} `{Default A} (t : tensor A) (n : nat)
    (rest : list nat) (sp s : nat) :
  wf t -> shape t = n :: rest -> sp + s <= n ->
  exists fr : tensor A,
    slice0 t (Z.of_nat sp) (Z.of_nat sp + Z.of_nat s) = Ok fr /\
    shape fr = s :: rest /\
    wf fr /\
    forall p idx,
      p < s -> in_range idx rest ->
      get fr (p :: idx) = get t ((sp + p) :: idx).
Proof.
  intros Hwf Hs Hle.
  destruct (slice0_ok t n rest (Z.of_nat sp) (Z.of_nat sp + Z.of_nat s) Hwf Hs)
    as (fr & Hfr & Hsh & Hwfr & Hg).
  rewrite !slice_bound_nonneg in Hsh, Hg by lia.
  replace (Nat.min (Z.to_nat (Z.of_nat sp + Z.of_nat s)) n) with (sp + s)
    in Hsh, Hg by lia.
  replace (Nat.min (Z.to_nat (Z.of_nat sp)) n) with sp in Hsh, Hg by lia.
  replace (sp + s - sp) with s in Hsh, Hg by lia.
  exists fr. repeat split; assumption.
Qed.

Lemma precompute_freqs_cis_ok {T : Type} `{Arith T} (dim_ end_ : Z) (theta : T) :
  (0 <= dim_)%Z -> (0 <= end_)%Z ->
  precompute_freqs_cis dim_ end_ theta =
    Ok (tabulate [Z.to_nat end_; Z.to_nat ((dim_ + 1) / 2)]
          (fun idx =>
             match idx with
             | [p; i] =>
                 polar one
                   (float_ (mul (of_int (Z.of_nat p))
                      (div one
                         (pow theta
                            (div (float_ (of_int (2 * Z.of_nat i)))
                                 (of_int dim_))))))
             | _ => (zero, zero)
             end)).
Proof.
  intros Hd He. unfold precompute_freqs_cis.
  destruct (Z.leb_spec 0 dim_); [|lia].
  destruct (Z.leb_spec 0 end_); [|lia].
  reflexivity.
Qed.

(** The table in exact arithmetic: unit complex numbers of the phase the
    specification names. *)
Lemma freqs_table_entry (f end_ : nat) (theta : R) :
  exists table : tensor (complex R),
    precompute_freqs_cis (Z.of_nat (f * 2)) (Z.of_nat end_) theta = Ok table /\
    shape table = [end_; f] /\ wf table /\
    forall p i, p < end_ -> i < f ->
      get table [p; i] =
        (Rtrigo_def.cos (rotary_phase theta (f * 2) p i),
         Rtrigo_def.sin (rotary_phase theta (f * 2) p i)) /\
      norm2 (get table [p; i]) = 1%R.
Proof.
  rewrite precompute_freqs_cis_ok by lia.
  rewrite Nat2Z.id.
  replace (Z.to_nat ((Z.of_nat (f * 2) + 1) / 2)) with f.
  2:{ rewrite Nat2Z.inj_mul. change (Z.of_nat 2) with 2%Z.
      rewrite Z.div_add_l by lia. change (1 / 2)%Z with 0%Z. lia. }
  eexists. split; [reflexivity|]. split; [reflexivity|].
  split; [apply wf_tabulate|].
  intros p i Hp Hi.
  rewrite get_tabulate by (simpl; lia).
  unfold polar.
  cbn [mul cos sin one float_ of_int div pow real_arith].
  assert (E : (IZR (Z.of_nat p) *
               (1 / Rpower theta (IZR (2 * Z.of_nat i) / IZR (Z.of_nat (f * 2)))))%R
              = rotary_phase theta (f * 2) p i).
  { unfold rotary_phase. rewrite Rpower_Ropp, !INR_IZR_INZ, mult_IZR.
    unfold Rdiv. ring. }
  rewrite E, !Rmult_1_l. split; [reflexivity|].
  unfold norm2. cbn [fst snd].
  pose proof (sin2_cos2 (rotary_phase theta (f * 2) p i)) as Hsc.
  unfold Rsqr in Hsc. lra.
Qed.

Lemma norm2_cmul (z w : complex R) :
  norm2 (cmul z w) = (norm2 z * norm2 w)%R.
Proof.
  unfold norm2, cmul. cbn [fst snd mul add sub real_arith]. ring.
Qed.

Lemma rotary_entry_pair (x : tensor R) (freqs : tensor (complex R))
    (i j k p : nat) :
  (rotary_entry x freqs [i; j; k; 2 * p],
   rotary_entry x freqs [i; j; k; 2 * p + 1]) =
  cmul (get x [i; j; k; 2 * p], get x [i; j; k; 2 * p + 1])
       (get freqs [j; p]).
Proof.
  unfold rotary_entry.
  replace ((2 * p) / 2) with p by (rewrite Nat.mul_comm, Nat.div_mul; lia).
  replace ((2 * p + 1) / 2) with p
    by (rewrite Nat.mul_comm, Nat.add_comm, Nat.div_add; simpl; lia).
  replace ((2 * p) mod 2) with 0
    by (rewrite Nat.mul_comm, Nat.Div0.mod_mul; reflexivity).
  replace ((2 * p + 1) mod 2) with 1
    by (rewrite Nat.mul_comm, Nat.add_comm, Nat.Div0.mod_add; reflexivity).
  cbn [Nat.eqb type_as float_ real_arith].
  now destruct (cmul _ _).
Qed.

(** C8.  In exact arithmetic, for an even [head_dim = 2 f], every entry
    of the precomputed table is the complex number of magnitude 1 and
    phase [p * theta^(-2i/head_dim)], and applying a slice of the table
    to queries and keys leaves the magnitude of every (real, imaginary)
    pair as it was. *)
Theorem rotary_preserves_pair_magnitude
    (xq xk : tensor R) (b s h kv f end_ start_pos : nat) (theta : R) :
  wf xq -> shape xq = [b; s; h; f * 2] ->
  wf xk -> shape xk = [b; s; kv; f * 2] ->
  0 < b -> 0 < s -> 0 < h -> 0 < kv ->
  start_pos + s <= end_ ->
  exists (table freqs : tensor (complex R)) (oq ok : tensor R),
    precompute_freqs_cis (Z.of_nat (f * 2)) (Z.of_nat end_) theta = Ok table /\
    (forall p i, p < end_ -> i < f ->
        get table [p; i] =
          (Rtrigo_def.cos (rotary_phase theta (f * 2) p i),
           Rtrigo_def.sin (rotary_phase theta (f * 2) p i)) /\
        norm2 (get table [p; i]) = 1%R) /\
    slice0 table (Z.of_nat start_pos) (Z.of_nat start_pos + Z.of_nat s)
      = Ok freqs /\
    apply_rotary_emb xq xk freqs = Ok (oq, ok) /\
    shape oq = shape xq /\ shape ok = shape xk /\
    (forall i j k p, i < b -> j < s -> k < h -> p < f ->
        pair_norm2 oq i j k p = pair_norm2 xq i j k p) /\
    (forall i j k p, i < b -> j < s -> k < kv -> p < f ->
        pair_norm2 ok i j k p = pair_norm2 xk i j k p).
Proof.
  intros Hwq Hsq Hwk Hsk Hb Hs Hh Hkv Hle.
  destruct (freqs_table_entry f end_ theta) as (table & Ht & Hst & Hwt & Hte).
  destruct (slice0_in_range table end_ [f] start_pos s Hwt Hst Hle)
    as (freqs & Hfr & Hsf & Hwf & Hgf).
  exists table, freqs.
  rewrite (apply_rotary_emb_ok xq xk freqs b s h kv f) by assumption.
  eexists. eexists.
  split; [exact Ht|]. split; [exact Hte|]. split; [exact Hfr|].
  split; [reflexivity|].
  split; [now rewrite Hsq|]. split; [now rewrite Hsk|].
  assert (Hunit : forall j p, j < s -> p < f -> norm2 (get freqs [j; p]) = 1%R).
  { intros j p Hj Hp. rewrite Hgf by (simpl; lia).
    apply Hte; lia. }
  split; intros i j k p Hi Hj Hk Hp; unfold pair_norm2.
  - rewrite !get_tabulate by (simpl; lia).
    rewrite rotary_entry_pair, norm2_cmul, Hunit by assumption. ring.
  - rewrite !get_tabulate by (simpl; lia).
    rewrite rotary_entry_pair, norm2_cmul, Hunit by assumption. ring.
Qed.

Lemma rotary_preserves_pair_magnitude_witness :
  let xq : tensor R := {| shape := [1; 1; 1; 2]; data := [3; 4]%R |} in
  let xk : tensor R := {| shape := [1; 1; 1; 2]; data := [1; 0]%R |} in
  exists (freqs : tensor (complex R)) (oq ok : tensor R),
    apply_rotary_emb xq xk freqs = Ok (oq, ok) /\
    pair_norm2 oq 0 0 0 0 = pair_norm2 xq 0 0 0 0.
Proof.
  intros xq xk.
  destruct (rotary_preserves_pair_magnitude xq xk 1 1 1 1 1 2 1 10000%R
              eq_refl eq_refl eq_refl eq_refl
              ltac:(lia) ltac:(lia) ltac:(lia) ltac:(lia) ltac:(lia))
    as (table & freqs & oq & ok & _ & _ & _ & Hr & _ & _ & Hq & _).
  exists freqs, oq, ok. split; [assumption|].
  apply Hq; lia.
Defined.

(** ** The slice of the rotary table in [Transformer.forward] *)

Lemma Transformer_forward_result {T : Type} `{Engine T}
    (self : Transformer T) (tokens : tensor Z) (start_pos : Z)
    (bsz seqlen : nat) :
  shape tokens = [bsz; seqlen] ->
  snd (Transformer_forward self tokens start_pos) =
    (h <- embedding (tok_embeddings self) tokens ;;
     freqs <- slice0 (freqs_cis self) start_pos (start_pos + Z.of_nat seqlen) ;;
     h <- run_layers (layers self) h freqs (causal_mask seqlen) ;;
     h <- RMSNorm_forward (norm self) h ;;
     linear (output self) h)%py.
Proof.
  intros Hs. unfold Transformer_forward. rewrite Hs.
  destruct (embedding (tok_embeddings self) tokens); reflexivity.
Qed.

Lemma precompute_freqs_cis_inv {T : Type} `{Arith T} (dim_ end_ : Z) (theta : T)
    (table : tensor (complex T)) :
  precompute_freqs_cis dim_ end_ theta = Ok table ->
  (0 <= dim_)%Z /\ (0 <= end_)%Z /\
  shape table = [Z.to_nat end_; Z.to_nat ((dim_ + 1) / 2)] /\ wf table.
Proof.
  intros Ht.
  assert (Hd : (0 <= dim_)%Z).
  { unfold precompute_freqs_cis in Ht.
    destruct (Z.leb_spec 0 dim_); [assumption | discriminate]. }
  assert (He : (0 <= end_)%Z).
  { unfold precompute_freqs_cis in Ht.
    destruct (Z.leb_spec 0 dim_); [|discriminate].
    destruct (Z.leb_spec 0 end_); [assumption | discriminate]. }
  rewrite precompute_freqs_cis_ok in Ht by assumption.
  injection Ht as <-. repeat split; try assumption. apply wf_tabulate.
Qed.

Lemma Transformer_new_table {T : Type} `{Engine T} (rand : list nat -> T)
    (args : ModelArgs) (self : Transformer T) :
  Transformer_new rand args = Ok self ->
  exists f : nat,
    shape (freqs_cis self) = [Z.to_nat (max_seq_len args * 2); f] /\
    wf (freqs_cis self).
Proof.
  unfold Transformer_new. intros Hn.
  inv_bind Hn. rename x into emb, E into Eemb.
  inv_bind Hn. rename x into ls, E into Els.
  inv_bind Hn. rename x into nrm, E into Enrm.
  inv_bind Hn. rename x into out, E into Eout.
  inv_bind Hn. rename x into hd, E into Ehd.
  inv_bind Hn. rename x into table, E into Etab.
  injection Hn as <-. cbn [freqs_cis].
  apply precompute_freqs_cis_inv in Etab as (_ & _ & Hs & Hw).
  eexists. split; [exact Hs | exact Hw].
Qed.

(** C2, as amended.  [Transformer.forward] does not compare
    [start_pos + seq_len] with the rotary table.  For [start_pos >= 0] it
    takes the Python slice [freqs_cis[start_pos : start_pos + seq_len]] of
    the table of [2 * max_seq_len] positions, which never fails: the
    slice has [min(seq_len, 2 * max_seq_len - start_pos)] rows (none when
    [start_pos] is beyond the table), namely the rows of the table from
    [start_pos] on; it has [seq_len] rows when
    [start_pos + seq_len <= 2 * max_seq_len]; and that slice is what the
    layers receive. *)
Theorem forward_slices_without_range_check
    {T : Type} `{Engine T} (rand : list nat -> T) (args : ModelArgs)
    (self : Transformer T) (tokens : tensor Z) (bsz seqlen : nat)
    (start_pos : Z) :
  Transformer_new rand args = Ok self ->
  shape tokens = [bsz; seqlen] ->
  (0 <= start_pos)%Z ->
  let n := Z.to_nat (max_seq_len args * 2) in
  let rows := Nat.min seqlen (n - Z.to_nat start_pos) in
  exists (fr : tensor (complex T)) (f : nat),
    shape (freqs_cis self) = [n; f] /\
    slice0 (freqs_cis self) start_pos (start_pos + Z.of_nat seqlen) = Ok fr /\
    shape fr = [rows; f] /\
    (forall p i, p < rows -> i < f ->
        get fr [p; i] = get (freqs_cis self) [Z.to_nat start_pos + p; i]) /\
    ((start_pos + Z.of_nat seqlen <= Z.of_nat n)%Z -> rows = seqlen) /\
    snd (Transformer_forward self tokens start_pos) =
      (h <- embedding (tok_embeddings self) tokens ;;
       h <- run_layers (layers self) h fr (causal_mask seqlen) ;;
       h <- RMSNorm_forward (norm self) h ;;
       linear (output self) h)%py.
Proof.
  intros Hnew Hs Hsp n rows.
  destruct (Transformer_new_table rand args self Hnew) as (f & Hst & Hwt).
  fold n in Hst.
  destruct (slice0_ok (freqs_cis self) n [f] start_pos
              (start_pos + Z.of_nat seqlen) Hwt Hst)
    as (fr & Hfr & Hsh & Hwfr & Hg).
  rewrite !slice_bound_nonneg in Hsh, Hg by lia.
  assert (Hrows : Nat.min (Z.to_nat (start_pos + Z.of_nat seqlen)) n
                  - Nat.min (Z.to_nat start_pos) n = rows)
    by (unfold rows; lia).
  rewrite Hrows in Hsh, Hg.
  exists fr, f. split; [exact Hst|]. split; [exact Hfr|]. split; [exact Hsh|].
  split; [|split].
  - intros p i Hp Hi. rewrite Hg by (simpl; lia).
    replace (Nat.min (Z.to_nat start_pos) n + p) with (Z.to_nat start_pos + p)
      by (unfold rows in Hp; lia).
    reflexivity.
  - intros Hle. unfold rows. lia.
  - rewrite (Transformer_forward_result self tokens start_pos bsz seqlen Hs).
    destruct (embedding (tok_embeddings self) tokens); cbn [bind]; [|reflexivity].
    rewrite Hfr. reflexivity.
Qed.

Lemma forward_slices_without_range_check_witness :
  exists (self : Transformer unit) (fr : tensor (complex unit)),
    Transformer_new (fun _ => tt) small_args = Ok self /\
    slice0 (freqs_cis self) 3 (3 + Z.of_nat 2) = Ok fr /\
    shape fr = [1; 1].
Proof.
  destruct (Transformer_new (fun _ : list nat => tt) small_args)
    as [self|e] eqn:En; [|vm_compute in En; discriminate].
  destruct (forward_slices_without_range_check (fun _ : list nat => tt)
              small_args self (token_row [1; 2]%Z) 1 2 3
              En eq_refl ltac:(lia))
    as (fr & f & Hst & Hfr & Hsh & _).
  exists self, fr. split; [reflexivity|]. split; [exact Hfr|].
  rewrite Hsh.
  assert (Hf : shape (freqs_cis self) = [4; 1]).
  { vm_compute in En. injection En as <-. reflexivity. }
  rewrite Hf in Hst. injection Hst as <-. reflexivity.
Defined.

(** With a table of 4 positions, a call at [start_pos = 3] on 2 tokens
    asks for positions 3 and 4: the slice has the one row 3, the
    broadcast spreads it over both tokens, and logits come back. *)
Lemma out_of_range_call_returns_logits :
  (3 + 2 > 2 * f_max_seq_len small_fields)%Z /\
  (exists (m : Transformer unit) (fr : tensor (complex unit)),
      shape_model small_fields = Ok m /\
      shape (freqs_cis m) = [4; 1] /\
      slice0 (freqs_cis m) 3 (3 + 2) = Ok fr /\
      shape fr = [1; 1]) /\
  shape_run small_fields [1; 2]%Z 3 = Ok [1; 2; 5].
Proof.
  split; [vm_compute; reflexivity|]. split.
  - destruct (shape_model small_fields) as [m|e] eqn:Em;
      [|vm_compute in Em; discriminate].
    vm_compute in Em. injection Em as <-.
    eexists. eexists. split; [reflexivity|].
    split; [reflexivity|]. split; vm_compute; reflexivity.
  - vm_compute. reflexivity.
Qed.

(** ** Attention *)

Lemma no_refused_size (sh : list nat) :
  existsb (fun z => (z <? -1)%Z) (map Z.of_nat sh) = false.
Proof.
  induction sh as [|n sh IH]; cbn [map existsb]; [reflexivity|].
  rewrite of_nat_not_refused. exact IH.
Qed.

Lemma no_inferred_size (sh : list nat) :
  count_inferred (map Z.of_nat sh) = 0.
Proof.
  unfold count_inferred.
  induction sh as [|n sh IH]; cbn [map filter]; [reflexivity|].
  rewrite of_nat_not_inferred. exact IH.
Qed.

Lemma view_z_nat {A : Type} (t : tensor A) (sh : list nat) :
  view_z t (map Z.of_nat sh) = view t sh.
Proof.
  unfold view_z.
  rewrite no_refused_size, no_inferred_size, map_map. f_equal.
  rewrite <- (map_id sh) at 2. apply map_ext. intros n. apply Nat2Z.id.
Qed.

Lemma view_z_infer_last {A : Type} (t : tensor A) (b s d : nat) :
  numel (shape t) = b * s * d -> 0 < b -> 0 < s ->
  view_z t [Z.of_nat b; Z.of_nat s; (-1)%Z] =
    Ok {| shape := [b; s; d]; data := data t |}.
Proof.
  intros Hn Hb Hs. unfold view_z.
  cbn [existsb]. rewrite !of_nat_not_refused.
  change (-1 <? -1)%Z with false. cbn [orb].
  unfold count_inferred. cbn [filter]. rewrite !of_nat_not_inferred.
  change (-1 =? -1)%Z with true. cbn [length].
  unfold known_product. cbn [filter]. rewrite !of_nat_not_inferred.
  change (-1 =? -1)%Z with true. cbn [negb map]. rewrite !Nat2Z.id.
  replace (numel (shape t)) with (numel [b; s] * d)
    by (rewrite Hn; cbn [numel fold_right]; ring).
  rewrite infer_dim_ok by (cbn [numel fold_right]; nia).
  cbn [bind]. rewrite !of_nat_not_inferred.
  change (-1 =? -1)%Z with true. cbv iota. rewrite ?Nat2Z.id.
  apply view_ok. cbn [numel fold_right]. rewrite Hn. ring.
Qed.

Section KernelFacts.
  Context {T : Type} `{Engine T}.

Lemma linear_ok (w x : tensor T) (n_out n_in : nat) (lead : list nat) :
    shape w = [n_out; n_in] -> shape x = lead ++ [n_in] ->
    linear w x =
      Ok (tabulate (lead ++ [n_out])
            (fun idx => dot (row x (removelast idx)) (row w [last idx 0]))).
  Proof.
    intros Hw Hx. unfold linear. rewrite Hw, Hx, rev_unit, Nat.eqb_refl.
    now rewrite rev_involutive.
  Qed.

Lemma linear_shape (w x y : tensor T) :
    linear w x = Ok y ->
    exists n_out n_in lead,
      shape w = [n_out; n_in] /\ shape x = lead ++ [n_in] /\
      shape y = lead ++ [n_out] /\ wf y.
  Proof.
    unfold linear.
    destruct (shape w) as [|n_out [|n_in [|? ?]]]; try discriminate.
    destruct (rev (shape x)) as [|k lead] eqn:Er; try discriminate.
    destruct (Nat.eqb_spec k n_in) as [->|]; [|discriminate].
    intros [= <-]. exists n_out, n_in, (rev lead).
    repeat split; try apply wf_tabulate.
    rewrite <- (rev_involutive (shape x)), Er. reflexivity.
  Qed.

Lemma view_heads (w x : tensor T) (B S n D : nat) :
    view_z (tabulate [B; S; n * D]
              (fun idx => dot (row x (removelast idx)) (row w [last idx 0])))
           [Z.of_nat B; Z.of_nat S; Z.of_nat n; Z.of_nat D] =
    Ok (head_projection x B S D w n).
  Proof.
    change [Z.of_nat B; Z.of_nat S; Z.of_nat n; Z.of_nat D]
      with (map Z.of_nat [B; S; n; D]).
    rewrite view_z_nat, view_ok
      by (cbn [shape tabulate numel fold_right]; ring).
    f_equal. unfold head_projection.
    apply tensor_ext.
    - unfold wf. cbn [shape data tabulate].
      rewrite length_map, length_seq. cbn [numel fold_right]. ring.
    - apply wf_tabulate.
    - reflexivity.
    - cbn [shape]. intros idx Hr.
      destruct idx as [|i [|j [|h [|d [|? ?]]]]]; simpl in Hr; try tauto.
      destruct Hr as (Hi & Hj & Hh & Hd & _).
      rewrite get_tabulate by (simpl; lia).
      transitivity
        (get (tabulate [B; S; n * D]
                (fun idx => dot (row x (removelast idx)) (row w [last idx 0])))
             [i; j; h * D + d]).
      + apply get_same_data; [reflexivity|].
        cbn [shape tabulate ravel numel fold_right]. ring.
      + rewrite get_tabulate by (simpl; repeat split; nia || lia).
        reflexivity.
  Qed.

Lemma transpose_1_2_ok (t : tensor T) (b s h d : nat) :
    shape t = [b; s; h; d] ->
    transpose_1_2 t =
      Ok (tabulate [b; h; s; d]
            (fun idx => match idx with
                        | [i; k; j; l] => get t [i; j; k; l]
                        | _ => dflt
                        end)).
  Proof. intros Hs. unfold transpose_1_2. now rewrite Hs. Qed.

Lemma transpose_last_ok (t : tensor T) (b h s d : nat) :
    shape t = [b; h; s; d] ->
    transpose_last t =
      Ok (tabulate [b; h; d; s]
            (fun idx => match idx with
                        | [i; k; l; j] => get t [i; k; j; l]
                        | _ => dflt
                        end)).
  Proof. intros Hs. unfold transpose_last. now rewrite Hs. Qed.

Lemma matmul_ok (a b : tensor T) (b1 h1 n m p : nat) :
    shape a = [b1; h1; n; m] -> shape b = [b1; h1; m; p] ->
    matmul a b =
      Ok (tabulate [b1; h1; n; p]
            (fun idx =>
               match idx with
               | [i; k; r; c] =>
                   dot (map (fun x => get a (bidx [b1; h1] [i; k] ++ [r; x]))
                            (seq 0 m))
                       (map (fun x => get b (bidx [b1; h1] [i; k] ++ [x; c]))
                            (seq 0 m))
               | _ => zero
               end)).
  Proof.
    intros Ha Hb. unfold matmul.
    rewrite Ha, Hb, Nat.eqb_refl, broadcast_shapes_same. reflexivity.
  Qed.

Lemma broadcast_shapes_mask (b h s : nat) :
    broadcast_shapes [b; h; s; s] [1; 1; s; s] = Ok [b; h; s; s].
  Proof.
    unfold broadcast_shapes. cbn [rev app broadcast_rev bind].
    rewrite !broadcast_dim_same, !broadcast_dim_one_r. reflexivity.
  Qed.

End KernelFacts.

Lemma tmap_tabulate {A B : Type} (g : A -> B) (sh : list nat)
    (f : list nat -> A) :
  tmap g (tabulate sh f) = tabulate sh (fun idx => g (f idx)).
Proof. unfold tmap, tabulate. cbn [shape data]. now rewrite map_map. Qed.

Lemma div_lt_groups (h kv r : nat) : h < kv * r -> h / r < kv.
Proof. intros Hh. apply Nat.Div0.div_lt_upper_bound. lia. Qed.

Ltac index4 idx Hr :=
  destruct idx as [|?i [|?j [|?k [|?l [|? ?]]]]];
  cbn [in_range] in Hr; try tauto;
  destruct Hr as (? & ? & ? & ? & _).

(** The steps of [Attention.forward], each on the tensors of the
    specification. *)
Section AttentionSteps.
  Context {T : Type} `{Engine T}.
  Variable self : Attention T.
  Variable x : tensor T.
  Variable freqs : tensor (complex T).
  Variable mask : option (tensor T).
  Variable root : T.
  Variables B S KV R D : nat.

  Hypothesis Hmask : match mask with
                     | Some m => wf m /\ shape m = [1; 1; S; S]
                     | None => True
                     end.

Lemma queries_transposed :
  transpose_1_2 (tabulate [B; S; (KV * R); D] (rotary_entry (head_projection x B S D (wq self) (KV * R)) freqs)) =
  Ok (sp_Q self x freqs B S (KV * R) D).
Proof.
  rewrite (transpose_1_2_ok _ B S (KV * R) D) by reflexivity.
  f_equal. unfold sp_Q. apply tabulate_ext. intros idx Hr. index4 idx Hr.
  rewrite get_tabulate by (cbn [in_range]; auto). reflexivity.
Qed.

Lemma keys_transposed :
  transpose_1_2
    (tabulate [B; S; (KV * R); D]
       (fun idx => match idx with
                   | [i; j; h; d] =>
                       get (tabulate [B; S; KV; D] (rotary_entry (head_projection x B S D (wk self) KV) freqs))
                           [i; j; h / R; d]
                   | _ => dflt
                   end)) =
  Ok (sp_K self x freqs B S (KV * R) KV R D).
Proof.
  rewrite (transpose_1_2_ok _ B S (KV * R) D) by reflexivity.
  f_equal. unfold sp_K. apply tabulate_ext. intros idx Hr. index4 idx Hr.
  rewrite get_tabulate by (cbn [in_range]; auto).
  rewrite get_tabulate
    by (cbn [in_range]; auto using div_lt_groups).
  reflexivity.
Qed.

Lemma values_transposed :
  transpose_1_2
    (tabulate [B; S; (KV * R); D]
       (fun idx => match idx with
                   | [i; j; h; d] => get (head_projection x B S D (wv self) KV) [i; j; h / R; d]
                   | _ => dflt
                   end)) =
  Ok (sp_V self x B S (KV * R) KV R D).
Proof.
  rewrite (transpose_1_2_ok _ B S (KV * R) D) by reflexivity.
  f_equal. unfold sp_V. apply tabulate_ext. intros idx Hr. index4 idx Hr.
  rewrite get_tabulate by (cbn [in_range]; auto). reflexivity.
Qed.

Lemma keys_transposed_last :
  transpose_last (sp_K self x freqs B S (KV * R) KV R D) =
  Ok (sp_Kt self x freqs B S (KV * R) KV R D).
Proof.
  rewrite (transpose_last_ok _ B (KV * R) S D) by reflexivity.
  f_equal. unfold sp_Kt. apply tabulate_ext. intros idx Hr. index4 idx Hr.
  unfold sp_K. rewrite get_tabulate by (cbn [in_range]; auto). reflexivity.
Qed.

Lemma scores_scaled :
  (prod <- matmul (sp_Q self x freqs B S (KV * R) D)
                  (sp_Kt self x freqs B S (KV * R) KV R D) ;;
   Ok (tmap (fun v => div v root) prod))%py =
  Ok (sp_scaled self x freqs root B S (KV * R) KV R D).
Proof.
  rewrite (matmul_ok _ _ B (KV * R) S D S) by reflexivity.
  cbn [bind]. f_equal. rewrite tmap_tabulate.
  unfold sp_scaled. apply tabulate_ext. intros idx Hr. index4 idx Hr.
  unfold sp_score. f_equal.
  rewrite bidx_in_range by (cbn [in_range]; auto). cbn [app].
  f_equal; apply map_ext_in; intros d Hd; apply in_seq in Hd.
  - unfold sp_Q. rewrite get_tabulate by (cbn [in_range]; repeat split; lia).
    reflexivity.
  - unfold sp_Kt. rewrite get_tabulate by (cbn [in_range]; repeat split; lia).
    reflexivity.
Qed.

Lemma scores_masked :
  match mask with
  | Some m => broadcast_op add (sp_scaled self x freqs root B S (KV * R) KV R D) m
  | None => Ok (sp_scaled self x freqs root B S (KV * R) KV R D)
  end =
  Ok (sp_scores self x freqs mask root B S (KV * R) KV R D).
Proof.
  unfold sp_scores, sp_masked. destruct mask as [m|].
  - destruct Hmask as [Hwm Hsm].
    rewrite (broadcast_op_ok add _ m [B; (KV * R); S; S])
      by (rewrite Hsm; apply broadcast_shapes_mask).
    f_equal. apply tabulate_ext. intros idx Hr. index4 idx Hr.
    rewrite bidx_in_range by (cbn [shape sp_scaled tabulate in_range]; auto).
    rewrite Hsm. unfold bidx.
    cbn [length Nat.sub skipn combine map fst snd].
    rewrite !bsel_one, !bsel_lt by assumption.
    unfold sp_scaled. rewrite get_tabulate by (cbn [in_range]; auto).
    reflexivity.
  - reflexivity.
Qed.

Lemma scores_softmax :
  tmap type_as
    (softmax_last (tmap float_ (sp_scores self x freqs mask root B S (KV * R) KV R D))) =
  sp_probs self x freqs mask root B S (KV * R) KV R D.
Proof.
  unfold softmax_last. change (shape (tmap float_ (sp_scores _ _ _ _ _ _ _ _ _ _ _)))
    with [B; (KV * R); S; S].
  rewrite tmap_tabulate. unfold sp_probs.
  apply tabulate_ext. intros idx Hr. index4 idx Hr.
  cbn [last removelast]. unfold sp_prob. do 3 f_equal.
  unfold row. change (shape (tmap float_ (sp_scores _ _ _ _ _ _ _ _ _ _ _)))
    with [B; (KV * R); S; S].
  cbn [last app]. apply map_ext_in. intros t Ht. apply in_seq in Ht.
  rewrite get_tmap
    by (apply wf_tabulate || (cbn [shape sp_scores tabulate in_range];
                              repeat split; lia)).
  unfold sp_scores. rewrite get_tabulate by (cbn [in_range]; repeat split; lia).
  reflexivity.
Qed.

Lemma heads_weighted :
  matmul (sp_probs self x freqs mask root B S (KV * R) KV R D)
         (sp_V self x B S (KV * R) KV R D) =
  Ok (sp_heads self x freqs mask root B S (KV * R) KV R D).
Proof.
  rewrite (matmul_ok _ _ B (KV * R) S S D) by reflexivity.
  f_equal. unfold sp_heads. apply tabulate_ext. intros idx Hr. index4 idx Hr.
  unfold sp_head.
  rewrite bidx_in_range by (cbn [in_range]; auto). cbn [app].
  f_equal; apply map_ext_in; intros t Ht; apply in_seq in Ht.
  - unfold sp_probs. rewrite get_tabulate by (cbn [in_range]; repeat split; lia).
    reflexivity.
  - unfold sp_V. rewrite get_tabulate by (cbn [in_range]; repeat split; lia).
    reflexivity.
Qed.

Lemma ravel_merge_heads (b s h d i j c : nat) :
  ravel [b; s; h * d] [i; j; c] = ravel [b; s; h; d] [i; j; c / d; c mod d].
Proof.
  cbn [ravel numel fold_right].
  pose proof (Nat.div_mod_eq c d) as E.
  remember (c / d) as q. remember (c mod d) as m.
  rewrite E. ring.
Qed.

Lemma heads_projected (Dout : nat) :
  shape (wo self) = [Dout; (KV * R) * D] -> 0 < B -> 0 < S ->
  (o <- transpose_1_2 (sp_heads self x freqs mask root B S (KV * R) KV R D) ;;
   o <- view_z o [Z.of_nat B; Z.of_nat S; (-1)%Z] ;;
   linear (wo self) o)%py =
  Ok (attention_spec self x freqs mask root B S (KV * R) KV R D Dout).
Proof.
  intros Hwo HB HS.
  rewrite (transpose_1_2_ok _ B (KV * R) S D) by reflexivity. cbn [bind].
  rewrite (view_z_infer_last _ B S ((KV * R) * D))
    by (assumption || (cbn [shape tabulate numel fold_right]; ring)).
  cbn [bind].
  rewrite (linear_ok (wo self) _ Dout ((KV * R) * D) [B; S])
    by (assumption || reflexivity).
  f_equal. unfold attention_spec. cbn [app].
  apply tabulate_ext. intros idx Hr.
  destruct idx as [|i [|j [|o [|? ?]]]]; cbn [in_range] in Hr; try tauto.
  destruct Hr as (Hi & Hj & Ho & _).
  cbn [removelast last]. f_equal.
  unfold row. cbn [shape last app].
  apply map_ext_in. intros c Hc. apply in_seq in Hc.
  assert (HD : 0 < D) by nia.
  assert (Hq : c / D < KV * R)
    by (apply Nat.Div0.div_lt_upper_bound; nia).
  assert (Hm : c mod D < D) by (apply Nat.mod_upper_bound; lia).
  transitivity
    (get (tabulate [B; S; KV * R; D]
            (fun idx => match idx with
                        | [i0; k; j0; l] =>
                            get (sp_heads self x freqs mask root B S (KV * R) KV R D)
                                [i0; j0; k; l]
                        | _ => dflt
                        end))
         [i; j; c / D; c mod D]).
  - apply get_same_data; [reflexivity|]. apply ravel_merge_heads.
  - rewrite get_tabulate by (cbn [in_range]; auto).
    unfold sp_heads. rewrite get_tabulate by (cbn [in_range]; auto).
    reflexivity.
Qed.

End AttentionSteps.

Lemma Attention_forward_ok
    {T : Type} `{Engine T}
    (self : Attention T) (x : tensor T) (freqs : tensor (complex T))
    (mask : option (tensor T)) (root : PyFloat.float)
    (B S Hq KV R F Din Dout : nat) :
  wf x -> shape x = [B; S; Din] ->
  att_n_heads_q self = Z.of_nat Hq ->
  att_n_kv_heads self = Z.of_nat KV ->
  att_n_rep self = Z.of_nat R ->
  att_head_dim self = Z.of_nat (F * 2) ->
  Hq = KV * R ->
  shape (wq self) = [Hq * (F * 2); Din] ->
  shape (wk self) = [KV * (F * 2); Din] ->
  shape (wv self) = [KV * (F * 2); Din] ->
  shape (wo self) = [Dout; Hq * (F * 2)] ->
  wf freqs -> shape freqs = [S; F] ->
  match mask with
  | Some m => wf m /\ shape m = [1; 1; S; S]
  | None => True
  end ->
  PyFloat.sqrt_int (att_head_dim self) = Ok root ->
  0 < B -> 0 < S -> 0 < KV -> 0 < R ->
  Attention_forward self x freqs mask =
  Ok (attention_spec self x freqs mask (scalar root) B S Hq KV R (F * 2) Dout).
Proof.
  intros Hwx Hsx Hheads Hkv Hrep Hhd -> Hswq Hswk Hswv Hswo Hwf Hsf Hmask
    Hroot HB HS HKV HR.
  unfold Attention_forward. rewrite Hsx.
  rewrite (linear_ok (wq self) x (KV * R * (F * 2)) Din [B; S]) by assumption.
  rewrite (linear_ok (wk self) x (KV * (F * 2)) Din [B; S]) by assumption.
  rewrite (linear_ok (wv self) x (KV * (F * 2)) Din [B; S]) by assumption.
  cbn [bind app]. rewrite Hhd in Hroot. rewrite Hheads, Hkv, Hhd, Hrep.
  rewrite !view_heads. cbn [bind].
  rewrite (apply_rotary_emb_ok _ _ freqs B S (KV * R) KV F)
    by (try apply wf_tabulate; try reflexivity; assumption || nia).
  cbn [bind fst snd].
  rewrite (repeat_kv_tabulate _ B S KV (F * 2) R)
    by (try apply wf_tabulate; try reflexivity; lia).
  cbn [bind].
  rewrite (repeat_kv_tabulate _ B S KV (F * 2) R)
    by (try apply wf_tabulate; try reflexivity; lia).
  cbn [bind].
  rewrite queries_transposed. cbn [bind].
  rewrite keys_transposed. cbn [bind].
  rewrite values_transposed. cbn [bind].
  rewrite keys_transposed_last. cbn [bind].
  pose proof (scores_scaled self x freqs (scalar root) B S KV R (F * 2)) as Hsc.
  apply bind_ok_inv in Hsc as (prod & Hprod & Hsc).
  rewrite Hprod. cbn [bind]. rewrite Hroot. cbn [bind].
  apply Ok_inj in Hsc. rewrite Hsc.
  rewrite (scores_masked self x freqs mask (scalar root) B S KV R (F * 2) Hmask).
  cbn [bind]. rewrite scores_softmax, heads_weighted. cbn [bind].
  apply heads_projected; assumption.
Qed.


(** C3.  On an input [B, S, dim] [Attention.forward] returns the tensor
    of the specification: bias-free projections to Q, K and V, reshaped
    to heads; rotary encoding on Q and K and not on V; query head [h]
    reading key/value head [h / n_rep]; scores [Q.K^T / sqrt(head_dim)];
    the mask added when there is one; softmax over the key positions on
    32-bit values, cast back; the weighted sum of V; the heads side by
    side; the bias-free output projection. *)
Theorem attention_forward_steps
    {T : Type} `{Engine T}
    (self : Attention T) (x : tensor T) (freqs : tensor (complex T))
    (mask : option (tensor T)) (root : PyFloat.float)
    (B S Hq KV R F Din Dout : nat) :
  wf x -> shape x = [B; S; Din] ->
  att_n_heads_q self = Z.of_nat Hq ->
  att_n_kv_heads self = Z.of_nat KV ->
  att_n_rep self = Z.of_nat R ->
  att_head_dim self = Z.of_nat (F * 2) ->
  Hq = KV * R ->
  shape (wq self) = [Hq * (F * 2); Din] ->
  shape (wk self) = [KV * (F * 2); Din] ->
  shape (wv self) = [KV * (F * 2); Din] ->
  shape (wo self) = [Dout; Hq * (F * 2)] ->
  wf freqs -> shape freqs = [S; F] ->
  match mask with
  | Some m => wf m /\ shape m = [1; 1; S; S]
  | None => True
  end ->
  PyFloat.sqrt_int (att_head_dim self) = Ok root ->
  0 < B -> 0 < S -> 0 < KV -> 0 < R ->
  exists out : tensor T,
    Attention_forward self x freqs mask = Ok out /\
    out = attention_spec self x freqs mask (scalar root) B S Hq KV R (F * 2) Dout /\
    shape out = [B; S; Dout] /\
    forall i j o, i < B -> j < S -> o < Dout ->
      get out [i; j; o] =
        dot (map (fun c =>
                    sp_head self x freqs mask (scalar root) B S Hq KV R (F * 2)
                      i (c / (F * 2)) j (c mod (F * 2)))
                 (seq 0 (Hq * (F * 2))))
            (row (wo self) [o]).
Proof.
  intros Hwx Hsx Hheads Hkv Hrep Hhd Hg Hswq Hswk Hswv Hswo Hwf Hsf Hmask
    Hroot HB HS HKV HR.
  eexists. split.
  - apply (Attention_forward_ok self x freqs mask root B S Hq KV R F Din Dout);
      assumption.
  - split; [reflexivity|]. split; [reflexivity|].
    intros i j o Hi Hj Ho. unfold attention_spec.
    rewrite get_tabulate by (cbn [in_range]; auto).
    reflexivity.
Qed.

Lemma attention_forward_steps_witness :
  exists out : tensor unit,
    Attention_forward small_attention (full [1; 2; 2] tt)
      (full [2; 1] (tt, tt)) (Some (full [1; 1; 2; 2] tt)) = Ok out /\
    shape out = [1; 2; 2].
Proof.
  destruct (attention_forward_steps small_attention (full [1; 2; 2] tt)
              (full [2; 1] (tt, tt)) (Some (full [1; 1; 2; 2] tt)) sqrt_two
              1 2 2 1 2 1 2 2
              eq_refl eq_refl eq_refl eq_refl eq_refl eq_refl eq_refl
              eq_refl eq_refl eq_refl eq_refl eq_refl eq_refl
              (conj eq_refl eq_refl) eq_refl
              ltac:(lia) ltac:(lia) ltac:(lia) ltac:(lia))
    as (out & Hout & _ & Hs & _).
  exists out. split; assumption.
Defined.

(** ** The forward pass on a well-formed model *)

Section ForwardFacts.
  Context {T : Type} `{Engine T}.

Lemma embedding_ok (w : tensor T) (tokens : tensor Z) (vocab d : nat) :
  shape w = [vocab; d] -> tokens_in_vocab tokens vocab ->
  exists h : tensor T,
    embedding w tokens = Ok h /\ wf h /\ shape h = shape tokens ++ [d].
Proof.
  intros Hw Ht. unfold embedding. rewrite Hw.
  assert (E : forallb (fun t => (0 <=? t)%Z && (t <? Z.of_nat vocab)%Z)
                (data tokens) = true).
  { apply forallb_forall. intros t Hin.
    unfold tokens_in_vocab in Ht. rewrite Forall_forall in Ht.
    specialize (Ht t Hin). apply andb_true_intro. split.
    - apply Z.leb_le. lia.
    - apply Z.ltb_lt. lia. }
  rewrite E. eexists. split; [reflexivity|].
  split; [apply wf_tabulate | reflexivity].
Qed.

Lemma causal_mask_ok (S : nat) :
  match causal_mask (T := T) S with
  | Some m => wf m /\ shape m = [1; 1; S; S]
  | None => True
  end.
Proof.
  unfold causal_mask. destruct (1 <? S); [|exact I].
  split; [apply wf_tabulate | reflexivity].
Qed.

Lemma FeedForward_forward_ok (ff : FeedForward T) (x : tensor T)
    (B S D : nat) :
  FeedForward_wf ff D -> shape x = [B; S; D] ->
  exists y : tensor T,
    FeedForward_forward ff x = Ok y /\ wf y /\ shape y = [B; S; D].
Proof.
  intros (hidden & H1 & H2 & H3) Hx. unfold FeedForward_forward.
  rewrite (linear_ok (w1 ff) x hidden D [B; S]) by assumption.
  rewrite (linear_ok (w3 ff) x hidden D [B; S]) by assumption.
  cbn [bind app].
  rewrite (broadcast_op_ok mul _ _ [B; S; hidden])
    by apply broadcast_shapes_same.
  cbn [bind].
  rewrite (linear_ok (w2 ff) _ D hidden [B; S]) by (assumption || reflexivity).
  eexists. split; [reflexivity|]. split; [apply wf_tabulate | reflexivity].
Qed.

Lemma TransformerBlock_forward_ok (blk : TransformerBlock T) (x : tensor T)
    (freqs : tensor (complex T)) (mask : option (tensor T))
    (B S D F : nat) :
  Block_wf blk D F ->
  wf x -> shape x = [B; S; D] ->
  wf freqs -> shape freqs = [S; F] ->
  match mask with
  | Some m => wf m /\ shape m = [1; 1; S; S]
  | None => True
  end ->
  0 < B -> 0 < S ->
  exists y : tensor T,
    TransformerBlock_forward blk x freqs mask = Ok y /\
    wf y /\ shape y = [B; S; D].
Proof.
  intros (Hatt & Hff & Han & Hfn) Hwx Hsx Hwf Hsf Hmask HB HS.
  destruct Hatt as (KV & R & root & HKV & HR & Hh & Hkv & Hrep & Hhd
                    & Hq & Hk & Hv & Ho & Hroot).
  unfold TransformerBlock_forward.
  rewrite (RMSNorm_forward_ok (attention_norm blk) x [B; S] D) by assumption.
  cbn [bind app].
  rewrite (Attention_forward_ok (attention blk) _ freqs mask root
             B S (KV * R) KV R F D D)
    by (try apply wf_tabulate; try reflexivity; assumption).
  cbn [bind].
  rewrite (broadcast_op_ok add x _ [B; S; D])
    by (rewrite Hsx; apply broadcast_shapes_same).
  cbn [bind].
  rewrite (RMSNorm_forward_ok (ffn_norm blk) _ [B; S] D)
    by (try apply wf_tabulate; try reflexivity; assumption).
  cbn [bind app].
  match goal with
  | |- context [FeedForward_forward (feed_forward blk) ?nh] =>
      destruct (FeedForward_forward_ok (feed_forward blk) nh B S D Hff eq_refl)
        as (f & Hf & Hwff & Hsff)
  end.
  rewrite Hf. cbn [bind].
  rewrite (broadcast_op_ok add _ f [B; S; D])
    by (rewrite Hsff; apply broadcast_shapes_same).
  eexists. split; [reflexivity|]. split; [apply wf_tabulate | reflexivity].
Qed.

Lemma run_layers_ok (ls : list (TransformerBlock T)) (x : tensor T)
    (freqs : tensor (complex T)) (mask : option (tensor T))
    (B S D F : nat) :
  Forall (fun blk => Block_wf blk D F) ls ->
  wf x -> shape x = [B; S; D] ->
  wf freqs -> shape freqs = [S; F] ->
  match mask with
  | Some m => wf m /\ shape m = [1; 1; S; S]
  | None => True
  end ->
  0 < B -> 0 < S ->
  exists y : tensor T,
    run_layers ls x freqs mask = Ok y /\ wf y /\ shape y = [B; S; D].
Proof.
  intros Hls. revert x. induction Hls as [|blk ls Hblk Hls IH];
    intros x Hwx Hsx Hwf Hsf Hmask HB HS; cbn [run_layers].
  - exists x. auto.
  - destruct (TransformerBlock_forward_ok blk x freqs mask B S D F
                Hblk Hwx Hsx Hwf Hsf Hmask HB HS) as (y & Hy & Hwy & Hsy).
    rewrite Hy. cbn [bind]. now apply IH.
Qed.

Lemma Transformer_forward_ok (m : Transformer T) (tokens : tensor Z)
    (start_pos B S V D n F : nat) :
  Transformer_wf m V D n F ->
  shape tokens = [B; S] -> tokens_in_vocab tokens V ->
  start_pos + S <= n -> 0 < B -> 0 < S ->
  exists logits : tensor T,
    snd (Transformer_forward m tokens (Z.of_nat start_pos)) = Ok logits /\
    wf logits /\ shape logits = [B; S; V].
Proof.
  intros (Hemb & Hls & Hnorm & Hout & Hwt & Hst) Hs Hvocab Hle HB HS.
  rewrite (Transformer_forward_result m tokens _ B S Hs).
  destruct (embedding_ok (tok_embeddings m) tokens V D Hemb Hvocab)
    as (h & Hh & Hwh & Hsh).
  rewrite Hh. cbn [bind]. rewrite Hs in Hsh. cbn [app] in Hsh.
  destruct (slice0_in_range (freqs_cis m) n [F] start_pos S Hwt Hst Hle)
    as (fr & Hfr & Hsfr & Hwfr & _).
  rewrite Hfr. cbn [bind].
  destruct (run_layers_ok (layers m) h fr (causal_mask S) B S D F
              Hls Hwh Hsh Hwfr Hsfr (causal_mask_ok S) HB HS)
    as (y & Hy & Hwy & Hsy).
  rewrite Hy. cbn [bind].
  rewrite (RMSNorm_forward_ok (norm m) y [B; S] D) by assumption.
  cbn [bind app].
  rewrite (linear_ok (output m) _ V D [B; S]) by (assumption || reflexivity).
  eexists. split; [reflexivity|]. split; [apply wf_tabulate | reflexivity].
Qed.

(** The call changes where the rotary table is, and nothing else. *)
Lemma Transformer_forward_keeps_weights (m : Transformer T)
    (tokens : tensor Z) (start_pos : Z) :
  same_weights (fst (Transformer_forward m tokens start_pos)) m.
Proof.
  unfold Transformer_forward, same_weights.
  destruct (shape tokens) as [|b [|s [|? ?]]]; cbn [fst]; auto.
  destruct (embedding (tok_embeddings m) tokens); cbn [fst move_freqs
    tok_embeddings layers norm output freqs_cis]; auto.
Qed.

Lemma Transformer_forward_same_weights (m1 m2 : Transformer T)
    (tokens : tensor Z) (start_pos : Z) :
  same_weights m1 m2 ->
  snd (Transformer_forward m1 tokens start_pos) =
  snd (Transformer_forward m2 tokens start_pos).
Proof.
  intros (He & Hl & Hn & Ho & Hf). unfold Transformer_forward.
  destruct (shape tokens) as [|b [|s [|? ?]]]; try reflexivity.
  rewrite He.
  destruct (embedding (tok_embeddings m2) tokens); [|reflexivity].
  cbn [snd move_freqs tok_embeddings layers norm output freqs_cis].
  now rewrite Hl, Hn, Ho, Hf.
Qed.

End ForwardFacts.

(** ** Construction gives a well-formed model *)

Lemma of_nat_div_mul (a b : nat) :
  0 < a -> (Z.of_nat (a * b) / Z.of_nat a)%Z = Z.of_nat b.
Proof.
  intros Ha. rewrite Nat2Z.inj_mul, Z.mul_comm. apply Z.div_mul. lia.
Qed.

Lemma succeeds_ok {A : Type} (r : result A) :
  succeeds r = true -> exists a, r = Ok a.
Proof. destruct r as [a|e]; [eauto | discriminate]. Qed.

Section ConstructionFacts.
  Context {T : Type} `{Engine T}.
  Variable rand : list nat -> T.
  Variable args : ModelArgs.
  Variables KV R F : nat.
  Hypothesis Hvalid : valid_args args KV R F.

Lemma head_dim_valid :
  py_floordiv (dim args) (n_heads args) = Ok (Z.of_nat (F * 2)).
Proof.
  destruct Hvalid as (HKV & HR & Hkv & Hh & Hd & _).
  unfold py_floordiv. rewrite Hh, Hd.
  destruct (Z.eqb_spec (Z.of_nat (KV * R)) 0) as [E|_]; [nia|].
  now rewrite of_nat_div_mul by nia.
Qed.

Lemma Linear_new_shape (i o : nat) (w : tensor T) :
  Linear_new rand (Z.of_nat i) (Z.of_nat o) = Ok w -> shape w = [o; i].
Proof.
  intros Hw. apply Linear_new_inv in Hw as (_ & _ & ->).
  cbn [shape tabulate]. now rewrite !Nat2Z.id.
Qed.

Lemma Attention_new_wf (att : Attention T) :
  Attention_new rand args = Ok att ->
  Attention_wf att (KV * R * (F * 2)) F.
Proof.
  intros Ha. pose proof head_dim_valid as Hhd.
  destruct Hvalid as (HKV & HR & Hkv & Hh & Hd & _ & Hroot).
  apply succeeds_ok in Hroot as (root & Hroot).
  unfold Attention_new in Ha. rewrite Hhd in Ha.
  unfold py_floordiv in Ha. rewrite Hh, Hkv, Hd in Ha.
  destruct (Z.eqb_spec (Z.of_nat KV) 0) as [E|_]; [lia|].
  rewrite of_nat_div_mul in Ha by lia. cbn [bind] in Ha.
  rewrite <- !Nat2Z.inj_mul in Ha.
  inv_bind Ha. rename x into q, E into Eq.
  inv_bind Ha. rename x into k, E into Ek.
  inv_bind Ha. rename x into v, E into Ev.
  inv_bind Ha. rename x into o, E into Eo.
  apply Ok_inj in Ha. subst att.
  apply Linear_new_shape in Eq, Ek, Ev, Eo.
  exists KV, R, root.
  cbn [att_n_heads_q att_n_kv_heads att_n_rep att_head_dim wq wk wv wo].
  repeat split; assumption.
Qed.

Lemma FeedForward_new_wf (hidden_dim multiple_of_ : Z) (ff : FeedForward T) :
  FeedForward_new rand (dim args) hidden_dim multiple_of_ = Ok ff ->
  FeedForward_wf ff (KV * R * (F * 2)).
Proof.
  intros Hf. destruct Hvalid as (_ & _ & _ & _ & Hd & _).
  unfold FeedForward_new in Hf. rewrite Hd in Hf.
  inv_bind Hf. rename x into hidden, E into Eh.
  inv_bind Hf. rename x into a, E into E1.
  pose proof (Linear_new_inv _ _ _ _ E1) as (_ & Hh & _).
  rewrite <- (Z2Nat.id hidden Hh) in *.
  inv_bind Hf. rename x into b, E into E2.
  inv_bind Hf. rename x into c, E into E3.
  apply Ok_inj in Hf. subst ff.
  apply Linear_new_shape in E1, E2, E3.
  exists (Z.to_nat hidden). cbn [w1 w2 w3]. auto.
Qed.

Lemma RMSNorm_new_shape (eps_ : PyFloat.float) (nrm : RMSNorm T) :
  RMSNorm_new (dim args) eps_ = Ok nrm ->
  shape (weight nrm) = [KV * R * (F * 2)].
Proof.
  intros Hn. destruct Hvalid as (_ & _ & _ & _ & Hd & _).
  unfold RMSNorm_new in Hn. inv_bind Hn. apply Ok_inj in Hn. subst nrm.
  cbn [weight shape full tabulate]. now rewrite Hd, Nat2Z.id.
Qed.

Lemma TransformerBlock_new_wf (layer_id : Z) (blk : TransformerBlock T) :
  TransformerBlock_new rand layer_id args = Ok blk ->
  Block_wf blk (KV * R * (F * 2)) F.
Proof.
  intros Hb. unfold TransformerBlock_new in Hb.
  inv_bind Hb. clear E x.
  inv_bind Hb. rename x into att, E into Ea.
  inv_bind Hb. rename x into ff, E into Ef.
  inv_bind Hb. rename x into an, E into Ean.
  inv_bind Hb. rename x into fn, E into Efn.
  apply Ok_inj in Hb. subst blk.
  unfold Block_wf. cbn [attention feed_forward attention_norm ffn_norm].
  split; [now apply Attention_new_wf|].
  split; [now apply (FeedForward_new_wf _ _ _ Ef)|].
  split; [now apply (RMSNorm_new_shape _ _ Ean)
         | now apply (RMSNorm_new_shape _ _ Efn)].
Qed.

Lemma new_layers_wf (n : nat) (layer_id : Z) (ls : list (TransformerBlock T)) :
  new_layers rand args layer_id n = Ok ls ->
  Forall (fun blk => Block_wf blk (KV * R * (F * 2)) F) ls.
Proof.
  revert layer_id ls. induction n as [|n IH]; intros layer_id ls Hl;
    cbn [new_layers] in Hl.
  - apply Ok_inj in Hl. subst ls. constructor.
  - inv_bind Hl. rename x into blk, E into Eb.
    inv_bind Hl. rename x into rest, E into Er.
    apply Ok_inj in Hl. subst ls. constructor.
    + now apply (TransformerBlock_new_wf layer_id).
    + now apply (IH (layer_id + 1)%Z).
Qed.

Lemma Transformer_new_wf (m : Transformer T) :
  Transformer_new rand args = Ok m ->
  Transformer_wf m (Z.to_nat (vocab_size args)) (KV * R * (F * 2))
    (Z.to_nat (max_seq_len args * 2)) F.
Proof.
  intros Hm. pose proof head_dim_valid as Hhd.
  pose proof Hvalid as (_ & _ & _ & _ & Hd & Hv & _).
  unfold Transformer_new in Hm.
  inv_bind Hm. rename x into emb, E into Ee.
  inv_bind Hm. rename x into ls, E into El.
  inv_bind Hm. rename x into nrm, E into En.
  inv_bind Hm. rename x into out, E into Eo.
  rewrite Hhd in Hm. cbn [bind] in Hm.
  inv_bind Hm. rename x into table, E into Et.
  apply Ok_inj in Hm. subst m.
  unfold Transformer_wf.
  cbn [tok_embeddings layers norm output freqs_cis].
  apply precompute_freqs_cis_inv in Et as (_ & _ & Hst & Hwt).
  replace (Z.to_nat ((Z.of_nat (F * 2) + 1) / 2)) with F in Hst.
  2:{ rewrite Nat2Z.inj_mul. change (Z.of_nat 2) with 2%Z.
      rewrite Z.div_add_l by lia. change (1 / 2)%Z with 0%Z. lia. }
  repeat split.
  - unfold Embedding_new in Ee. inv_bind Ee. apply Ok_inj in Ee. subst emb.
    cbn [shape tabulate]. now rewrite Hd, Nat2Z.id.
  - now apply (new_layers_wf _ _ _ El).
  - now apply (RMSNorm_new_shape _ _ En).
  - rewrite Hd, <- (Z2Nat.id (vocab_size args) Hv) in Eo.
    now apply Linear_new_shape in Eo.
  - exact Hwt.
  - exact Hst.
Qed.

End ConstructionFacts.

(** ** Determinism of the forward pass *)

(** C9.  Two forward passes on states with identical weights, on
    identical token ids and the same [start_pos], return identical
    logits, also when the second pass follows the first on the same
    module; on a model with the shapes of [__init__], token ids of the
    vocabulary and positions inside the rotary table, they return
    logits of shape [batch, seq, vocab_size]. *)
Theorem forward_deterministic
    {T : Type} `{Engine T} (m1 m2 : Transformer T) (tokens : tensor Z)
    (start_pos B S V D n F : nat) :
  Transformer_wf m1 V D n F ->
  same_weights m1 m2 ->
  shape tokens = [B; S] ->
  tokens_in_vocab tokens V ->
  start_pos + S <= n ->
  0 < B -> 0 < S ->
  exists logits : tensor T,
    snd (Transformer_forward m1 tokens (Z.of_nat start_pos)) = Ok logits /\
    snd (Transformer_forward m2 tokens (Z.of_nat start_pos)) = Ok logits /\
    snd (Transformer_forward
           (fst (Transformer_forward m1 tokens (Z.of_nat start_pos)))
           tokens (Z.of_nat start_pos)) = Ok logits /\
    shape logits = [B; S; V].
Proof.
  intros Hwf Hsame Hs Hvocab Hle HB HS.
  destruct (Transformer_forward_ok m1 tokens start_pos B S V D n F
              Hwf Hs Hvocab Hle HB HS) as (logits & Hl & _ & Hshape).
  exists logits. split; [exact Hl|]. split; [|split].
  - rewrite <- (Transformer_forward_same_weights m1 m2 tokens _ Hsame).
    exact Hl.
  - rewrite (Transformer_forward_same_weights _ m1 tokens _
               (Transformer_forward_keeps_weights m1 tokens _)).
    exact Hl.
  - exact Hshape.
Qed.

Lemma small_args_valid : valid_args small_args 2 2 1.
Proof.
  unfold valid_args.
  split; [lia|]. split; [lia|].
  split; [reflexivity|]. split; [reflexivity|]. split; [reflexivity|].
  split; [cbn; lia | reflexivity].
Qed.

Lemma forward_deterministic_witness :
  exists (m : Transformer unit) (logits : tensor unit),
    Transformer_new (fun _ => tt) small_args = Ok m /\
    snd (Transformer_forward m (token_row [1; 2; 3]%Z) 0) = Ok logits /\
    snd (Transformer_forward (Transformer_to m CUDA)
           (token_row [1; 2; 3]%Z) 0) = Ok logits /\
    shape logits = [1; 3; 5].
Proof.
  destruct (Transformer_new (fun _ : list nat => tt) small_args)
    as [m|e] eqn:En; [|vm_compute in En; discriminate].
  pose proof (Transformer_new_wf (fun _ : list nat => tt) small_args 2 2 1
                small_args_valid m En) as Hwf.
  assert (Hsame : same_weights m (Transformer_to m CUDA))
    by (repeat split; reflexivity).
  assert (Hvocab : tokens_in_vocab (token_row [1; 2; 3]%Z)
                     (Z.to_nat (vocab_size small_args))).
  { unfold tokens_in_vocab. cbn [data token_row].
    repeat constructor; cbn; lia. }
  destruct (forward_deterministic m (Transformer_to m CUDA)
              (token_row [1; 2; 3]%Z) 0 1 3 _ _ _ _
              Hwf Hsame eq_refl Hvocab ltac:(cbn; lia) ltac:(lia) ltac:(lia))
    as (logits & H1 & H2 & _ & Hs).
  exists m, logits. repeat split; assumption.
Defined.

(** ** More on [find_multiple] *)

Lemma find_multiple_inv (n k m : Z) :
  find_multiple n k = Ok m ->
  k <> 0%Z /\
  ((n mod k = 0 /\ m = n) \/ (n mod k <> 0 /\ m = n + k - n mod k))%Z.
Proof.
  unfold find_multiple, py_mod.
  destruct (Z.eqb_spec k 0) as [|Hk]; [discriminate|]. cbn [bind].
  destruct (Z.eqb_spec (n mod k) 0) as [E|E]; intros [= <-]; auto.
Qed.

(** X1.  Whatever the sign of [k], what [find_multiple n k] returns is a
    multiple of [k] that [find_multiple] leaves as it is, and it is [n]
    itself exactly when [n] is a multiple of [k] already. *)
Theorem find_multiple_idempotent (n k m : Z) :
  find_multiple n k = Ok m ->
  (k | m)%Z /\ find_multiple m k = Ok m /\ (m = n <-> (k | n)%Z).
Proof.
  intros Hm. destruct (find_multiple_inv _ _ _ Hm) as (Hk & Hcase).
  pose proof (Z.div_mod n k Hk) as Hdm.
  assert (Hdiv : (k | m)%Z).
  { destruct Hcase as [(E & ->) | (E & ->)].
    - now apply Z.mod_divide.
    - exists (n / k + 1)%Z. lia. }
  split; [exact Hdiv|]. split.
  - unfold find_multiple, py_mod.
    destruct (Z.eqb_spec k 0) as [|_]; [contradiction|]. cbn [bind].
    apply Z.mod_divide in Hdiv; [|assumption]. now rewrite Hdiv.
  - destruct Hcase as [(E & ->) | (E & ->)].
    + split; [intros _; now apply Z.mod_divide | reflexivity].
    + split.
      * intros Heq. exfalso.
        assert (Hr : (n mod k = k)%Z) by lia.
        destruct (Z.lt_trichotomy k 0) as [Hneg | [H0 | Hpos]]; [|lia|].
        -- pose proof (Z.mod_neg_bound n k Hneg). lia.
        -- pose proof (Z.mod_pos_bound n k Hpos). lia.
      * intros Hd. apply Z.mod_divide in Hd; [contradiction | assumption].
Qed.

Lemma find_multiple_idempotent_witness :
  (4 | 12)%Z /\ find_multiple 12 4 = Ok 12%Z /\ (12 = 10 <-> (4 | 10))%Z.
Proof. exact (find_multiple_idempotent 10 4 12 eq_refl). Defined.

(** X2.  With a negative [k] the function rounds down: the result is the
    greatest multiple of [k] that is at most [n], less than [|k|] below
    it. *)
Theorem find_multiple_negative_rounds_down (n k m : Z) :
  (k < 0)%Z ->
  find_multiple n k = Ok m ->
  (k | m)%Z /\ (n + k < m <= n)%Z /\
  (forall m', (k | m')%Z -> (m' <= n)%Z -> (m' <= m)%Z).
Proof.
  intros Hneg Hm. destruct (find_multiple_inv _ _ _ Hm) as (Hk & Hcase).
  pose proof (Z.div_mod n k Hk) as Hdm.
  pose proof (Z.mod_neg_bound n k Hneg) as Hb.
  assert (Hdiv : exists q, m = (q * k)%Z /\ (n + k < m <= n)%Z).
  { destruct Hcase as [(E & ->) | (E & ->)].
    - exists (n / k)%Z. lia.
    - exists (n / k + 1)%Z. lia. }
  destruct Hdiv as (q & Hq & Hrange).
  split; [now exists q|]. split; [exact Hrange|].
  intros m' [q' ->] Hle. subst m.
  destruct (Z.le_gt_cases (q' * k) (q * k)) as [|Hgt]; [assumption|].
  exfalso. assert (q' < q)%Z by nia. nia.
Qed.

Lemma find_multiple_negative_rounds_down_witness :
  find_multiple 10 (-4) = Ok 8%Z /\ (10 + -4 < 8 <= 10)%Z.
Proof.
  split; [reflexivity|].
  exact (proj1 (proj2 (find_multiple_negative_rounds_down 10 (-4) 8
                         ltac:(lia) eq_refl))).
Defined.

(** ** The data set and its preparation *)

Lemma view_z_infer_first {A : Type} (t : tensor A) (n m : nat) :
  numel (shape t) = n * m -> 0 < m ->
  view_z t [(-1)%Z; Z.of_nat m] = Ok {| shape := [n; m]; data := data t |}.
Proof.
  intros Hn Hm. unfold view_z.
  cbn [existsb]. rewrite of_nat_not_refused.
  change (-1 <? -1)%Z with false. cbn [orb].
  unfold count_inferred. cbn [filter]. rewrite of_nat_not_inferred.
  change (-1 =? -1)%Z with true. cbn [length].
  unfold known_product. cbn [filter]. rewrite of_nat_not_inferred.
  change (-1 =? -1)%Z with true. cbn [negb map]. rewrite Nat2Z.id.
  replace (numel (shape t)) with (numel [m] * n)
    by (rewrite Hn; cbn [numel fold_right]; ring).
  rewrite infer_dim_ok by (cbn [numel fold_right]; lia).
  cbn [bind map]. rewrite of_nat_not_inferred.
  change (-1 =? -1)%Z with true. cbv iota.
  apply view_ok. cbn [numel fold_right]. rewrite Hn. ring.
Qed.

Lemma expand_same_shape {A : Type} `{Default A} (t : tensor A) (n m : nat) :
  wf t -> shape t = [n; m] ->
  expand t [Z.of_nat n; Z.of_nat m] = Ok t.
Proof.
  intros Hwf Hs. unfold expand. rewrite Hs. cbn [expand_shape bind].
  rewrite !of_nat_not_inferred, !of_nat_not_refused, !Nat2Z.id, !Nat.eqb_refl.
  cbn [bind]. f_equal. symmetry.
  rewrite (tensor_eta t Hwf) at 1. rewrite Hs.
  apply tabulate_ext. intros idx Hr. now rewrite bidx_in_range.
Qed.

Lemma wf_tensor_of_list (l : list Z) : wf (tensor_of_list l).
Proof.
  unfold wf, tensor_of_list. cbn [shape data numel fold_right]. lia.
Qed.

Lemma map_nth_offset {A : Type} (l : list A) (d : A) (a m : nat) :
  a + m <= length l ->
  map (fun j => nth (a + j) l d) (seq 0 m) = firstn m (skipn a l).
Proof.
  intros Hle.
  rewrite <- (map_nth_seq (firstn m (skipn a l)) d).
  rewrite length_firstn, length_skipn, Nat.min_l by lia.
  apply map_ext_in. intros j Hj. apply in_seq in Hj.
  rewrite nth_firstn.
  destruct (Nat.ltb_spec j m) as [_|]; [|lia].
  now rewrite nth_skipn.
Qed.

Lemma concat_chunks {A : Type} (l : list A) (d : A) (m q : nat) :
  q * m <= length l ->
  concat (map (fun i => map (fun j => nth (i * m + j) l d) (seq 0 m))
              (seq 0 q)) =
  firstn (q * m) l.
Proof.
  induction q as [|q IH]; intros Hle; [reflexivity|].
  rewrite seq_S, map_app, concat_app, IH by lia.
  cbn [Nat.add map concat]. rewrite app_nil_r.
  rewrite map_nth_offset by lia.
  replace (S q * m) with (q * m + m) by lia.
  rewrite <- (firstn_skipn (q * m) (firstn (q * m + m) l)).
  rewrite firstn_firstn, Nat.min_l by lia. f_equal.
  rewrite skipn_firstn_comm. f_equal. lia.
Qed.

Lemma shifted_row (f : nat -> Z) (m : nat) :
  0 < m ->
  map (fun j => if j =? m - 1 then (-100)%Z else f (j + 1)) (seq 0 m) =
  tl (map f (seq 0 m)) ++ [(-100)%Z].
Proof.
  intros Hm. destruct m as [|k]; [lia|].
  replace (S k - 1) with k by lia.
  change (map f (seq 0 (S k))) with (f 0 :: map f (seq 1 k)). cbn [tl].
  rewrite seq_S, map_app. cbn [Nat.add map]. rewrite Nat.eqb_refl.
  f_equal. rewrite <- seq_shift, map_map.
  apply map_ext_in. intros j Hj. apply in_seq in Hj.
  destruct (Nat.eqb_spec j k) as [|_]; [lia|].
  f_equal. lia.
Qed.

(** What [tokenize_function] returns for a positive [max_length] [m]:
    the row [i] of ["input_ids"] holds the ids [i * m .. i * m + m - 1],
    and the row [i] of ["labels"] the ids one further, with [-100] in
    the last place. *)
Lemma tokenize_function_ok (tokenizer : String.string -> list Z)
    (eos_token : String.string) (m : nat) (texts : list String.string) :
  0 < m ->
  let ids := tokenizer (String.concat eos_token texts) in
  tokenize_function tokenizer eos_token (Z.of_nat m) texts =
    Ok [("input_ids"%string,
         map (fun i => map (fun j => nth (i * m + j) ids 0%Z) (seq 0 m))
             (seq 0 (length ids / m)));
        ("labels"%string,
         map (fun i => map (fun j => if j =? m - 1 then (-100)%Z
                                     else nth (i * m + (j + 1)) ids 0%Z)
                           (seq 0 m))
             (seq 0 (length ids / m)))].
Proof.
  intros Hm ids. unfold tokenize_function. fold ids.
  cbn [tensor_of_list shape hd].
  unfold py_floordiv.
  destruct (Z.eqb_spec (Z.of_nat m) 0) as [|_]; [lia|]. cbn [bind].
  rewrite <- Nat2Z.inj_div, <- Nat2Z.inj_mul.
  set (q := length ids / m).
  assert (Hq : q * m <= length ids)
    by (unfold q; rewrite Nat.mul_comm; apply Nat.Div0.mul_div_le).
  destruct (slice0_in_range (tensor_of_list ids) (length ids) [] 0 (q * m)
              (wf_tensor_of_list ids) eq_refl ltac:(lia)) as (fr & Hfr & Hsfr & Hwfr & Hget).
  change (Z.of_nat 0 + Z.of_nat (q * m))%Z with (Z.of_nat (q * m)) in Hfr.
  change (Z.of_nat 0) with 0%Z in Hfr.
  rewrite Hfr. cbn [bind].
  rewrite (view_z_infer_first fr q m)
    by (rewrite ?Hsfr; cbn [numel fold_right]; lia).
  cbn [bind].
  set (inp := {| shape := [q; m]; data := data fr |}).
  assert (Hwi : wf inp).
  { unfold wf in *. rewrite Hsfr in Hwfr. cbn [shape data inp].
    rewrite Hwfr. cbn [numel fold_right]. lia. }
  assert (Hinp : forall i j, i < q -> j < m ->
                   get inp [i; j] = nth (i * m + j) ids 0%Z).
  { intros i j Hi Hj.
    transitivity (get fr [i * m + j]).
    - apply get_same_data; [reflexivity|].
      rewrite Hsfr. cbn [shape inp ravel numel fold_right]. ring.
    - rewrite Hget by (nia || exact I). unfold get.
      cbn [tensor_of_list shape data ravel numel fold_right].
      f_equal. lia. }
  unfold drop_first_column. cbn [shape inp bind].
  fold inp.
  set (shifted := tabulate [q; m - 1] _).
  unfold assign_but_last_column. cbn [shape inp]. fold inp.
  rewrite (expand_same_shape shifted q (m - 1))
    by (apply wf_tabulate || reflexivity).
  cbn [bind].
  set (labels1 := tabulate [q; m] _).
  unfold assign_last_column. change (shape labels1) with [q; m].
  cbv beta iota.
  destruct (Nat.eqb_spec m 0) as [|_]; [lia|]. cbn [bind].
  set (labels2 := tabulate [q; m] _).
  do 2 f_equal; [|f_equal]; f_equal.
  - unfold tolist, row. cbn [shape inp hd last].
    apply map_ext_in. intros i Hi. apply in_seq in Hi.
    apply map_ext_in. intros j Hj. apply in_seq in Hj.
    apply Hinp; lia.
  - unfold tolist, row. change (shape labels2) with [q; m]. cbn [hd last].
    apply map_ext_in. intros i Hi. apply in_seq in Hi.
    apply map_ext_in. intros j Hj. apply in_seq in Hj.
    cbn [app]. unfold labels2. rewrite get_tabulate by (simpl; lia).
    destruct (Nat.eqb_spec j (m - 1)) as [|Hne]; [reflexivity|].
    unfold labels1. rewrite get_tabulate by (simpl; lia).
    destruct (Nat.ltb_spec j (m - 1)) as [_|]; [|lia].
    unfold shifted. rewrite get_tabulate by (simpl; lia).
    apply Hinp; lia.
Qed.

(** X3.  For a positive [max_length], [tokenize_function] cuts the ids
    of the joined text into [len // max_length] consecutive rows of
    [max_length] ids each: the rows one after the other are the first
    [(len // max_length) * max_length] ids, and the ids after them are
    dropped. *)
Theorem tokenize_function_chunks (tokenizer : String.string -> list Z)
    (eos_token : String.string) (max_length : Z)
    (texts : list String.string) :
  (0 < max_length)%Z ->
  let ids := tokenizer (String.concat eos_token texts) in
  let m := Z.to_nat max_length in
  exists rows labels : list (list Z),
    tokenize_function tokenizer eos_token max_length texts =
      Ok [("input_ids"%string, rows); ("labels"%string, labels)] /\
    length rows = length ids / m /\
    Forall (fun r => length r = m) rows /\
    concat rows = firstn (length ids / m * m) ids /\
    length ids - length (concat rows) < m.
Proof.
  intros Hpos ids m.
  assert (Hm : 0 < m) by (unfold m; lia).
  pose proof (tokenize_function_ok tokenizer eos_token m texts Hm) as Hok.
  cbv zeta in Hok. fold ids in Hok.
  unfold m in Hok at 1. rewrite Z2Nat.id in Hok by lia. fold m in Hok.
  eexists. eexists. split; [exact Hok|].
  assert (Hq : length ids / m * m <= length ids)
    by (rewrite Nat.mul_comm; apply Nat.Div0.mul_div_le).
  split; [now rewrite length_map, length_seq|].
  split.
  - apply Forall_forall. intros r Hr. apply in_map_iff in Hr as (i & <- & _).
    now rewrite length_map, length_seq.
  - rewrite concat_chunks by assumption. split; [reflexivity|].
    rewrite length_firstn, Nat.min_l by assumption.
    pose proof (Nat.div_mod_eq (length ids) m).
    pose proof (Nat.mod_upper_bound (length ids) m). lia.
Qed.

Lemma tokenize_function_chunks_witness :
  exists rows labels : list (list Z),
    tokenize_function (fun _ => [1; 2; 3; 4; 5; 6; 7]%Z) "<eos>"%string 3
      ["a"%string; "b"%string] =
      Ok [("input_ids"%string, rows); ("labels"%string, labels)] /\
    length rows = 2 /\
    concat rows = [1; 2; 3; 4; 5; 6]%Z.
Proof.
  destruct (tokenize_function_chunks (fun _ => [1; 2; 3; 4; 5; 6; 7]%Z)
              "<eos>"%string 3 ["a"%string; "b"%string] ltac:(lia))
    as (rows & labels & Hok & Hlen & _ & Hcat & _).
  exists rows, labels. repeat split; assumption.
Defined.

(** X4.  For a positive [max_length], every row of ["labels"] is its row
    of ["input_ids"] moved one place to the left with [-100] in the last
    place: the label of the last id of a row is [-100], not the first id
    of the next row. *)
Theorem tokenize_function_labels (tokenizer : String.string -> list Z)
    (eos_token : String.string) (max_length : Z)
    (texts : list String.string) :
  (0 < max_length)%Z ->
  exists rows : list (list Z),
    tokenize_function tokenizer eos_token max_length texts =
      Ok [("input_ids"%string, rows);
          ("labels"%string, map (fun r => tl r ++ [(-100)%Z]) rows)].
Proof.
  intros Hpos.
  assert (Hm : 0 < Z.to_nat max_length) by lia.
  pose proof (tokenize_function_ok tokenizer eos_token _ texts Hm) as Hok.
  cbv zeta in Hok. rewrite Z2Nat.id in Hok by lia.
  set (m := Z.to_nat max_length) in *.
  eexists. rewrite Hok, map_map. do 4 f_equal.
  apply map_ext. intros i.
  rewrite <- (shifted_row (fun j => nth (i * m + j)
                             (tokenizer (String.concat eos_token texts)) 0%Z))
    by assumption.
  reflexivity.
Qed.

Lemma tokenize_function_labels_witness :
  exists rows : list (list Z),
    tokenize_function (fun _ => [1; 2; 3; 4; 5; 6; 7]%Z) "<eos>"%string 3
      ["a"%string; "b"%string] =
      Ok [("input_ids"%string, rows);
          ("labels"%string, map (fun r => tl r ++ [(-100)%Z]) rows)].
Proof.
  exact (tokenize_function_labels (fun _ => [1; 2; 3; 4; 5; 6; 7]%Z)
           "<eos>"%string 3 ["a"%string; "b"%string] ltac:(lia)).
Defined.

(** X5.  [tokenize_function] does not accept a [max_length] that is not
    positive: zero raises [ZeroDivisionError] at the floor division, and
    a negative one raises [RuntimeError] at the reshape into rows. *)
Theorem tokenize_function_bad_max_length (tokenizer : String.string -> list Z)
    (eos_token : String.string) (max_length : Z)
    (texts : list String.string) :
  (max_length <= 0)%Z ->
  tokenize_function tokenizer eos_token max_length texts =
    Raise (if (max_length =? 0)%Z then ZeroDivisionError else RuntimeError).
Proof.
  intros Hle. unfold tokenize_function, py_floordiv.
  destruct (Z.eqb_spec max_length 0) as [|Hne]; [reflexivity|].
  cbn [bind]. unfold slice0. cbn [tensor_of_list shape bind].
  unfold view_z. cbn [existsb]. change (-1 <? -1)%Z with false. cbn [orb].
  destruct (Z.ltb_spec max_length (-1)) as [|Hge]; [reflexivity|].
  assert (max_length = (-1)%Z) as -> by lia. reflexivity.
Qed.

Lemma tokenize_function_bad_max_length_witness :
  tokenize_function (fun _ => [1; 2; 3]%Z) "<eos>"%string (-2) ["a"%string] =
    Raise RuntimeError.
Proof.
  exact (tokenize_function_bad_max_length (fun _ => [1; 2; 3]%Z)
           "<eos>"%string (-2) ["a"%string] ltac:(lia)).
Defined.

(** *** Items of the data set *)

Lemma py_index_nonneg {A : Type} (l : list A) (i : Z) (d : A) :
  (0 <= i < Z.of_nat (length l))%Z ->
  py_index l i = Ok (nth (Z.to_nat i) l d).
Proof.
  intros Hi. unfold py_index.
  destruct (Z.ltb_spec i 0) as [|_]; [lia|].
  destruct (Z.ltb_spec i 0) as [|_]; [lia|].
  destruct (Z.leb_spec (Z.of_nat (length l)) i) as [|_]; [lia|].
  cbn [orb].
  destruct (nth_error l (Z.to_nat i)) as [a|] eqn:E.
  - now rewrite (nth_error_nth _ _ d E).
  - apply nth_error_None in E. lia.
Qed.

Lemma py_index_negative {A : Type} (l : list A) (i : Z) :
  (0 <= i < Z.of_nat (length l))%Z ->
  py_index l (i - Z.of_nat (length l)) = py_index l i.
Proof.
  intros Hi. unfold py_index.
  destruct (Z.ltb_spec (i - Z.of_nat (length l)) 0) as [_|]; [|lia].
  destruct (Z.ltb_spec i 0) as [|_]; [lia|].
  now replace (i - Z.of_nat (length l) + Z.of_nat (length l))%Z with i by lia.
Qed.

Lemma py_index_outside {A : Type} (l : list A) (i : Z) :
  (i < - Z.of_nat (length l) \/ Z.of_nat (length l) <= i)%Z ->
  py_index l i = Raise IndexError.
Proof.
  intros Hi. unfold py_index.
  destruct (Z.ltb_spec i 0) as [Hneg|Hpos].
  - destruct (Z.ltb_spec (i + Z.of_nat (length l)) 0) as [|]; [reflexivity|lia].
  - destruct (Z.ltb_spec i 0) as [|_]; [lia|].
    destruct (Z.leb_spec (Z.of_nat (length l)) i) as [|]; [reflexivity|lia].
Qed.

Lemma dict_get_In {V : Type} (d : dict V) (k : String.string) (v : V) :
  dict_get d k = Some v -> exists k', In (k', v) d.
Proof.
  induction d as [|[k' v'] d IH]; cbn [dict_get]; [discriminate|].
  destruct (String.eqb k' k).
  - intros [= ->]. exists k'. now left.
  - intros Hg. destruct (IH Hg) as (k'' & Hin). exists k''. now right.
Qed.

(** X6.  On a data set whose columns all have [n] rows, [__len__] is
    [n]; for [0 <= idx < n] the item [idx] has the keys of the columns,
    in their order, each with the row [idx] of its column as a tensor,
    and [idx - n] names the same item; an index outside [-n .. n - 1]
    raises [IndexError]. *)
Theorem getitem_rows (self : WikiTextDataset) (n : nat) (idx : Z) :
  Forall (fun kv => length (snd kv) = n) (encodings self) ->
  (forall rows, dict_get (encodings self) "input_ids"%string = Some rows ->
     WikiTextDataset_len self = Some n) /\
  ((0 <= idx < Z.of_nat n)%Z ->
     WikiTextDataset_getitem self idx =
       Ok (map (fun kv => (fst kv,
                           tensor_of_list (nth (Z.to_nat idx) (snd kv) [])))
               (encodings self)) /\
     WikiTextDataset_getitem self (idx - Z.of_nat n) =
       WikiTextDataset_getitem self idx) /\
  (encodings self <> [] ->
   (idx < - Z.of_nat n \/ Z.of_nat n <= idx)%Z ->
   WikiTextDataset_getitem self idx = Raise IndexError).
Proof.
  intros Hcols. split; [|split].
  - intros rows Hg. unfold WikiTextDataset_len. rewrite Hg. cbn [option_map].
    destruct (dict_get_In _ _ _ Hg) as (k & Hin).
    rewrite Forall_forall in Hcols. specialize (Hcols _ Hin).
    cbn [snd] in Hcols. now rewrite Hcols.
  - intros Hi. unfold WikiTextDataset_getitem.
    induction Hcols as [|[k col] d Hlen Hd IH]; [split; reflexivity|].
    cbn [snd] in Hlen. cbn [mapM map fst snd].
    destruct IH as (IH1 & IH2).
    assert (E : py_index col (idx - Z.of_nat n) = py_index col idx)
      by (rewrite <- Hlen; apply py_index_negative; lia).
    rewrite E, IH2, IH1.
    rewrite (py_index_nonneg col idx []) by lia.
    split; reflexivity.
  - intros Hne Hi. unfold WikiTextDataset_getitem.
    destruct Hcols as [|[k col] d Hlen Hd]; [contradiction|].
    cbn [snd] in Hlen. cbn [mapM snd].
    now rewrite py_index_outside by lia.
Qed.

Lemma getitem_rows_witness :
  let self := {| encodings := [("input_ids"%string, [[1; 2]; [3; 4]]%Z);
                               ("labels"%string, [[2; -100]; [4; -100]]%Z)] |} in
  WikiTextDataset_len self = Some 2 /\
  WikiTextDataset_getitem self 1 =
    Ok [("input_ids"%string, tensor_of_list [3; 4]%Z);
        ("labels"%string, tensor_of_list [4; -100]%Z)] /\
  WikiTextDataset_getitem self (-1) = WikiTextDataset_getitem self 1.
Proof.
  intros self.
  assert (Hcols : Forall (fun kv : String.string * list (list Z) =>
                            length (snd kv) = 2) (encodings self))
    by (repeat constructor).
  destruct (getitem_rows self 2 1 Hcols) as (Hlen & Hitem & _).
  split; [exact (Hlen _ eq_refl)|].
  exact (Hitem ltac:(lia)).
Defined.

(** ** The greedy loop, one token at a time *)

Lemma mapM_length {X Y : Type} (f : X -> result Y) (l : list X) (ys : list Y) :
  mapM f l = Ok ys -> length ys = length l.
Proof.
  revert ys; induction l as [|x l IH]; intros ys; cbn [mapM].
  - now intros [= <-].
  - intros Hm. inv_bind Hm. inv_bind Hm. injection Hm as <-.
    cbn [length]. f_equal. now apply IH.
Qed.

(** The one id that [argmax_last] gives for a batch of one row. *)
Lemma next_token_single {T : Type} `{Default T} (ltb : T -> T -> bool)
    (logits : tensor T) (next : tensor Z) (tok : Z) :
  argmax_last ltb logits = Ok next -> item next = Ok tok ->
  next = {| shape := [1; 1]; data := [tok] |}.
Proof.
  unfold argmax_last, item. intros Ha Hi.
  destruct (shape logits) as [|b [|v [|? ?]]]; try discriminate.
  inv_bind Ha. injection Ha as <-. cbn [data] in Hi.
  pose proof (mapM_length _ _ _ E) as Hlen. rewrite length_seq in Hlen.
  destruct x as [|a [|? ?]]; try discriminate.
  cbn [map] in Hi. injection Hi as <-.
  cbn [length] in Hlen. subst b. reflexivity.
Qed.

(** [torch.cat] of a row of ids and one more id. *)
Lemma cat_last_row (ids : tensor Z) (L : nat) (tok : Z) :
  wf ids -> shape ids = [1; L] ->
  cat_last ids {| shape := [1; 1]; data := [tok] |} =
    Ok {| shape := [1; L + 1]; data := data ids ++ [tok] |}.
Proof.
  intros Hwf Hs. unfold cat_last. rewrite Hs. cbn [shape Nat.eqb].
  f_equal.
  assert (Hlen : length (data ids) = L).
  { unfold wf in Hwf. rewrite Hs in Hwf. cbn [numel fold_right] in Hwf. lia. }
  apply tensor_ext.
  - apply wf_tabulate.
  - unfold wf. cbn [shape data numel fold_right].
    rewrite length_app. cbn [length]. lia.
  - reflexivity.
  - cbn [shape tabulate]. intros idx Hr.
    rewrite get_tabulate by exact Hr.
    destruct idx as [|i [|j [|? ?]]]; simpl in Hr; try tauto.
    destruct Hr as (Hi & Hj & _).
    assert (i = 0) as -> by lia.
    unfold get. cbn [shape data ravel numel fold_right]. rewrite Hs.
    cbn [ravel numel fold_right].
    destruct (Nat.ltb_spec j L) as [Hlt|Hge].
    + rewrite app_nth1 by lia. f_equal; lia.
    + assert (j = L) as -> by lia.
      rewrite app_nth2 by lia.
      replace (0 * ((L + 1) * 1) + (L * 1 + 0) - length (data ids)) with 0
        by lia.
      replace (0 * (1 * 1) + ((L - L) * 1 + 0)) with 0 by lia.
      reflexivity.
Qed.

Lemma first_row_single (ids : tensor Z) (L : nat) :
  wf ids -> shape ids = [1; L] -> first_row ids = Ok (data ids).
Proof.
  intros Hwf Hs. unfold first_row. rewrite Hs. cbn [Nat.eqb].
  unfold wf in Hwf. rewrite Hs in Hwf.
  cbn [numel fold_right] in *. f_equal.
  apply firstn_all2. lia.
Qed.

Section GenerationFacts.
  Context {T : Type} `{Default T}.
  Variable tdiv : T -> T -> T.
  Variable ltb : T -> T -> bool.
  Context {St Text : Type}.
  Variable model : St -> tensor Z -> Z -> St * result (tensor T).
  Variable eos_token_id : Z.

(** What a run of the loop that returns has appended. *)
Lemma greedy_loop_appends (t : T) (n : nat) :
    forall (st st' : St) (ids out : tensor Z) (L : nat),
      wf ids -> shape ids = [1; L] ->
      greedy_loop tdiv ltb model eos_token_id n st ids t = (st', Ok out) ->
      exists gen : list Z,
        wf out /\ shape out = [1; L + length gen] /\
        data out = data ids ++ gen /\
        length gen <= n /\
        Forall (fun tok => tok <> eos_token_id) (removelast gen) /\
        (length gen < n -> exists pre, gen = pre ++ [eos_token_id]).
  Proof.
    induction n as [|n IH]; intros st st' ids out L Hwf Hs Hrun;
      cbn [greedy_loop] in Hrun.
    - injection Hrun as _ <-. exists []. cbn [length].
      rewrite app_nil_r, Nat.add_0_r. repeat split; auto; lia.
    - destruct (model st ids 0%Z) as [st1 [outputs|e]]; cbn [bind] in Hrun;
        [|discriminate].
      destruct (last_position outputs) as [lastp|e]; cbn [bind] in Hrun;
        [|discriminate].
      destruct (argmax_last ltb _) as [next|e] eqn:En; cbn [bind] in Hrun;
        [|discriminate].
      destruct (cat_last ids next) as [ids'|e] eqn:Ec; cbn [bind] in Hrun;
        [|discriminate].
      destruct (item next) as [tok|e] eqn:Ei; cbn [bind] in Hrun;
        [|discriminate].
      rewrite (next_token_single _ _ _ _ En Ei) in Ec.
      rewrite (cat_last_row ids L tok Hwf Hs) in Ec. apply Ok_inj in Ec.
      assert (Hwf' : wf ids').
      { subst ids'. unfold wf in *. rewrite Hs in Hwf.
        cbn [shape data numel fold_right] in *.
        rewrite length_app. cbn [length]. lia. }
      assert (Hs' : shape ids' = [1; L + 1]) by now subst ids'.
      assert (Hd' : data ids' = data ids ++ [tok]) by now subst ids'.
      destruct (Z.eqb_spec tok eos_token_id) as [Heos|Hne].
      + injection Hrun as _ <-. exists [tok]. cbn [length removelast].
        repeat split; auto; try lia.
        intros _. exists []. now rewrite Heos.
      + destruct (IH _ _ _ _ _ Hwf' Hs' Hrun)
          as (gen & Hwo & Hso & Hdo & Hlen & Hall & Hstop).
        exists (tok :: gen). cbn [length].
        split; [exact Hwo|].
        split; [rewrite Hso; f_equal; f_equal; lia|].
        split; [now rewrite Hdo, Hd', <- app_assoc|].
        split; [lia|]. split.
        * destruct gen as [|g gen]; [constructor|].
          change (removelast (tok :: g :: gen))
            with (tok :: removelast (g :: gen)).
          now constructor.
        * intros Hlt. destruct Hstop as (pre & ->); [lia|].
          now exists (tok :: pre).
  Qed.

End GenerationFacts.

(** X7.  When [generate_text_greedy] returns, the ids it decodes are the
    ids of the prompt followed by the generated ones: at most
    [max_length] of them (none for a [max_length] that is not positive),
    the end-of-sequence id nowhere but in the last place, and in the last
    place whenever fewer than [max_length] ids were generated. *)
Theorem generate_text_greedy_extends_prompt
    {T : Type} `{Default T} (tdiv : T -> T -> T) (ltb : T -> T -> bool)
    {St Text : Type}
    (model : St -> tensor Z -> Z -> St * result (tensor T))
    (encode : Text -> tensor Z) (decode : list Z -> Text)
    (eos_token_id : Z) (st st' : St) (prompt text : Text)
    (max_length : Z) (temperature : T) (L : nat) :
  wf (encode prompt) ->
  shape (encode prompt) = [1; L] ->
  generate_text_greedy tdiv ltb model encode decode eos_token_id
    st prompt max_length temperature = (st', Ok text) ->
  exists gen : list Z,
    text = decode (data (encode prompt) ++ gen) /\
    (Z.of_nat (length gen) <= Z.max max_length 0)%Z /\
    Forall (fun tok => tok <> eos_token_id) (removelast gen) /\
    ((Z.of_nat (length gen) < max_length)%Z ->
     exists pre, gen = pre ++ [eos_token_id]).
Proof.
  intros Hwf Hs Hrun. unfold generate_text_greedy in Hrun.
  destruct (greedy_loop tdiv ltb model eos_token_id (Z.to_nat max_length)
              st (encode prompt) temperature) as [st1 r] eqn:Eloop.
  destruct r as [out|e]; cbn [bind] in Hrun; [|discriminate].
  destruct (greedy_loop_appends tdiv ltb model eos_token_id temperature
              _ _ _ _ _ L Hwf Hs Eloop)
    as (gen & Hwo & Hso & Hdo & Hlen & Hall & Hstop).
  rewrite (first_row_single out _ Hwo Hso) in Hrun. cbn [bind] in Hrun.
  injection Hrun as _ <-.
  exists gen. rewrite Hdo.
  split; [reflexivity|]. split; [lia|]. split; [exact Hall|].
  intros Hlt. apply Hstop. lia.
Qed.

Lemma generate_text_greedy_extends_prompt_witness :
  exists gen : list Z,
    generate_text_greedy Z.div Z.ltb toy_model_int token_row (fun l => l) 1%Z
      tt [3; 4]%Z 5%Z 1%Z = (tt, Ok ([3; 4]%Z ++ gen)) /\
    (Z.of_nat (length gen) < 5)%Z /\
    exists pre, gen = pre ++ [1%Z].
Proof.
  assert (Erun : generate_text_greedy Z.div Z.ltb toy_model_int token_row
                   (fun l => l) 1%Z tt [3; 4]%Z 5%Z 1%Z = (tt, Ok [3; 4; 1]%Z))
    by (vm_compute; reflexivity).
  destruct (generate_text_greedy_extends_prompt Z.div Z.ltb toy_model_int
              token_row (fun l => l) 1%Z tt tt [3; 4]%Z [3; 4; 1]%Z 5%Z 1%Z 2
              eq_refl eq_refl Erun) as (gen & Hgen & _ & _ & Hstop).
  cbn [token_row data] in Hgen.
  assert (gen = [1%Z]) as -> by (injection Hgen as <-; reflexivity).
  exists [1%Z]. split; [exact Erun|]. split; [cbn; lia|].
  apply Hstop. cbn. lia.
Defined.

(** ** Generation with the transformer *)

Lemma argmax_from_lt {T : Type} (ltb : T -> T -> bool) (l : list T)
    (pos best : nat) (v : T) :
  best < pos -> argmax_from ltb l pos best v < pos + length l.
Proof.
  revert pos best v; induction l as [|x l IH]; intros pos best v Hb;
    cbn [argmax_from length]; [lia|].
  destruct (ltb v x).
  - pose proof (IH (S pos) pos x ltac:(lia)). lia.
  - pose proof (IH (S pos) best v ltac:(lia)). lia.
Qed.

Lemma argmax_last_single {T : Type} `{Default T} (ltb : T -> T -> bool)
    (t : tensor T) (V : nat) :
  shape t = [1; V] -> 0 < V ->
  exists a : nat,
    a < V /\
    argmax_last ltb t = Ok {| shape := [1; 1]; data := [Z.of_nat a] |}.
Proof.
  intros Hs HV. unfold argmax_last. rewrite Hs. cbn [seq mapM].
  unfold row. rewrite Hs. cbn [last].
  destruct V as [|V]; [lia|]. cbn [seq map argmax bind].
  eexists. split; [|reflexivity].
  pose proof (argmax_from_lt ltb
                (map (fun k => get t ([0] ++ [k])) (seq 1 V)) 1 0
                (get t ([0] ++ [0])) ltac:(lia)) as Hlt.
  rewrite length_map, length_seq in Hlt. exact Hlt.
Qed.

Lemma last_position_ok {T : Type} `{Default T} (outputs : tensor T)
    (b s v : nat) :
  shape outputs = [b; s; v] -> 0 < s ->
  exists lastp : tensor T,
    last_position outputs = Ok lastp /\ wf lastp /\ shape lastp = [b; v].
Proof.
  intros Hs Hpos. unfold last_position. rewrite Hs.
  destruct (Nat.eqb_spec s 0) as [|_]; [lia|].
  eexists. split; [reflexivity|]. split; [apply wf_tabulate | reflexivity].
Qed.

Section TransformerGeneration.
  Context {T : Type} `{Engine T}.
  Variable tdiv : T -> T -> T.
  Variable ltb : T -> T -> bool.
  Variable eos_token_id : Z.
  Variables V D n F : nat.
  Hypothesis HV : 0 < V.

Lemma same_weights_wf (m m' : Transformer T) :
    same_weights m' m -> Transformer_wf m V D n F -> Transformer_wf m' V D n F.
  Proof.
    intros (He & Hl & Hn & Ho & Hf). unfold Transformer_wf.
    now rewrite He, Hl, Hn, Ho, Hf.
  Qed.

Lemma same_weights_trans (m1 m2 m3 : Transformer T) :
    same_weights m1 m2 -> same_weights m2 m3 -> same_weights m1 m3.
  Proof.
    intros (He & Hl & Hn & Ho & Hf) (He' & Hl' & Hn' & Ho' & Hf').
    unfold same_weights. repeat split; congruence.
  Qed.

(** Every pass of the loop finds the ids inside the vocabulary and the
      positions inside the rotary table, and leaves them so. *)
Lemma greedy_loop_total (t : T) (k : nat) :
    forall (m : Transformer T) (ids : tensor Z) (L : nat),
      Transformer_wf m V D n F ->
      wf ids -> shape ids = [1; L] -> tokens_in_vocab ids V ->
      0 < L -> (0 < k -> L + k <= n + 1) ->
      exists (m' : Transformer T) (out : tensor Z) (L' : nat),
        greedy_loop tdiv ltb (@Transformer_forward T _) eos_token_id
          k m ids t = (m', Ok out) /\
        same_weights m' m /\
        wf out /\ shape out = [1; L'] /\ tokens_in_vocab out V.
  Proof.
    induction k as [|k IH]; intros m ids L Hm Hwf Hs Hvocab HL Hle;
      cbn [greedy_loop].
    - exists m, ids, L. repeat split; auto.
    - specialize (Hle ltac:(lia)).
      destruct (Transformer_forward_ok m ids 0 1 L V D n F
                  Hm Hs Hvocab ltac:(lia) ltac:(lia) HL)
        as (logits & Hlog & Hwl & Hsl).
      change (Z.of_nat 0) with 0%Z in Hlog.
      pose proof (Transformer_forward_keeps_weights m ids 0) as Hkeep.
      destruct (Transformer_forward m ids 0) as [m1 r].
      cbn [fst snd] in Hlog, Hkeep. subst r. cbn [bind].
      destruct (last_position_ok logits 1 L V Hsl HL)
        as (lastp & Hlast & Hwp & Hsp).
      rewrite Hlast. cbn [bind].
      destruct (argmax_last_single ltb (tmap (fun x => tdiv x t) lastp) V
                  Hsp HV) as (a & Ha & Hnext).
      rewrite Hnext. cbn [bind].
      rewrite (cat_last_row ids L (Z.of_nat a) Hwf Hs). cbn [bind item data].
      set (ids' := {| shape := [1; L + 1];
                      data := data ids ++ [Z.of_nat a] |}).
      assert (Hwf' : wf ids').
      { unfold wf in *. rewrite Hs in Hwf.
        cbn [ids' shape data numel fold_right] in *.
        rewrite length_app. cbn [length]. lia. }
      assert (Hvocab' : tokens_in_vocab ids' V).
      { unfold tokens_in_vocab in *. cbn [ids' data].
        apply Forall_app. split; [assumption|].
        constructor; [lia | constructor]. }
      destruct (Z.of_nat a =? eos_token_id)%Z.
      + exists m1, ids', (L + 1). repeat split; try assumption; apply Hkeep.
      + destruct (IH m1 ids' (L + 1) (same_weights_wf _ _ Hkeep Hm)
                    Hwf' eq_refl Hvocab' ltac:(lia) ltac:(lia))
          as (m' & out & L' & Hrun & Hsame & Hwo & Hso & Hvo).
        exists m', out, L'. split; [exact Hrun|].
        split; [exact (same_weights_trans _ _ _ Hsame Hkeep)|].
        repeat split; assumption.
  Qed.

End TransformerGeneration.

(** X8.  Generation with a transformer that has the shapes of
    [__init__] returns a text: when the prompt is one row of at least one
    id of the vocabulary and the prompt with [max_length] more ids is no
    longer than the rotary table and one, no forward pass fails, the
    weights are left as they were, and every id that is decoded is an id
    of the vocabulary. *)
Theorem generate_text_greedy_within_table
    {T : Type} `{Engine T} (tdiv : T -> T -> T) (ltb : T -> T -> bool)
    {Text : Type} (encode : Text -> tensor Z) (decode : list Z -> Text)
    (eos_token_id : Z) (m : Transformer T) (prompt : Text)
    (max_length : Z) (temperature : T) (V D n F L : nat) :
  Transformer_wf m V D n F ->
  0 < V -> 0 < L ->
  wf (encode prompt) -> shape (encode prompt) = [1; L] ->
  tokens_in_vocab (encode prompt) V ->
  (Z.of_nat L + max_length <= Z.of_nat n + 1)%Z ->
  exists (m' : Transformer T) (ids : list Z),
    generate_text_greedy tdiv ltb (@Transformer_forward T _) encode decode
      eos_token_id m prompt max_length temperature = (m', Ok (decode ids)) /\
    same_weights m' m /\
    Forall (fun t => (0 <= t < Z.of_nat V)%Z) ids.
Proof.
  intros Hm HV HL Hwf Hs Hvocab Hle. unfold generate_text_greedy.
  destruct (greedy_loop_total tdiv ltb eos_token_id V D n F HV temperature
              (Z.to_nat max_length) m (encode prompt) L
              Hm Hwf Hs Hvocab HL ltac:(lia))
    as (m' & out & L' & Hrun & Hsame & Hwo & Hso & Hvo).
  rewrite Hrun. cbv beta iota. cbn [bind].
  rewrite (first_row_single out L' Hwo Hso). cbn [bind].
  exists m', (data out). repeat split; assumption || apply Hsame.
Qed.

Lemma generate_text_greedy_within_table_witness :
  exists (m m' : Transformer unit) (ids : list Z),
    Transformer_new (fun _ => tt) small_args = Ok m /\
    generate_text_greedy (fun _ _ => tt) (fun _ _ => false)
      (@Transformer_forward unit _) token_row (fun l => l)
      4%Z m [1; 2]%Z 3%Z tt = (m', Ok ids) /\
    Forall (fun t => (0 <= t < Z.of_nat 5)%Z) ids.
Proof.
  destruct (Transformer_new (fun _ : list nat => tt) small_args)
    as [m|e] eqn:En; [|vm_compute in En; discriminate].
  pose proof (Transformer_new_wf (fun _ : list nat => tt) small_args 2 2 1
                small_args_valid m En) as Hwf.
  assert (Hvocab : tokens_in_vocab (token_row [1; 2]%Z)
                     (Z.to_nat (vocab_size small_args))).
  { unfold tokens_in_vocab. cbn [data token_row].
    repeat constructor; cbn; lia. }
  destruct (generate_text_greedy_within_table
              (fun _ _ : unit => tt) (fun _ _ : unit => false)
              token_row (fun l : list Z => l) 4%Z m [1; 2]%Z 3%Z tt
              (Z.to_nat (vocab_size small_args)) (2 * 2 * (1 * 2))
              (Z.to_nat (max_seq_len small_args * 2)) 1 2
              Hwf ltac:(cbn; lia) ltac:(lia) eq_refl eq_refl Hvocab
              ltac:(cbn; lia))
    as (m' & ids & Hrun & _ & Hall).
  exists m, m', ids. repeat split; assumption.
Defined.

(** ** What [Transformer.forward] refuses *)

(** X9.  A token id outside the embedding table makes
    [Transformer.forward] raise [IndexError] at the embedding, before
    anything else happens: the module is returned as it was, the rotary
    table not moved. *)
Theorem forward_rejects_unknown_token
    {T : Type} `{Engine T} (m : Transformer T) (tokens : tensor Z)
    (start_pos t : Z) (B S V D : nat) :
  shape (tok_embeddings m) = [V; D] ->
  shape tokens = [B; S] ->
  In t (data tokens) ->
  (t < 0 \/ Z.of_nat V <= t)%Z ->
  Transformer_forward m tokens start_pos = (m, Raise IndexError).
Proof.
  intros Hemb Hs Hin Ht. unfold Transformer_forward, embedding.
  rewrite Hs, Hemb.
  destruct (forallb _ (data tokens)) eqn:E; [|reflexivity].
  exfalso. rewrite forallb_forall in E. specialize (E t Hin).
  apply andb_prop in E as [E1 E2].
  apply Z.leb_le in E1. apply Z.ltb_lt in E2. lia.
Qed.

Lemma forward_rejects_unknown_token_witness :
  exists m : Transformer unit,
    Transformer_new (fun _ => tt) small_args = Ok m /\
    Transformer_forward m (token_row [1; 5; 2]%Z) 0 = (m, Raise IndexError).
Proof.
  destruct (Transformer_new (fun _ : list nat => tt) small_args)
    as [m|e] eqn:En; [|vm_compute in En; discriminate].
  destruct (Transformer_new_wf (fun _ : list nat => tt) small_args 2 2 1
              small_args_valid m En) as (Hemb & _).
  exists m. split; [reflexivity|].
  apply (forward_rejects_unknown_token m (token_row [1; 5; 2]%Z) 0 5 1 3 _ _
           Hemb eq_refl).
  - cbn. auto.
  - cbn. lia.
Defined.

(** *** Positions beyond the rotary table *)

Lemma broadcast_shapes_rows_mismatch (b s h f r : nat) :
  r <> s -> r <> 1 -> s <> 1 ->
  broadcast_shapes [b; s; h; f] [1; r; 1; f] = Raise RuntimeError.
Proof.
  intros H1 H2 H3. unfold broadcast_shapes. cbn [rev app broadcast_rev bind].
  rewrite broadcast_dim_one_r. cbn [bind].
  unfold broadcast_dim at 1.
  destruct (Nat.eqb_spec s r) as [|_]; [congruence|].
  destruct (Nat.eqb_spec s 1) as [|_]; [congruence|].
  destruct (Nat.eqb_spec r 1) as [|_]; [congruence|].
  reflexivity.
Qed.

Section ShortTable.
  Context {T : Type} `{Engine T}.

(** The rotation refuses a table whose number of rows is neither the
      number of positions nor 1. *)
Lemma apply_rotary_emb_rows_mismatch (xq xk : tensor T)
      (freqs : tensor (complex T)) (b s h kv f r : nat) :
    shape xq = [b; s; h; f * 2] -> shape xk = [b; s; kv; f * 2] ->
    shape freqs = [r; f] ->
    0 < b -> 0 < s -> 0 < h -> 0 < kv ->
    r <> s -> r <> 1 -> s <> 1 ->
    apply_rotary_emb xq xk freqs = Raise RuntimeError.
  Proof.
    intros Hsq Hsk Hsf Hb Hs Hh Hkv H1 H2 H3. unfold apply_rotary_emb.
    rewrite (view_pairs_ok xq b s h f), (view_pairs_ok xk b s kv f)
      by assumption.
    cbn [bind].
    rewrite (view_as_complex_ok _ b s h f), (view_as_complex_ok _ b s kv f)
      by reflexivity.
    cbn [bind]. rewrite Hsf.
    rewrite view_ok by (rewrite Hsf; cbn [numel fold_right]; ring).
    cbn [bind]. unfold broadcast_op at 1. cbn [shape tabulate].
    now rewrite broadcast_shapes_rows_mismatch.
  Qed.

Lemma Attention_forward_short_table (att : Attention T) (x : tensor T)
      (freqs : tensor (complex T)) (mask : option (tensor T))
      (B S D F r : nat) :
    Attention_wf att D F ->
    shape x = [B; S; D] -> shape freqs = [r; F] ->
    0 < B -> 0 < S -> r <> S -> r <> 1 -> S <> 1 ->
    Attention_forward att x freqs mask = Raise RuntimeError.
  Proof.
    intros (KV & R & root & HKV & HR & Hh & Hkv & Hrep & Hhd
            & Hq & Hk & Hv & Ho & Hroot) Hsx Hsf HB HS H1 H2 H3.
    unfold Attention_forward. rewrite Hsx.
    rewrite (linear_ok (wq att) x (KV * R * (F * 2)) D [B; S]) by assumption.
    rewrite (linear_ok (wk att) x (KV * (F * 2)) D [B; S]) by assumption.
    rewrite (linear_ok (wv att) x (KV * (F * 2)) D [B; S]) by assumption.
    cbn [bind app]. rewrite Hh, Hkv, Hhd.
    rewrite !view_heads. cbn [bind].
    now rewrite (apply_rotary_emb_rows_mismatch _ _ freqs B S (KV * R) KV F r)
      by (try reflexivity; assumption || nia).
  Qed.

Lemma run_layers_short_table (ls : list (TransformerBlock T)) (x : tensor T)
      (freqs : tensor (complex T)) (mask : option (tensor T))
      (B S D F r : nat) :
    Forall (fun blk => Block_wf blk D F) ls -> ls <> [] ->
    wf x -> shape x = [B; S; D] -> shape freqs = [r; F] ->
    0 < B -> 0 < S -> r <> S -> r <> 1 -> S <> 1 ->
    run_layers ls x freqs mask = Raise RuntimeError.
  Proof.
    intros Hls Hne Hwx Hsx Hsf HB HS H1 H2 H3.
    destruct Hls as [|blk ls (Hatt & _ & Han & _) _]; [contradiction|].
    cbn [run_layers]. unfold TransformerBlock_forward.
    rewrite (RMSNorm_forward_ok (attention_norm blk) x [B; S] D) by assumption.
    cbn [bind app].
    now rewrite (Attention_forward_short_table (attention blk) _ freqs mask
                   B S D F r) by (reflexivity || assumption).
  Qed.

End ShortTable.

(** X10.  A call whose positions run beyond the rotary table fails in
    the first layer: on a model with the shapes of [__init__] and at
    least one layer, for more than one token, [Transformer.forward]
    raises [RuntimeError] when [start_pos + seq_len] is beyond the [n]
    rows of the table, unless exactly one row is left for the slice. *)
Theorem forward_beyond_table_fails
    {T : Type} `{Engine T} (m : Transformer T) (tokens : tensor Z)
    (start_pos B S V D n F : nat) :
  Transformer_wf m V D n F ->
  layers m <> [] ->
  shape tokens = [B; S] -> tokens_in_vocab tokens V ->
  0 < B -> 1 < S ->
  n < start_pos + S ->
  n <> start_pos + 1 ->
  snd (Transformer_forward m tokens (Z.of_nat start_pos)) = Raise RuntimeError.
Proof.
  intros (Hemb & Hls & Hnorm & Hout & Hwt & Hst) Hne Hs Hvocab HB HS
    Hbeyond Hrow.
  rewrite (Transformer_forward_result m tokens _ B S Hs).
  destruct (embedding_ok (tok_embeddings m) tokens V D Hemb Hvocab)
    as (h & Hh & Hwh & Hsh).
  rewrite Hh. cbn [bind]. rewrite Hs in Hsh. cbn [app] in Hsh.
  destruct (slice0_ok (freqs_cis m) n [F] (Z.of_nat start_pos)
              (Z.of_nat start_pos + Z.of_nat S) Hwt Hst)
    as (fr & Hfr & Hsfr & _).
  rewrite Hfr. cbn [bind].
  rewrite !slice_bound_nonneg in Hsfr by lia.
  now rewrite (run_layers_short_table (layers m) h fr (causal_mask S)
                 B S D F _ Hls Hne Hwh Hsh Hsfr) by lia.
Qed.

Lemma forward_beyond_table_fails_witness :
  exists m : Transformer unit,
    Transformer_new (fun _ => tt) small_args = Ok m /\
    snd (Transformer_forward m (token_row [1; 0; 2]%Z) 2) = Raise RuntimeError.
Proof.
  destruct (Transformer_new (fun _ : list nat => tt) small_args)
    as [m|e] eqn:En; [|vm_compute in En; discriminate].
  pose proof (Transformer_new_wf (fun _ : list nat => tt) small_args 2 2 1
                small_args_valid m En) as Hwf.
  assert (Hvocab : tokens_in_vocab (token_row [1; 0; 2]%Z)
                     (Z.to_nat (vocab_size small_args))).
  { unfold tokens_in_vocab. cbn [data token_row].
    repeat constructor; cbn; lia. }
  assert (Hne : layers m <> []).
  { intros E. apply (f_equal (fun r => match r with
                                       | Ok m => length (layers m)
                                       | Raise _ => 0
                                       end)) in En.
    rewrite E in En. vm_compute in En. discriminate. }
  exists m. split; [reflexivity|].
  apply (forward_beyond_table_fails m (token_row [1; 0; 2]%Z) 2 1 3 _ _ _ _
           Hwf Hne eq_refl Hvocab); cbn; lia.
Defined.

(** ** More on construction *)

(** X11.  A configuration without heads is refused only when the model
    is built: with [n_heads = 0] the constructor of [Transformer] raises
    [ZeroDivisionError] whatever the number of layers, and with
    [n_kv_heads = 0] it does so as soon as there is one layer to
    build. *)
Theorem construction_without_heads
    {T : Type} `{Engine T} (rand : list nat -> T) (args : ModelArgs) :
  (0 <= vocab_size args)%Z -> (0 <= dim args)%Z ->
  (n_heads args = 0%Z \/ (n_kv_heads args = 0%Z /\ 0 < n_layers args)%Z) ->
  Transformer_new rand args = Raise ZeroDivisionError.
Proof.
  intros Hv Hd Hzero. unfold Transformer_new, Embedding_new.
  destruct (Z.leb_spec 0 (vocab_size args)) as [_|]; [|lia].
  destruct (Z.leb_spec 0 (dim args)) as [_|]; [|lia].
  cbn [andb guard bind].
  destruct (Z.to_nat (n_layers args)) as [|k] eqn:Ek.
  - destruct Hzero as [Hh | (_ & Hl)]; [|lia].
    cbn [new_layers bind]. unfold RMSNorm_new, Linear_new.
    destruct (Z.leb_spec 0 (vocab_size args)) as [_|]; [|lia].
    destruct (Z.leb_spec 0 (dim args)) as [_|]; [|lia].
    cbn [andb guard bind]. now rewrite Hh.
  - cbn [new_layers]. unfold TransformerBlock_new at 1.
    destruct Hzero as [Hh | (Hkv & _)].
    + now rewrite Hh.
    + unfold py_floordiv at 1.
      destruct (n_heads args =? 0)%Z; [reflexivity|]. cbn [bind].
      unfold Attention_new. now rewrite Hkv.
Qed.

Lemma construction_without_heads_witness :
  Transformer_new (fun _ : list nat => tt)
    {| dim := 8; n_layers := 2; n_heads := 0; n_kv_heads := 2;
       vocab_size := 5; multiple_of := 4; ffn_dim_multiplier := four_thirds;
       norm_eps := norm_eps_default; max_batch_size := 1; max_seq_len := 2;
       intermediate_size := 24 |} = Raise ZeroDivisionError.
Proof.
  apply construction_without_heads; cbn; (lia || auto).
Defined.

(** *** The number of parameters *)

Lemma new_layers_length {T : Type} `{Engine T} (rand : list nat -> T)
    (args : ModelArgs) (n : nat) (layer_id : Z) (ls : list (TransformerBlock T)) :
  new_layers rand args layer_id n = Ok ls -> length ls = n.
Proof.
  revert layer_id ls. induction n as [|n IH]; intros layer_id ls Hl;
    cbn [new_layers] in Hl.
  - apply Ok_inj in Hl. now subst ls.
  - inv_bind Hl. inv_bind Hl. apply Ok_inj in Hl. subst ls.
    cbn [length]. f_equal. now apply (IH (layer_id + 1)%Z).
Qed.

Section ParameterCount.
  Context {T : Type} `{Engine T}.
  Variable rand : list nat -> T.
  Variable args : ModelArgs.
  Variables KV R F : nat.
  Hypothesis Hvalid : valid_args args KV R F.
  Variable hidden : Z.
  Hypothesis Hhidden :
    FeedForward_hidden_dim (intermediate_size args) (multiple_of args)
      = Ok hidden.

Lemma TransformerBlock_new_params (layer_id : Z) (blk : TransformerBlock T) :
    TransformerBlock_new rand layer_id args = Ok blk ->
    list_sum (map (fun p => numel (shape p)) (TransformerBlock_parameters blk))
      = block_params KV R F hidden.
  Proof.
    intros Hb. pose proof (head_dim_valid args KV R F Hvalid) as Hhd.
    destruct Hvalid as (HKV & HR & Hkv & Hh & Hd & _ & _).
    unfold TransformerBlock_new in Hb.
    inv_bind Hb. clear E x.
    inv_bind Hb. rename x into att, E into Ea.
    inv_bind Hb. rename x into ff, E into Ef.
    inv_bind Hb. rename x into an, E into Ean.
    inv_bind Hb. rename x into fn, E into Efn.
    apply Ok_inj in Hb. subst blk.
    unfold Attention_new in Ea. rewrite Hhd in Ea.
    unfold py_floordiv in Ea. rewrite Hh, Hkv, Hd in Ea.
    destruct (Z.eqb_spec (Z.of_nat KV) 0) as [|_]; [lia|].
    cbn [bind] in Ea. rewrite <- !Nat2Z.inj_mul in Ea.
    inv_bind Ea. rename x into q, E into Eq.
    inv_bind Ea. rename x into k, E into Ek.
    inv_bind Ea. rename x into v, E into Ev.
    inv_bind Ea. rename x into o, E into Eo.
    apply Ok_inj in Ea. subst att.
    apply Linear_new_shape in Eq, Ek, Ev, Eo.
    unfold FeedForward_new in Ef. rewrite Hhidden, Hd in Ef.
    cbn [bind] in Ef.
    inv_bind Ef. rename x into a, E into E1.
    pose proof (Linear_new_inv _ _ _ _ E1) as (_ & Hpos & _).
    rewrite <- (Z2Nat.id hidden Hpos) in E1, Ef.
    inv_bind Ef. rename x into b, E into E2.
    inv_bind Ef. rename x into c, E into E3.
    apply Ok_inj in Ef. subst ff.
    apply Linear_new_shape in E1, E2, E3.
    pose proof (RMSNorm_new_shape args KV R F Hvalid _ _ Ean) as Esa.
    pose proof (RMSNorm_new_shape args KV R F Hvalid _ _ Efn) as Esf.
    unfold TransformerBlock_parameters, Attention_parameters,
      FeedForward_parameters, RMSNorm_parameters.
    cbn [attention feed_forward attention_norm ffn_norm wq wk wv wo w1 w2 w3
         app map list_sum fold_right].
    rewrite Eq, Ek, Ev, Eo, E1, E2, E3, Esa, Esf.
    unfold block_params. cbn [numel fold_right]. ring.
  Qed.

Lemma layers_params (n : nat) (layer_id : Z) (ls : list (TransformerBlock T)) :
    new_layers rand args layer_id n = Ok ls ->
    list_sum (map (fun p => numel (shape p))
                (flat_map TransformerBlock_parameters ls))
      = n * block_params KV R F hidden.
  Proof.
    revert layer_id ls. induction n as [|n IH]; intros layer_id ls Hl;
      cbn [new_layers] in Hl.
    - apply Ok_inj in Hl. now subst ls.
    - inv_bind Hl. rename x into blk, E into Eb.
      inv_bind Hl. rename x into rest, E into Er.
      apply Ok_inj in Hl. subst ls.
      cbn [flat_map]. rewrite map_app, list_sum_app.
      rewrite (TransformerBlock_new_params _ _ Eb), (IH _ _ Er). lia.
  Qed.

End ParameterCount.

(** X12.  The number that [main] prints as the total of the parameters:
    for a model built from a configuration with [n_heads = n_kv_heads * R],
    [dim = n_heads * 2 F] and feed-forward width [hidden], it is twice
    [vocab_size * dim] (the embedding and the output projection), [dim]
    (the last norm), and for every layer [2 dim^2] (the query and output
    projections), [2 * n_kv_heads * head_dim * dim] (keys and values),
    [3 * hidden * dim] and [2 dim].  The rotary table is not counted. *)
Theorem total_params_formula
    {T : Type} `{Engine T} (rand : list nat -> T) (args : ModelArgs)
    (KV R F : nat) (hidden : Z) (m : Transformer T) :
  valid_args args KV R F ->
  FeedForward_hidden_dim (intermediate_size args) (multiple_of args)
    = Ok hidden ->
  Transformer_new rand args = Ok m ->
  let D := KV * R * (F * 2) in
  let V := Z.to_nat (vocab_size args) in
  total_params m =
    2 * (V * D) + D +
    Z.to_nat (n_layers args) *
      (2 * (D * D) + 2 * (KV * (F * 2) * D) + 3 * (Z.to_nat hidden * D) + 2 * D).
Proof.
  intros Hvalid Hhidden Hm D V.
  destruct (Transformer_new_wf rand args KV R F Hvalid m Hm)
    as (Hemb & _ & Hnorm & Hout & _).
  unfold Transformer_new in Hm.
  inv_bind Hm. inv_bind Hm. rename x0 into ls, E0 into El.
  inv_bind Hm. inv_bind Hm. inv_bind Hm. inv_bind Hm.
  apply Ok_inj in Hm. subst m.
  cbn [tok_embeddings layers norm output] in *.
  unfold total_params, Transformer_parameters, RMSNorm_parameters.
  cbn [tok_embeddings layers norm output].
  rewrite !map_app, !list_sum_app.
  rewrite (layers_params rand args KV R F Hvalid hidden Hhidden _ _ _ El).
  cbn [map list_sum fold_right]. rewrite Hemb, Hnorm, Hout.
  unfold block_params. fold D. fold V. cbn [numel fold_right]. ring.
Qed.

Lemma total_params_formula_witness :
  exists m : Transformer unit,
    Transformer_new (fun _ => tt) small_args = Ok m /\
    total_params m = 2 * (5 * 8) + 8 + 2 * (2 * (8 * 8) + 2 * (4 * 8) + 3 * (16 * 8) + 2 * 8).
Proof.
  destruct (Transformer_new (fun _ : list nat => tt) small_args)
    as [m|e] eqn:En; [|vm_compute in En; discriminate].
  exists m. split; [reflexivity|].
  exact (total_params_formula (fun _ : list nat => tt) small_args 2 2 1 16 m
           small_args_valid eq_refl En).
Defined.

(** ** More on the rotary encoding *)

(** X13.  The rotation needs an even [head_dim]: on queries whose last
    axis has an odd size [apply_rotary_emb] raises [RuntimeError], at the
    reshape into pairs. *)
Theorem apply_rotary_emb_odd_head_dim
    {T : Type} `{Arith T} (xq xk : tensor T) (freqs : tensor (complex T))
    (b s h d : nat) :
  shape xq = [b; s; h; d] ->
  Nat.odd d = true ->
  apply_rotary_emb xq xk freqs = Raise RuntimeError.
Proof.
  intros Hs Hodd. unfold apply_rotary_emb.
  assert (E : view_z (tmap float_ xq) (pair_sizes xq) = Raise RuntimeError);
    [|now rewrite E].
  unfold pair_sizes, view_z. rewrite Hs.
  cbn [removelast map app existsb].
  rewrite !of_nat_not_refused. cbn [Z.ltb Z.compare orb].
  change (-1 <? -1)%Z with false. cbn [orb].
  unfold count_inferred. cbn [filter]. rewrite !of_nat_not_inferred.
  cbn [Z.eqb Pos.eqb length].
  unfold known_product. cbn [filter]. rewrite !of_nat_not_inferred.
  cbn [Z.eqb Pos.eqb negb map]. rewrite !Nat2Z.id.
  cbn [shape tmap]. rewrite Hs. change (Z.to_nat 2) with 2.
  unfold infer_dim.
  destruct (Nat.eqb_spec (numel [b; s; h; 2]) 0) as [|Hne]; [reflexivity|].
  replace (numel [b; s; h; d]) with (b * s * h * d)
    by (cbn [numel fold_right]; ring).
  replace (numel [b; s; h; 2]) with (b * s * h * 2) in *
    by (cbn [numel fold_right]; ring).
  rewrite Nat.Div0.mul_mod_distr_l.
  assert (Hd : d mod 2 = 1).
  { rewrite <- Nat.bit0_mod, Nat.bit0_odd, Hodd. reflexivity. }
  rewrite Hd.
  destruct (Nat.eqb_spec (b * s * h * 1) 0) as [|_]; [lia | reflexivity].
Qed.

Lemma apply_rotary_emb_odd_head_dim_witness :
  apply_rotary_emb (T := unit)
    (full [1; 2; 2; 3] tt) (full [1; 2; 2; 3] tt) (full [2; 2] (tt, tt))
    = Raise RuntimeError.
Proof.
  exact (apply_rotary_emb_odd_head_dim (full [1; 2; 2; 3] tt)
           (full [1; 2; 2; 3] tt) (full [2; 2] (tt, tt)) 1 2 2 3
           eq_refl eq_refl).
Defined.

(** *** Exact arithmetic *)

Lemma Rsum_app (l1 l2 : list R) : Rsum (l1 ++ l2) = (Rsum l1 + Rsum l2)%R.
Proof.
  unfold Rsum. induction l1 as [|a l1 IH]; cbn [app fold_right]; [lra|].
  rewrite IH. lra.
Qed.

Lemma Rsum_pairs (g : nat -> R) (f : nat) :
  Rsum (map g (seq 0 (f * 2))) =
  Rsum (map (fun p => (g (2 * p)%nat + g (2 * p + 1)%nat)%R) (seq 0 f)).
Proof.
  induction f as [|f IH]; [reflexivity|].
  replace (S f * 2) with (S (S (f * 2))) by lia.
  rewrite !seq_S, !map_app, !Rsum_app, IH.
  cbn [Nat.add map Rsum fold_right].
  replace (2 * f) with (f * 2) by lia.
  replace (f * 2 + 1) with (S (f * 2)) by lia. lra.
Qed.

Lemma rotary_entry_even (x : tensor R) (freqs : tensor (complex R))
    (i j k p : nat) :
  rotary_entry x freqs [i; j; k; 2 * p] =
  fst (cmul (get x [i; j; k; 2 * p], get x [i; j; k; 2 * p + 1])
            (get freqs [j; p])).
Proof. now rewrite <- rotary_entry_pair. Qed.

Lemma rotary_entry_odd (x : tensor R) (freqs : tensor (complex R))
    (i j k p : nat) :
  rotary_entry x freqs [i; j; k; 2 * p + 1] =
  snd (cmul (get x [i; j; k; 2 * p], get x [i; j; k; 2 * p + 1])
            (get freqs [j; p])).
Proof. now rewrite <- rotary_entry_pair. Qed.

(** The inner product of two rotated pairs sees only the difference of
    the two angles. *)
Lemma rotated_pairs_dot (x1 x2 y1 y2 a b : R) :
  (fst (cmul (x1, x2) (Rtrigo_def.cos a, Rtrigo_def.sin a)) *
   fst (cmul (y1, y2) (Rtrigo_def.cos b, Rtrigo_def.sin b)) +
   snd (cmul (x1, x2) (Rtrigo_def.cos a, Rtrigo_def.sin a)) *
   snd (cmul (y1, y2) (Rtrigo_def.cos b, Rtrigo_def.sin b)))%R =
  ((x1 * y1 + x2 * y2) * Rtrigo_def.cos (a - b) +
   (x1 * y2 - x2 * y1) * Rtrigo_def.sin (a - b))%R.
Proof.
  rewrite cos_minus, sin_minus. unfold cmul.
  cbn [fst snd mul add sub real_arith]. ring.
Qed.

Lemma rotary_phase_difference (theta : R) (hd sp j j' i : nat) :
  (rotary_phase theta hd (sp + j) i - rotary_phase theta hd (sp + j') i)%R =
  (rotary_phase theta hd j i - rotary_phase theta hd j' i)%R.
Proof. unfold rotary_phase. rewrite !plus_INR. ring. Qed.

Section RotatedScores.
  Variables xq xk : tensor R.
  Variables b s h kv f end_ : nat.
  Variable theta : R.
  Variable table : tensor (complex R).
  Hypothesis Htable :
    forall p i, p < end_ -> i < f ->
      get table [p; i] =
        (Rtrigo_def.cos (rotary_phase theta (f * 2) p i),
         Rtrigo_def.sin (rotary_phase theta (f * 2) p i)).

(** The score of a query and a key that were rotated with the rows of
      the table from [sp] on. *)
Lemma rotated_score (freqs : tensor (complex R)) (sp i jq jk hq hk : nat) :
    (forall p idx, p < s -> in_range idx [f] ->
        get freqs (p :: idx) = get table ((sp + p) :: idx)) ->
    sp + s <= end_ ->
    i < b -> jq < s -> jk < s -> hq < h -> hk < kv ->
    head_dot (tabulate [b; s; h; f * 2] (rotary_entry xq freqs))
             (tabulate [b; s; kv; f * 2] (rotary_entry xk freqs))
             [i; jq; hq] [i; jk; hk] (f * 2) =
    Rsum (map (fun p =>
                 let q0 := get xq [i; jq; hq; 2 * p] in
                 let q1 := get xq [i; jq; hq; 2 * p + 1] in
                 let k0 := get xk [i; jk; hk; 2 * p] in
                 let k1 := get xk [i; jk; hk; 2 * p + 1] in
                 let angle := (rotary_phase theta (f * 2) jq p -
                               rotary_phase theta (f * 2) jk p)%R in
                 ((q0 * k0 + q1 * k1) * Rtrigo_def.cos angle +
                  (q0 * k1 - q1 * k0) * Rtrigo_def.sin angle)%R)
              (seq 0 f)).
  Proof.
    intros Hgf Hle Hi Hjq Hjk Hhq Hhk. unfold head_dot.
    rewrite Rsum_pairs. f_equal. apply map_ext_in.
    intros p Hp. apply in_seq in Hp. cbn [app].
    rewrite !get_tabulate by (simpl; lia).
    rewrite !rotary_entry_even, !rotary_entry_odd.
    rewrite !Hgf by (simpl; lia).
    rewrite !Htable by lia.
    rewrite rotated_pairs_dot, rotary_phase_difference. cbv zeta. reflexivity.
  Qed.

End RotatedScores.

(** X14.  In exact arithmetic the scores do not depend on [start_pos]:
    for an even [head_dim = 2 f], rotating queries and keys with the rows
    of the precomputed table from [start_pos] on or from [start_pos'] on
    gives, for every query position and key position, the same inner
    product of the rotated query and the rotated key. *)
Theorem rotary_scores_ignore_start_pos
    (xq xk : tensor R) (b s h kv f end_ start_pos start_pos' : nat)
    (theta : R) :
  wf xq -> shape xq = [b; s; h; f * 2] ->
  wf xk -> shape xk = [b; s; kv; f * 2] ->
  0 < b -> 0 < s -> 0 < h -> 0 < kv ->
  start_pos + s <= end_ -> start_pos' + s <= end_ ->
  exists (table freqs freqs' : tensor (complex R)) (oq ok oq' ok' : tensor R),
    precompute_freqs_cis (Z.of_nat (f * 2)) (Z.of_nat end_) theta = Ok table /\
    slice0 table (Z.of_nat start_pos) (Z.of_nat start_pos + Z.of_nat s)
      = Ok freqs /\
    slice0 table (Z.of_nat start_pos') (Z.of_nat start_pos' + Z.of_nat s)
      = Ok freqs' /\
    apply_rotary_emb xq xk freqs = Ok (oq, ok) /\
    apply_rotary_emb xq xk freqs' = Ok (oq', ok') /\
    forall i jq jk hq hk,
      i < b -> jq < s -> jk < s -> hq < h -> hk < kv ->
      head_dot oq ok [i; jq; hq] [i; jk; hk] (f * 2) =
      head_dot oq' ok' [i; jq; hq] [i; jk; hk] (f * 2).
Proof.
  intros Hwq Hsq Hwk Hsk Hb Hs Hh Hkv Hle Hle'.
  destruct (freqs_table_entry f end_ theta) as (table & Ht & Hst & Hwt & Hte).
  destruct (slice0_in_range table end_ [f] start_pos s Hwt Hst Hle)
    as (freqs & Hfr & Hsf & Hwf & Hgf).
  destruct (slice0_in_range table end_ [f] start_pos' s Hwt Hst Hle')
    as (freqs' & Hfr' & Hsf' & Hwf' & Hgf').
  exists table, freqs, freqs'.
  rewrite (apply_rotary_emb_ok xq xk freqs b s h kv f) by assumption.
  rewrite (apply_rotary_emb_ok xq xk freqs' b s h kv f) by assumption.
  do 4 eexists.
  split; [exact Ht|]. split; [exact Hfr|]. split; [exact Hfr'|].
  split; [reflexivity|]. split; [reflexivity|].
  intros i jq jk hq hk Hi Hjq Hjk Hhq Hhk.
  assert (Htable : forall p c, p < end_ -> c < f ->
            get table [p; c] =
              (Rtrigo_def.cos (rotary_phase theta (f * 2) p c),
               Rtrigo_def.sin (rotary_phase theta (f * 2) p c)))
    by (intros p c Hp Hc; now apply Hte).
  rewrite (rotated_score xq xk b s h kv f end_ theta table Htable
             freqs start_pos) by assumption.
  rewrite (rotated_score xq xk b s h kv f end_ theta table Htable
             freqs' start_pos') by assumption.
  reflexivity.
Qed.

Lemma rotary_scores_ignore_start_pos_witness :
  let xq : tensor R := {| shape := [1; 2; 1; 2]; data := [3; 4; 1; 2]%R |} in
  let xk : tensor R := {| shape := [1; 2; 1; 2]; data := [1; 0; 5; 6]%R |} in
  exists (freqs freqs' : tensor (complex R)) (oq ok oq' ok' : tensor R),
    apply_rotary_emb xq xk freqs = Ok (oq, ok) /\
    apply_rotary_emb xq xk freqs' = Ok (oq', ok') /\
    head_dot oq ok [0; 1; 0] [0; 0; 0] 2 =
    head_dot oq' ok' [0; 1; 0] [0; 0; 0] 2.
Proof.
  intros xq xk.
  destruct (rotary_scores_ignore_start_pos xq xk 1 2 1 1 1 8 0 5 10000%R
              eq_refl eq_refl eq_refl eq_refl
              ltac:(lia) ltac:(lia) ltac:(lia) ltac:(lia)
              ltac:(lia) ltac:(lia))
    as (table & freqs & freqs' & oq & ok & oq' & ok' & _ & _ & _
        & Hr & Hr' & Hdot).
  exists freqs, freqs', oq, ok, oq', ok'.
  split; [assumption|]. split; [assumption|].
  apply Hdot; lia.
Defined.

(** X15.  In exact arithmetic the first row of the precomputed table is
    all ones, so that with [start_pos = 0] the rotation leaves the
    queries and keys of position 0 as they are. *)
Theorem rotary_position_zero_unchanged
    (xq xk : tensor R) (b s h kv f end_ : nat) (theta : R) :
  wf xq -> shape xq = [b; s; h; f * 2] ->
  wf xk -> shape xk = [b; s; kv; f * 2] ->
  0 < b -> 0 < s -> 0 < h -> 0 < kv ->
  s <= end_ ->
  exists (table freqs : tensor (complex R)) (oq ok : tensor R),
    precompute_freqs_cis (Z.of_nat (f * 2)) (Z.of_nat end_) theta = Ok table /\
    (forall i, i < f -> get table [0; i] = (1%R, 0%R)) /\
    slice0 table 0 (Z.of_nat s) = Ok freqs /\
    apply_rotary_emb xq xk freqs = Ok (oq, ok) /\
    (forall i k d, i < b -> k < h -> d < f * 2 ->
        get oq [i; 0; k; d] = get xq [i; 0; k; d]) /\
    (forall i k d, i < b -> k < kv -> d < f * 2 ->
        get ok [i; 0; k; d] = get xk [i; 0; k; d]).
Proof.
  intros Hwq Hsq Hwk Hsk Hb Hs Hh Hkv Hle.
  destruct (freqs_table_entry f end_ theta) as (table & Ht & Hst & Hwt & Hte).
  destruct (slice0_in_range table end_ [f] 0 s Hwt Hst Hle)
    as (freqs & Hfr & Hsf & Hwf & Hgf).
  exists table, freqs.
  rewrite (apply_rotary_emb_ok xq xk freqs b s h kv f) by assumption.
  do 2 eexists.
  assert (Hrow : forall i, i < f -> get table [0; i] = (1%R, 0%R)).
  { intros i Hi. destruct (Hte 0 i ltac:(lia) Hi) as (E & _).
    rewrite E. unfold rotary_phase. cbn [INR].
    rewrite Rmult_0_l, cos_0, sin_0. reflexivity. }
  assert (Hunit : forall i, i < f -> get freqs [0; i] = (1%R, 0%R)).
  { intros i Hi. rewrite Hgf by (simpl; lia). now apply Hrow. }
  assert (Hentry : forall (x : tensor R) i k d, d < f * 2 ->
            rotary_entry x freqs [i; 0; k; d] = get x [i; 0; k; d]).
  { intros x i k d Hd. unfold rotary_entry.
    assert (Hp : d / 2 < f) by (apply Nat.Div0.div_lt_upper_bound; lia).
    rewrite (Hunit _ Hp). unfold cmul.
    cbn [fst snd mul add sub type_as float_ real_arith].
    pose proof (Nat.div_mod_eq d 2) as Hdm.
    pose proof (Nat.mod_upper_bound d 2 ltac:(lia)) as Hm.
    destruct (Nat.eqb_spec (d mod 2) 0) as [E0|E1].
    - replace (2 * (d / 2)) with d by lia. ring.
    - replace (2 * (d / 2) + 1) with d by lia. ring. }
  split; [exact Ht|]. split; [exact Hrow|].
  split; [exact Hfr|]. split; [reflexivity|].
  split; intros i k d Hi Hk Hd;
    (rewrite get_tabulate by (simpl; lia)); now apply Hentry.
Qed.

Lemma rotary_position_zero_unchanged_witness :
  let xq : tensor R := {| shape := [1; 1; 1; 2]; data := [3; 4]%R |} in
  let xk : tensor R := {| shape := [1; 1; 1; 2]; data := [1; 0]%R |} in
  exists (freqs : tensor (complex R)) (oq ok : tensor R),
    apply_rotary_emb xq xk freqs = Ok (oq, ok) /\
    get oq [0; 0; 0; 1] = 4%R.
Proof.
  intros xq xk.
  destruct (rotary_position_zero_unchanged xq xk 1 1 1 1 1 2 10000%R
              eq_refl eq_refl eq_refl eq_refl
              ltac:(lia) ltac:(lia) ltac:(lia) ltac:(lia) ltac:(lia))
    as (table & freqs & oq & ok & _ & _ & _ & Hr & Hq & _).
  exists freqs, oq, ok. split; [assumption|].
  rewrite Hq by lia. reflexivity.
Defined.

(** ** More on the layers *)

(** *** The feed-forward network, entry by entry *)

Lemma FeedForward_forward_rows
    {T : Type} `{Engine T} (ff : FeedForward T) (x : tensor T)
    (B S D hidden : nat) :
  shape (w1 ff) = [hidden; D] ->
  shape (w2 ff) = [D; hidden] ->
  shape (w3 ff) = [hidden; D] ->
  shape x = [B; S; D] ->
  exists y : tensor T,
    FeedForward_forward ff x = Ok y /\
    wf y /\ shape y = [B; S; D] /\
    forall i j k, i < B -> j < S -> k < D ->
      get y [i; j; k] =
        dot (map (fun c =>
                    mul (silu (dot (row x [i; j]) (row (w1 ff) [c])))
                        (dot (row x [i; j]) (row (w3 ff) [c])))
                 (seq 0 hidden))
            (row (w2 ff) [k]).
Proof.
  intros H1 H2 H3 Hx. unfold FeedForward_forward.
  rewrite (linear_ok (w1 ff) x hidden D [B; S]) by assumption.
  rewrite (linear_ok (w3 ff) x hidden D [B; S]) by assumption.
  cbn [bind app].
  rewrite (broadcast_op_ok mul _ _ [B; S; hidden])
    by apply broadcast_shapes_same.
  cbn [bind].
  rewrite (linear_ok (w2 ff) _ D hidden [B; S]) by (assumption || reflexivity).
  eexists.
  split; [reflexivity|]. split; [apply wf_tabulate|]. split; [reflexivity|].
  intros i j k Hi Hj Hk. cbn [app shape tmap tabulate].
  rewrite get_tabulate by (simpl; lia).
  cbn [removelast last]. f_equal.
  unfold row at 1. cbn [shape tabulate last app].
  apply map_ext_in. intros c Hc. apply in_seq in Hc.
  rewrite get_tabulate by (simpl; lia).
  rewrite !bidx_in_range by (simpl; lia).
  rewrite get_tmap by (apply wf_tabulate || (simpl; lia)).
  rewrite !get_tabulate by (simpl; lia).
  reflexivity.
Qed.

(** X16.  [FeedForward.forward] is the gated unit of its comment,
    position by position: on an input [B, S, dim] the output at [i, j, k]
    is the inner product of row [k] of [w2] with the vector whose entry
    [c] is [silu(x_ij . w1_c) * (x_ij . w3_c)], [x_ij] being the input
    row of that position alone. *)
Theorem feed_forward_gated_rows
    {T : Type} `{Engine T} (ff : FeedForward T) (x : tensor T)
    (B S D : nat) :
  FeedForward_wf ff D ->
  shape x = [B; S; D] ->
  exists (y : tensor T) (hidden : nat),
    FeedForward_forward ff x = Ok y /\
    shape y = [B; S; D] /\
    shape (w1 ff) = [hidden; D] /\
    forall i j k, i < B -> j < S -> k < D ->
      get y [i; j; k] =
        dot (map (fun c =>
                    mul (silu (dot (row x [i; j]) (row (w1 ff) [c])))
                        (dot (row x [i; j]) (row (w3 ff) [c])))
                 (seq 0 hidden))
            (row (w2 ff) [k]).
Proof.
  intros (hidden & H1 & H2 & H3) Hx.
  destruct (FeedForward_forward_rows ff x B S D hidden H1 H2 H3 Hx)
    as (y & Hy & _ & Hs & Hrows).
  exists y, hidden.
  split; [exact Hy|]. split; [exact Hs|]. split; [exact H1|].
  exact Hrows.
Qed.

Lemma feed_forward_gated_rows_witness :
  let ff : FeedForward unit :=
    {| w1 := full [3; 2] tt; w2 := full [2; 3] tt; w3 := full [3; 2] tt |} in
  exists (y : tensor unit) (hidden : nat),
    FeedForward_forward ff (full [1; 2; 2] tt) = Ok y /\
    shape y = [1; 2; 2] /\ hidden = 3.
Proof.
  intros ff.
  assert (Hwf : FeedForward_wf ff 2) by (exists 3; repeat split).
  destruct (feed_forward_gated_rows ff (full [1; 2; 2] tt) 1 2 2 Hwf eq_refl)
    as (y & hidden & Hy & Hs & Hh & _).
  exists y, hidden. repeat split; try assumption.
  cbn in Hh. now injection Hh as <-.
Defined.

(** *** The norm at initialisation, in exact arithmetic *)

Lemma Rsum_squares_scaled (r : R) (l : list R) :
  Rsum (map (fun v => v * v)%R (map (fun v => v * r)%R l)) =
  (r * r * Rsum (map (fun v => v * v)%R l))%R.
Proof.
  unfold Rsum. induction l as [|a l IH]; cbn [map fold_right]; [ring|].
  rewrite IH. ring.
Qed.

Lemma Rsum_squares_nonneg (l : list R) :
  (0 <= Rsum (map (fun v => v * v)%R l))%R.
Proof.
  unfold Rsum. induction l as [|a l IH]; cbn [map fold_right]; [lra|].
  pose proof (Rle_0_sqr a) as Ha. unfold Rsqr in Ha. lra.
Qed.

Lemma mean_of_squares_nonneg (l : list R) : (0 <= mean_of_squares l)%R.
Proof.
  unfold mean_of_squares. destruct l as [|a l].
  - cbn. unfold Rdiv. rewrite Rmult_0_l. lra.
  - apply Rmult_le_pos; [apply Rsum_squares_nonneg|].
    apply Rlt_le, Rinv_0_lt_compat, lt_0_INR. cbn [length]. lia.
Qed.

(** X17.  In exact arithmetic, a norm as [__init__] builds it (scale
    all ones) with a positive [eps] returns rows whose mean square is
    [ms / (ms + eps)], [ms] being the mean square of the input row: it
    is below 1 whatever the input. *)
Theorem rmsnorm_initial_mean_square
    (self : RMSNorm R) (x : tensor R) (lead : list nat) (d : nat) :
  wf x ->
  shape x = lead ++ [d] ->
  weight self = full [d] 1%R ->
  (0 < eps self)%R ->
  exists y : tensor R,
    RMSNorm_forward self x = Ok y /\
    forall il : list nat,
      in_range il lead ->
      mean_of_squares (row y il) =
        (mean_of_squares (row x il) / (mean_of_squares (row x il) + eps self))%R /\
      (mean_of_squares (row y il) < 1)%R.
Proof.
  intros Hwf Hs Hw Heps.
  rewrite (RMSNorm_forward_ok self x lead d Hwf Hs)
    by (rewrite Hw; reflexivity).
  eexists. split; [reflexivity|].
  intros il Hil.
  set (ms := mean_of_squares (row x il)).
  assert (Hms : (0 <= ms)%R) by apply mean_of_squares_nonneg.
  set (r := (/ sqrt (ms + eps self))%R).
  assert (Hrow : row (tabulate (lead ++ [d]) (rms_entry self x)) il =
                 map (fun v => v * r)%R (row x il)).
  { unfold row. cbn [shape tabulate]. rewrite Hs, last_unit, map_map.
    apply map_ext_in. intros k Hk. apply in_seq in Hk.
    rewrite get_tabulate by (apply in_range_app; [assumption | simpl; lia]).
    unfold rms_entry. rewrite removelast_unit, last_unit, Hw.
    unfold full. rewrite get_tabulate by (simpl; lia).
    cbn [mul type_as float_ rsqrt add mean powi real_arith].
    rewrite length_map.
    rewrite (Rsum_map_ext (fun v => powerRZ v 2) (fun v => v * v)%R)
      by (intros v; simpl; ring).
    fold (mean_of_squares (row x il)). fold ms. fold r.
    ring. }
  rewrite Hrow.
  assert (Hsq : (r * r = / (ms + eps self))%R).
  { unfold r. rewrite <- Rinv_mult, sqrt_sqrt by lra. reflexivity. }
  assert (E : mean_of_squares (map (fun v => v * r)%R (row x il)) =
              (ms / (ms + eps self))%R).
  { unfold mean_of_squares at 1. rewrite Rsum_squares_scaled, length_map, Hsq.
    unfold ms, mean_of_squares. unfold Rdiv. ring. }
  rewrite E. split; [reflexivity|].
  apply (Rmult_lt_reg_r (ms + eps self)); [lra|].
  unfold Rdiv. rewrite Rmult_assoc, Rinv_l by lra. lra.
Qed.

Lemma rmsnorm_initial_mean_square_witness :
  let x : tensor R := {| shape := [2]; data := [3; 4]%R |} in
  let self : RMSNorm R := {| eps := 1%R; weight := full [2] 1%R |} in
  exists y : tensor R,
    RMSNorm_forward self x = Ok y /\
    (mean_of_squares (row y []) < 1)%R.
Proof.
  intros x self.
  destruct (rmsnorm_initial_mean_square self x [] 2 eq_refl eq_refl eq_refl
              ltac:(cbn; lra)) as (y & Hy & Hrow).
  exists y. split; [assumption|].
  exact (proj2 (Hrow [] I)).
Defined.

(** ** Construction succeeds on a valid configuration *)

Section ConstructionTotal.
  Context {T : Type} `{Engine T}.
  Variable rand : list nat -> T.
  Variable args : ModelArgs.
  Variables KV R F : nat.
  Hypothesis Hvalid : valid_args args KV R F.
  Variable hidden : Z.
  Hypothesis Hhidden :
    FeedForward_hidden_dim (intermediate_size args) (multiple_of args)
      = Ok hidden.
  Hypothesis Hpos : (0 <= hidden)%Z.

Lemma Linear_new_total (i o : Z) :
    (0 <= i)%Z -> (0 <= o)%Z ->
    Linear_new rand i o = Ok (tabulate [Z.to_nat o; Z.to_nat i] rand).
  Proof.
    intros Hi Ho. unfold Linear_new.
    destruct (Z.leb_spec 0 i) as [_|]; [|lia].
    destruct (Z.leb_spec 0 o) as [_|]; [|lia].
    reflexivity.
  Qed.

Lemma TransformerBlock_new_total (layer_id : Z) :
    exists blk : TransformerBlock T,
      TransformerBlock_new rand layer_id args = Ok blk.
  Proof.
    pose proof (head_dim_valid args KV R F Hvalid) as Hhd.
    destruct Hvalid as (HKV & HR & Hkv & Hh & Hd & _ & _).
    unfold TransformerBlock_new, Attention_new. rewrite Hhd. cbn [bind].
    unfold py_floordiv. rewrite Hh, Hkv, Hd.
    destruct (Z.eqb_spec (Z.of_nat KV) 0) as [|_]; [lia|].
    cbn [bind]. rewrite !Linear_new_total by lia. cbn [bind].
    unfold FeedForward_new. rewrite Hhidden. cbn [bind].
    rewrite !Linear_new_total by lia. cbn [bind].
    unfold RMSNorm_new.
    destruct (Z.leb_spec 0 (Z.of_nat (KV * R * (F * 2)))) as [_|]; [|lia].
    cbn [guard bind]. eexists. reflexivity.
  Qed.

Lemma new_layers_total (n : nat) :
    forall layer_id : Z,
    exists ls : list (TransformerBlock T),
      new_layers rand args layer_id n = Ok ls.
  Proof.
    induction n as [|n IH]; intros layer_id; cbn [new_layers].
    - eexists. reflexivity.
    - destruct (TransformerBlock_new_total layer_id) as (blk & ->).
      destruct (IH (layer_id + 1)%Z) as (ls & ->).
      cbn [bind]. eexists. reflexivity.
  Qed.

Lemma Transformer_new_succeeds :
    (0 <= max_seq_len args)%Z ->
    exists m : Transformer T, Transformer_new rand args = Ok m.
  Proof.
    intros Hmax.
    pose proof (head_dim_valid args KV R F Hvalid) as Hhd.
    destruct Hvalid as (HKV & HR & Hkv & Hh & Hd & Hv & _).
    unfold Transformer_new, Embedding_new, RMSNorm_new.
    destruct (Z.leb_spec 0 (vocab_size args)) as [_|]; [|lia].
    destruct (Z.leb_spec 0 (dim args)) as [_|]; [|lia].
    cbn [andb guard bind].
    destruct (new_layers_total (Z.to_nat (n_layers args)) 0) as (ls & ->).
    cbn [bind]. rewrite Linear_new_total by lia. cbn [bind].
    rewrite Hhd. cbn [bind].
    rewrite precompute_freqs_cis_ok by lia. cbn [bind].
    eexists. reflexivity.
  Qed.

End ConstructionTotal.

(** X18.  The constructor of [Transformer] returns a model for every
    configuration with [n_heads = n_kv_heads * R], [dim = n_heads * 2 F],
    a vocabulary size and a [max_seq_len] that are not negative, and a
    feed-forward width that computes to a number that is not negative:
    the model has [n_layers] layers (none for a negative [n_layers]),
    weights of the shapes that the forward pass needs, and a rotary table
    of [2 * max_seq_len] rows. *)
Theorem Transformer_new_total
    {T : Type} `{Engine T} (rand : list nat -> T) (args : ModelArgs)
    (KV R F : nat) (hidden : Z) :
  valid_args args KV R F ->
  FeedForward_hidden_dim (intermediate_size args) (multiple_of args)
    = Ok hidden ->
  (0 <= hidden)%Z ->
  (0 <= max_seq_len args)%Z ->
  exists m : Transformer T,
    Transformer_new rand args = Ok m /\
    length (layers m) = Z.to_nat (n_layers args) /\
    Transformer_wf m (Z.to_nat (vocab_size args)) (KV * R * (F * 2))
      (Z.to_nat (max_seq_len args * 2)) F.
Proof.
  intros Hvalid Hhidden Hpos Hmax.
  destruct (Transformer_new_succeeds rand args KV R F Hvalid hidden
              Hhidden Hpos Hmax) as (m & Hm).
  exists m. split; [exact Hm|]. split.
  - unfold Transformer_new in Hm.
    inv_bind Hm. inv_bind Hm. rename x0 into ls, E0 into El.
    inv_bind Hm. inv_bind Hm. inv_bind Hm. inv_bind Hm.
    apply Ok_inj in Hm. subst m. cbn [layers].
    now apply (new_layers_length rand args _ 0%Z).
  - now apply (Transformer_new_wf rand args KV R F Hvalid).
Qed.

Lemma Transformer_new_total_witness :
  exists m : Transformer unit,
    Transformer_new (fun _ => tt) small_args = Ok m /\
    length (layers m) = 2.
Proof.
  destruct (Transformer_new_total (fun _ : list nat => tt) small_args 2 2 1 16
              small_args_valid eq_refl ltac:(lia) ltac:(cbn; lia))
    as (m & Hm & Hlen & _).
  exists m. split; assumption.
Defined.

(** ** Engines in which minus infinity hides a position *)

Lemma shape_mask_laws : MaskLaws unit.
Proof.
  split; try reflexivity.
  - intros l j _ _. now destruct (nth j (softmax l) zero).
Qed.

Lemma xmul_zero_l (b : xreal) : xmul (Some 0%R) b = Some 0%R.
Proof.
  unfold xmul. destruct b as [y|].
  - f_equal. ring.
  - destruct (Req_dec_T 0 0) as [_|Hn]; [reflexivity | contradiction].
Qed.

Lemma xdot_zero_weight (p v v' : list xreal) :
  length v = length v' ->
  (forall j, nth j p (Some 0%R) = Some 0%R \/
             nth j v (Some 0%R) = nth j v' (Some 0%R)) ->
  xdot p v = xdot p v'.
Proof.
  unfold xdot. revert v v'.
  induction p as [|a p IH]; intros v v' Hlen Hj; [reflexivity|].
  destruct v as [|b v], v' as [|b' v']; try discriminate; [reflexivity|].
  cbn [combine map xsum fold_right fst snd].
  fold (xsum (map (fun pv => xmul (fst pv) (snd pv)) (combine p v))).
  fold (xsum (map (fun pv => xmul (fst pv) (snd pv)) (combine p v'))).
  rewrite (IH v v').
  - f_equal. destruct (Hj 0) as [E|E]; cbn [nth] in E.
    + subst a. now rewrite !xmul_zero_l.
    + now subst b'.
  - cbn [length] in Hlen. lia.
  - intros j. exact (Hj (Datatypes.S j)).
Qed.

Lemma xreal_mask_laws : MaskLaws xreal.
Proof.
  split.
  - intros [v|]; reflexivity.
  - reflexivity.
  - intros l j Hj Hn. cbn [softmax xreal_engine zero xreal_arith engine_arith]
      in *.
    unfold xsoftmax.
    rewrite (nth_indep _ (Some 0%R) (Some (xexp (Some 0%R) / Rsum (map xexp l))%R))
      by now rewrite length_map.
    rewrite (map_nth (fun a => Some (xexp a / Rsum (map xexp l))%R)).
    rewrite Hn. change (xexp neg_inf) with 0%R. f_equal.
    unfold Rdiv. ring.
  - reflexivity.
  - exact xdot_zero_weight.
Qed.

(** ** Causality of the forward pass *)

Section Causality.
  Context {T : Type} `{Engine T} `{!MaskLaws T}.
  Variables B S b0 i0 : nat.
  Hypothesis Hb0 : b0 < B.
  Hypothesis Hi0 : i0 < S.

Lemma row_agree (x x' : tensor T) (D j : nat) :
    shape x = [B; S; D] -> shape x' = [B; S; D] ->
    agree_upto b0 i0 D x x' -> j <= i0 ->
    row x [b0; j] = row x' [b0; j].
  Proof.
    intros Hs Hs' Ha Hj. unfold row. rewrite Hs, Hs'. cbn [last app].
    apply map_ext_in. intros k Hk. apply in_seq in Hk.
    apply Ha; lia.
  Qed.

Lemma rms_agree (self : RMSNorm T) (x x' : tensor T) (D : nat) :
    shape x = [B; S; D] -> shape x' = [B; S; D] ->
    agree_upto b0 i0 D x x' ->
    agree_upto b0 i0 D (tabulate [B; S; D] (rms_entry self x))
                       (tabulate [B; S; D] (rms_entry self x')).
  Proof.
    intros Hs Hs' Ha j k Hj Hk.
    rewrite !get_tabulate by (simpl; lia).
    unfold rms_entry. cbn [removelast last].
    now rewrite (row_agree x x' D j Hs Hs' Ha Hj), (Ha j k Hj Hk).
  Qed.

Lemma linear_agree (w x x' : tensor T) (D Dout : nat) :
    shape x = [B; S; D] -> shape x' = [B; S; D] ->
    agree_upto b0 i0 D x x' ->
    agree_upto b0 i0 Dout
      (tabulate [B; S; Dout]
         (fun idx => dot (row x (removelast idx)) (row w [last idx 0])))
      (tabulate [B; S; Dout]
         (fun idx => dot (row x' (removelast idx)) (row w [last idx 0]))).
  Proof.
    intros Hs Hs' Ha j k Hj Hk.
    rewrite !get_tabulate by (simpl; lia).
    cbn [removelast last].
    now rewrite (row_agree x x' D j Hs Hs' Ha Hj).
  Qed.

Lemma add_agree (x x' a a' : tensor T) (D : nat) :
    agree_upto b0 i0 D x x' -> agree_upto b0 i0 D a a' ->
    agree_upto b0 i0 D
      (tabulate [B; S; D]
         (fun idx => add (get x (bidx [B; S; D] idx))
                         (get a (bidx [B; S; D] idx))))
      (tabulate [B; S; D]
         (fun idx => add (get x' (bidx [B; S; D] idx))
                         (get a' (bidx [B; S; D] idx)))).
  Proof.
    intros Hx Ha j k Hj Hk.
    rewrite !get_tabulate by (simpl; lia).
    rewrite !bidx_in_range by (simpl; lia).
    now rewrite (Hx j k Hj Hk), (Ha j k Hj Hk).
  Qed.

Lemma FeedForward_forward_agree (ff : FeedForward T) (x x' : tensor T)
      (D : nat) :
    FeedForward_wf ff D ->
    shape x = [B; S; D] -> shape x' = [B; S; D] ->
    agree_upto b0 i0 D x x' ->
    exists y y' : tensor T,
      FeedForward_forward ff x = Ok y /\
      FeedForward_forward ff x' = Ok y' /\
      wf y /\ shape y = [B; S; D] /\
      wf y' /\ shape y' = [B; S; D] /\
      agree_upto b0 i0 D y y'.
  Proof.
    intros (hidden & H1 & H2 & H3) Hs Hs' Ha.
    destruct (FeedForward_forward_rows ff x B S D hidden H1 H2 H3 Hs)
      as (y & Hy & Hwy & Hsy & Hrows).
    destruct (FeedForward_forward_rows ff x' B S D hidden H1 H2 H3 Hs')
      as (y' & Hy' & Hwy' & Hsy' & Hrows').
    exists y, y'. repeat split; try assumption.
    intros j k Hj Hk.
    rewrite Hrows, Hrows' by lia.
    now rewrite (row_agree x x' D j Hs Hs' Ha Hj).
  Qed.


(** *** Attention under the causal mask *)

Section AttentionCausality.
  Variable self : Attention T.
  Variables x x' : tensor T.
  Variable freqs : tensor (complex T).
  Variable root : T.
  Variables KV R F D : nat.
  Hypothesis HR : 0 < R.
  Hypothesis Hs : shape x = [B; S; D].
  Hypothesis Hs' : shape x' = [B; S; D].
  Hypothesis Hagree : agree_upto b0 i0 D x x'.

Lemma head_projection_agree (w : tensor T) (n j h d : nat) :
    j <= i0 -> h < n -> d < F * 2 ->
    get (head_projection x B S (F * 2) w n) [b0; j; h; d] =
    get (head_projection x' B S (F * 2) w n) [b0; j; h; d].
  Proof.
    intros Hj Hh Hd. unfold head_projection.
    rewrite !get_tabulate by (simpl; lia).
    now rewrite (row_agree x x' D j Hs Hs' Hagree Hj).
  Qed.

Lemma rotary_entry_agree (w : tensor T) (n j h d : nat) :
    j <= i0 -> h < n -> d < F * 2 ->
    rotary_entry (head_projection x B S (F * 2) w n) freqs [b0; j; h; d] =
    rotary_entry (head_projection x' B S (F * 2) w n) freqs [b0; j; h; d].
  Proof.
    intros Hj Hh Hd. unfold rotary_entry.
    assert (Hp : d / 2 < F) by (apply Nat.Div0.div_lt_upper_bound; lia).
    rewrite (head_projection_agree w n j h (2 * (d / 2))) by lia.
    rewrite (head_projection_agree w n j h (2 * (d / 2) + 1)) by lia.
    reflexivity.
  Qed.

Lemma sp_score_agree (h j t : nat) :
    j <= i0 -> t <= i0 -> h < KV * R ->
    sp_score self x freqs root B S (KV * R) KV R (F * 2) b0 h j t =
    sp_score self x' freqs root B S (KV * R) KV R (F * 2) b0 h j t.
  Proof.
    intros Hj Ht Hh. unfold sp_score, sp_query, sp_key.
    f_equal. f_equal.
    - apply map_ext_in. intros d Hd. apply in_seq in Hd.
      apply rotary_entry_agree; lia.
    - apply map_ext_in. intros d Hd. apply in_seq in Hd.
      apply rotary_entry_agree; [lia | now apply div_lt_groups | lia].
  Qed.

(** The row of masked scores of a query position up to [i0]: the key
      positions after it hold minus infinity whatever the input. *)
Lemma sp_masked_agree (h j t : nat) :
    j <= i0 -> t < S -> h < KV * R ->
    sp_masked self x freqs (causal_mask S) root B S (KV * R) KV R (F * 2)
      b0 h j t =
    sp_masked self x' freqs (causal_mask S) root B S (KV * R) KV R (F * 2)
      b0 h j t.
  Proof.
    intros Hj Ht Hh. unfold sp_masked, causal_mask.
    destruct (Nat.ltb_spec 1 S) as [Hlt|Hle].
    - rewrite triu_full_entry by lia.
      destruct (Nat.ltb_spec j t) as [Hjt|Hjt].
      + now rewrite !add_neg_inf.
      + now rewrite sp_score_agree by lia.
    - apply sp_score_agree; lia.
  Qed.

Lemma sp_masked_after (h j t : nat) :
    j < t -> t < S ->
    sp_masked self x freqs (causal_mask S) root B S (KV * R) KV R (F * 2)
      b0 h j t = neg_inf.
  Proof.
    intros Hjt Ht. unfold sp_masked, causal_mask.
    destruct (Nat.ltb_spec 1 S) as [Hlt|Hle]; [|lia].
    rewrite triu_full_entry by lia.
    destruct (Nat.ltb_spec j t) as [_|]; [|lia].
    apply add_neg_inf.
  Qed.

Lemma sp_prob_agree (h j t : nat) :
    j <= i0 -> h < KV * R ->
    sp_prob self x freqs (causal_mask S) root B S (KV * R) KV R (F * 2)
      b0 h j t =
    sp_prob self x' freqs (causal_mask S) root B S (KV * R) KV R (F * 2)
      b0 h j t.
  Proof.
    intros Hj Hh. unfold sp_prob. do 3 f_equal.
    apply map_ext_in. intros t' Ht'. apply in_seq in Ht'.
    f_equal. apply sp_masked_agree; lia.
  Qed.

Lemma sp_prob_after (h j t : nat) :
    j < t -> t < S ->
    sp_prob self x freqs (causal_mask S) root B S (KV * R) KV R (F * 2)
      b0 h j t = zero.
  Proof.
    intros Hjt Ht. unfold sp_prob.
    rewrite softmax_neg_inf; [apply type_as_zero | |].
    - now rewrite length_map, length_seq.
    - rewrite nth_map_seq by assumption.
      rewrite sp_masked_after by assumption. apply float_neg_inf.
  Qed.

Lemma sp_value_agree (t g d : nat) :
    t <= i0 -> g < KV -> d < F * 2 ->
    sp_value self x B S KV (F * 2) b0 t g d =
    sp_value self x' B S KV (F * 2) b0 t g d.
  Proof.
    intros Ht Hg Hd. unfold sp_value. now apply head_projection_agree.
  Qed.

Lemma sp_head_agree (h j d : nat) :
    j <= i0 -> h < KV * R -> d < F * 2 ->
    sp_head self x freqs (causal_mask S) root B S (KV * R) KV R (F * 2)
      b0 h j d =
    sp_head self x' freqs (causal_mask S) root B S (KV * R) KV R (F * 2)
      b0 h j d.
  Proof.
    intros Hj Hh Hd. unfold sp_head.
    assert (E : map (fun t => sp_prob self x freqs (causal_mask S) root
                                B S (KV * R) KV R (F * 2) b0 h j t) (seq 0 S) =
                map (fun t => sp_prob self x' freqs (causal_mask S) root
                                B S (KV * R) KV R (F * 2) b0 h j t) (seq 0 S)).
    { apply map_ext. intros t. now apply sp_prob_agree. }
    rewrite <- E. apply dot_zero_weight.
    - now rewrite !length_map.
    - intros t. destruct (Nat.lt_ge_cases t S) as [Ht|Ht].
      + rewrite !nth_map_seq by assumption.
        destruct (Nat.le_gt_cases t j) as [Htj|Htj].
        * right. apply sp_value_agree; [lia | now apply div_lt_groups | lia].
        * left. now apply sp_prob_after.
      + left. apply nth_overflow. now rewrite length_map, length_seq.
  Qed.

Lemma attention_spec_agree :
    agree_upto b0 i0 D
      (attention_spec self x freqs (causal_mask S) root
         B S (KV * R) KV R (F * 2) D)
      (attention_spec self x' freqs (causal_mask S) root
         B S (KV * R) KV R (F * 2) D).
  Proof.
    intros j o Hj Ho. unfold attention_spec.
    rewrite !get_tabulate by (simpl; lia).
    f_equal. apply map_ext_in. intros c Hc. apply in_seq in Hc.
    assert (HF : 0 < F * 2) by nia.
    apply sp_head_agree; [lia | | apply Nat.mod_upper_bound; lia].
    apply Nat.Div0.div_lt_upper_bound. lia.
  Qed.

End AttentionCausality.

End Causality.

Section ForwardCausality.
  Context {T : Type} `{Engine T} `{!MaskLaws T}.
  Variables B S b0 i0 : nat.
  Hypothesis Hb0 : b0 < B.
  Hypothesis Hi0 : i0 < S.

(** One layer, up to the feed-forward network: the hidden state after
      the attention and its residual connection. *)
Lemma TransformerBlock_forward_attended (blk : TransformerBlock T)
      (x : tensor T) (freqs : tensor (complex T)) (root : PyFloat.float)
      (D F KV R : nat) :
    0 < KV -> 0 < R ->
    att_n_heads_q (attention blk) = Z.of_nat (KV * R) ->
    att_n_kv_heads (attention blk) = Z.of_nat KV ->
    att_n_rep (attention blk) = Z.of_nat R ->
    att_head_dim (attention blk) = Z.of_nat (F * 2) ->
    shape (wq (attention blk)) = [KV * R * (F * 2); D] ->
    shape (wk (attention blk)) = [KV * (F * 2); D] ->
    shape (wv (attention blk)) = [KV * (F * 2); D] ->
    shape (wo (attention blk)) = [D; KV * R * (F * 2)] ->
    PyFloat.sqrt_int (att_head_dim (attention blk)) = Ok root ->
    shape (weight (attention_norm blk)) = [D] ->
    shape (weight (ffn_norm blk)) = [D] ->
    wf x -> shape x = [B; S; D] ->
    wf freqs -> shape freqs = [S; F] ->
    TransformerBlock_forward blk x freqs (causal_mask S) =
      (let nx := tabulate [B; S; D] (rms_entry (attention_norm blk) x) in
       let a := attention_spec (attention blk) nx freqs (causal_mask S)
                  (scalar root) B S (KV * R) KV R (F * 2) D in
       let h := tabulate [B; S; D]
                  (fun idx => add (get x (bidx [B; S; D] idx))
                                  (get a (bidx [B; S; D] idx))) in
       let nh := tabulate [B; S; D] (rms_entry (ffn_norm blk) h) in
       f <- FeedForward_forward (feed_forward blk) nh ;;
       broadcast_op add h f)%py.
  Proof.
    intros HKV HR Hh Hkv Hrep Hhd Hq Hk Hv Ho Hroot Han Hfn Hwx Hsx Hwf Hsf.
    unfold TransformerBlock_forward.
    rewrite (RMSNorm_forward_ok (attention_norm blk) x [B; S] D) by assumption.
    cbn [bind app].
    rewrite (Attention_forward_ok (attention blk) _ freqs (causal_mask S) root
               B S (KV * R) KV R F D D)
      by first [ apply wf_tabulate | reflexivity | assumption
               | apply causal_mask_ok | lia ].
    cbn [bind].
    rewrite (broadcast_op_ok add x _ [B; S; D])
      by (rewrite Hsx; apply broadcast_shapes_same).
    cbn [bind]. rewrite Hsx.
    change (shape (attention_spec (attention blk)
                     (tabulate [B; S; D] (rms_entry (attention_norm blk) x))
                     freqs (causal_mask S) (scalar root)
                     B S (KV * R) KV R (F * 2) D)) with [B; S; D].
    rewrite (RMSNorm_forward_ok (ffn_norm blk) _ [B; S] D)
      by (try apply wf_tabulate; try reflexivity; assumption).
    cbn [bind app]. reflexivity.
  Qed.

Lemma TransformerBlock_forward_agree (blk : TransformerBlock T)
      (x x' : tensor T) (freqs : tensor (complex T)) (D F : nat) :
    Block_wf blk D F ->
    wf x -> shape x = [B; S; D] ->
    wf x' -> shape x' = [B; S; D] ->
    wf freqs -> shape freqs = [S; F] ->
    agree_upto b0 i0 D x x' ->
    exists y y' : tensor T,
      TransformerBlock_forward blk x freqs (causal_mask S) = Ok y /\
      TransformerBlock_forward blk x' freqs (causal_mask S) = Ok y' /\
      wf y /\ shape y = [B; S; D] /\
      wf y' /\ shape y' = [B; S; D] /\
      agree_upto b0 i0 D y y'.
  Proof.
    intros (Hatt & Hff & Han & Hfn) Hwx Hsx Hwx' Hsx' Hwf Hsf Ha.
    destruct Hatt as (KV & R & root & HKV & HR & Hh & Hkv & Hrep & Hhd
                      & Hq & Hk & Hv & Ho & Hroot).
    rewrite (TransformerBlock_forward_attended blk x freqs root D F KV R)
      by assumption.
    rewrite (TransformerBlock_forward_attended blk x' freqs root D F KV R)
      by assumption.
    cbv zeta.
    set (nx := tabulate [B; S; D] (rms_entry (attention_norm blk) x)).
    set (nx' := tabulate [B; S; D] (rms_entry (attention_norm blk) x')).
    assert (Hnx : agree_upto b0 i0 D nx nx')
      by (apply (rms_agree B S b0 i0 Hb0 Hi0); assumption).
    set (a := attention_spec (attention blk) nx _ _ _ _ _ _ _ _ _ _).
    set (a' := attention_spec (attention blk) nx' _ _ _ _ _ _ _ _ _ _).
    assert (Hatt : agree_upto b0 i0 D a a').
    { apply (attention_spec_agree B S b0 i0 Hb0 Hi0); try assumption;
        reflexivity. }
    set (h := tabulate [B; S; D]
                (fun idx => add (get x (bidx [B; S; D] idx))
                                (get a (bidx [B; S; D] idx)))).
    set (h' := tabulate [B; S; D]
                 (fun idx => add (get x' (bidx [B; S; D] idx))
                                 (get a' (bidx [B; S; D] idx)))).
    assert (Hhh : agree_upto b0 i0 D h h')
      by (apply (add_agree B S b0 i0 Hb0 Hi0); assumption).
    set (nh := tabulate [B; S; D] (rms_entry (ffn_norm blk) h)).
    set (nh' := tabulate [B; S; D] (rms_entry (ffn_norm blk) h')).
    assert (Hnh : agree_upto b0 i0 D nh nh')
      by (apply (rms_agree B S b0 i0 Hb0 Hi0); try reflexivity; assumption).
    destruct (FeedForward_forward_agree B S b0 i0 Hb0 Hi0
                (feed_forward blk) nh nh' D Hff eq_refl eq_refl Hnh)
      as (f & f' & Hf & Hf' & Hwff & Hsff & Hwff' & Hsff' & Hfa).
    rewrite Hf, Hf'. cbn [bind].
    rewrite (broadcast_op_ok add h f [B; S; D])
      by (rewrite Hsff; apply broadcast_shapes_same).
    rewrite (broadcast_op_ok add h' f' [B; S; D])
      by (rewrite Hsff'; apply broadcast_shapes_same).
    rewrite Hsff, Hsff'.
    do 2 eexists. split; [reflexivity|]. split; [reflexivity|].
    split; [apply wf_tabulate|]. split; [reflexivity|].
    split; [apply wf_tabulate|]. split; [reflexivity|].
    change (shape h) with [B; S; D]. change (shape h') with [B; S; D].
    apply (add_agree B S b0 i0 Hb0 Hi0); assumption.
  Qed.

Lemma run_layers_agree (ls : list (TransformerBlock T))
      (freqs : tensor (complex T)) (D F : nat) :
    Forall (fun blk => Block_wf blk D F) ls ->
    wf freqs -> shape freqs = [S; F] ->
    forall x x' : tensor T,
      wf x -> shape x = [B; S; D] ->
      wf x' -> shape x' = [B; S; D] ->
      agree_upto b0 i0 D x x' ->
      exists y y' : tensor T,
        run_layers ls x freqs (causal_mask S) = Ok y /\
        run_layers ls x' freqs (causal_mask S) = Ok y' /\
        wf y /\ shape y = [B; S; D] /\
        wf y' /\ shape y' = [B; S; D] /\
        agree_upto b0 i0 D y y'.
  Proof.
    intros Hls Hwf Hsf.
    induction Hls as [|blk ls Hblk Hls IH];
      intros x x' Hwx Hsx Hwx' Hsx' Ha; cbn [run_layers].
    - exists x, x'. repeat split; assumption.
    - destruct (TransformerBlock_forward_agree blk x x' freqs D F
                  Hblk Hwx Hsx Hwx' Hsx' Hwf Hsf Ha)
        as (y & y' & Hy & Hy' & Hwy & Hsy & Hwy' & Hsy' & Hya).
      rewrite Hy, Hy'. cbn [bind]. now apply IH.
  Qed.

Lemma embedding_agree (w : tensor T) (tokens tokens' : tensor Z)
      (V D : nat) :
    shape w = [V; D] ->
    shape tokens = [B; S] -> shape tokens' = [B; S] ->
    tokens_in_vocab tokens V -> tokens_in_vocab tokens' V ->
    tokens_agree_upto b0 i0 tokens tokens' ->
    exists h h' : tensor T,
      embedding w tokens = Ok h /\ embedding w tokens' = Ok h' /\
      wf h /\ shape h = [B; S; D] /\
      wf h' /\ shape h' = [B; S; D] /\
      agree_upto b0 i0 D h h'.
  Proof.
    intros Hw Hs Hs' Hv Hv' Ha.
    assert (Hok : forall t : tensor Z, tokens_in_vocab t V ->
              forallb (fun z => (0 <=? z)%Z && (z <? Z.of_nat V)%Z) (data t)
              = true).
    { intros t Ht. apply forallb_forall. intros z Hin.
      unfold tokens_in_vocab in Ht. rewrite Forall_forall in Ht.
      specialize (Ht z Hin). apply andb_true_intro. split.
      - apply Z.leb_le. lia.
      - apply Z.ltb_lt. lia. }
    unfold embedding. rewrite Hw, (Hok _ Hv), (Hok _ Hv'), Hs, Hs'.
    cbn [app].
    do 2 eexists. split; [reflexivity|]. split; [reflexivity|].
    split; [apply wf_tabulate|]. split; [reflexivity|].
    split; [apply wf_tabulate|]. split; [reflexivity|].
    intros j k Hj Hk. rewrite !get_tabulate by (simpl; lia).
    cbn [removelast last]. now rewrite (Ha j Hj).
  Qed.

End ForwardCausality.

(** X19.  Causality and independence of the batch rows: in an engine in
    which minus infinity hides a position, on a model with the shapes of
    [__init__], the logits of batch row [b0] at the positions up to [i0]
    depend only on the token ids of that row at the positions up to
    [i0].  Two inputs that agree there, whatever they hold at later
    positions and in the other rows, give the same logits there. *)
Theorem forward_causal
    {T : Type} `{Engine T} `{!MaskLaws T}
    (m : Transformer T) (tokens tokens' : tensor Z)
    (start_pos B S V D n F b0 i0 : nat) :
  Transformer_wf m V D n F ->
  shape tokens = [B; S] -> shape tokens' = [B; S] ->
  tokens_in_vocab tokens V -> tokens_in_vocab tokens' V ->
  start_pos + S <= n ->
  b0 < B -> i0 < S ->
  tokens_agree_upto b0 i0 tokens tokens' ->
  exists logits logits' : tensor T,
    snd (Transformer_forward m tokens (Z.of_nat start_pos)) = Ok logits /\
    snd (Transformer_forward m tokens' (Z.of_nat start_pos)) = Ok logits' /\
    shape logits = [B; S; V] /\ shape logits' = [B; S; V] /\
    forall j k, j <= i0 -> k < V ->
      get logits [b0; j; k] = get logits' [b0; j; k].
Proof.
  intros (Hemb & Hls & Hnorm & Hout & Hwt & Hst) Hs Hs' Hv Hv' Hle Hb0 Hi0 Ha.
  rewrite (Transformer_forward_result m tokens _ B S Hs).
  rewrite (Transformer_forward_result m tokens' _ B S Hs').
  destruct (embedding_agree B S b0 i0 Hb0 Hi0 (tok_embeddings m)
              tokens tokens' V D Hemb Hs Hs' Hv Hv' Ha)
    as (h & h' & Hh & Hh' & Hwh & Hsh & Hwh' & Hsh' & Hha).
  rewrite Hh, Hh'. cbn [bind].
  destruct (slice0_in_range (freqs_cis m) n [F] start_pos S Hwt Hst Hle)
    as (fr & Hfr & Hsfr & Hwfr & _).
  rewrite Hfr. cbn [bind].
  destruct (run_layers_agree B S b0 i0 Hb0 Hi0 (layers m) fr D F
              Hls Hwfr Hsfr h h' Hwh Hsh Hwh' Hsh' Hha)
    as (y & y' & Hy & Hy' & Hwy & Hsy & Hwy' & Hsy' & Hya).
  rewrite Hy, Hy'. cbn [bind].
  rewrite (RMSNorm_forward_ok (norm m) y [B; S] D) by assumption.
  rewrite (RMSNorm_forward_ok (norm m) y' [B; S] D) by assumption.
  cbn [bind app].
  rewrite (linear_ok (output m) _ V D [B; S]) by (assumption || reflexivity).
  rewrite (linear_ok (output m) _ V D [B; S]) by (assumption || reflexivity).
  do 2 eexists. split; [reflexivity|]. split; [reflexivity|].
  split; [reflexivity|]. split; [reflexivity|].
  apply (linear_agree B S b0 i0 Hb0 Hi0 (output m) _ _ D V);
    try reflexivity.
  apply (rms_agree B S b0 i0 Hb0 Hi0); assumption.
Qed.

Lemma forward_causal_witness :
  exists (m : Transformer xreal) (logits logits' : tensor xreal),
    Transformer_new (fun idx => Some (INR (list_sum idx))) small_args = Ok m /\
    snd (Transformer_forward m (token_row [1; 2; 3]%Z) 0) = Ok logits /\
    snd (Transformer_forward m (token_row [1; 2; 4]%Z) 0) = Ok logits' /\
    forall k, k < 5 -> get logits [0; 1; k] = get logits' [0; 1; k].
Proof.
  destruct (Transformer_new_succeeds (fun idx => Some (INR (list_sum idx)))
              small_args 2 2 1 small_args_valid 16 eq_refl
              ltac:(lia) ltac:(cbn; lia)) as (m & Hm).
  pose proof (Transformer_new_wf _ small_args 2 2 1 small_args_valid m Hm)
    as Hwf.
  assert (Hvocab : forall t : Z, (0 <= t < 5)%Z ->
            tokens_in_vocab (token_row [1; 2; t]%Z)
              (Z.to_nat (vocab_size small_args))).
  { intros t Ht. unfold tokens_in_vocab. cbn [data token_row].
    repeat constructor; cbn; lia. }
  assert (Hagree : tokens_agree_upto 0 1 (token_row [1; 2; 3]%Z)
                     (token_row [1; 2; 4]%Z)).
  { intros j Hj. destruct j as [|[|j]]; [reflexivity | reflexivity | lia]. }
  destruct (forward_causal (MaskLaws0 := xreal_mask_laws) m
              (token_row [1; 2; 3]%Z) (token_row [1; 2; 4]%Z)
              0 1 3 _ _ _ _ 0 1
              Hwf eq_refl eq_refl (Hvocab 3%Z ltac:(lia)) (Hvocab 4%Z ltac:(lia))
              ltac:(cbn; lia) ltac:(lia) ltac:(lia) Hagree)
    as (logits & logits' & Hl & Hl' & _ & _ & Hsame).
  exists m, logits, logits'.
  split; [exact Hm|]. split; [exact Hl|]. split; [exact Hl'|].
  intros k Hk. apply Hsame; [lia | exact Hk].
Defined.

(** ** What the greedy loop chooses *)

Lemma Rltb_false (a b : R) : Rltb a b = false -> (b <= a)%R.
Proof. unfold Rltb. destruct (Rlt_dec a b); [discriminate | lra]. Qed.

Lemma Rltb_true (a b : R) : Rltb a b = true -> (a < b)%R.
Proof. unfold Rltb. destruct (Rlt_dec a b); [auto | discriminate]. Qed.

(** The scan of [argmax] keeps the first position of the largest value
    seen so far. *)
Lemma argmax_from_first_largest (pre l : list R) (best : nat) :
  best < length pre ->
  (forall k, k < length pre -> (nth k pre 0 <= nth best pre 0)%R) ->
  (forall k, k < best -> (nth k pre 0 < nth best pre 0)%R) ->
  let a := argmax_from Rltb l (length pre) best (nth best pre 0%R) in
  a < length (pre ++ l) /\
  (forall k, k < length (pre ++ l) ->
     (nth k (pre ++ l) 0 <= nth a (pre ++ l) 0)%R) /\
  (forall k, k < a -> (nth k (pre ++ l) 0 < nth a (pre ++ l) 0)%R).
Proof.
  revert pre best. induction l as [|x l IH]; intros pre best Hb Hmax Hfirst;
    cbn [argmax_from].
  - cbv zeta. rewrite app_nil_r. auto.
  - assert (Hlen : length (pre ++ [x]) = Datatypes.S (length pre))
      by (rewrite length_app; cbn [length]; lia).
    replace (pre ++ x :: l) with ((pre ++ [x]) ++ l)
      by (rewrite <- app_assoc; reflexivity).
    destruct (Rltb (nth best pre 0%R) x) eqn:E.
    + apply Rltb_true in E.
      pose proof (IH (pre ++ [x]) (length pre)) as IH'.
      rewrite Hlen in IH'.
      rewrite app_nth2, Nat.sub_diag in IH' by lia. cbn [nth] in IH'.
      apply IH'; [lia | |].
      * intros k Hk. destruct (Nat.lt_ge_cases k (length pre)) as [Hlt|Hge].
        -- rewrite app_nth1 by assumption. specialize (Hmax k Hlt). lra.
        -- assert (k = length pre) as -> by lia.
           rewrite app_nth2, Nat.sub_diag by lia. cbn [nth]. lra.
      * intros k Hk. rewrite app_nth1 by assumption.
        specialize (Hmax k Hk). lra.
    + apply Rltb_false in E.
      pose proof (IH (pre ++ [x]) best) as IH'.
      rewrite Hlen in IH'.
      rewrite (app_nth1 pre [x]) in IH' by assumption.
      apply IH'; [lia | |].
      * intros k Hk. destruct (Nat.lt_ge_cases k (length pre)) as [Hlt|Hge].
        -- rewrite app_nth1 by assumption. now apply Hmax.
        -- assert (k = length pre) as -> by lia.
           rewrite app_nth2, Nat.sub_diag by lia. cbn [nth]. exact E.
      * intros k Hk. rewrite app_nth1 by lia. now apply Hfirst.
Qed.

Lemma argmax_first_largest (l : list R) :
  l <> [] ->
  exists a : nat,
    argmax Rltb l = Ok a /\ a < length l /\
    (forall k, k < length l -> (nth k l 0 <= nth a l 0)%R) /\
    (forall k, k < a -> (nth k l 0 < nth a l 0)%R).
Proof.
  destruct l as [|x l]; [congruence|]. intros _. cbn [argmax].
  eexists. split; [reflexivity|].
  apply (argmax_from_first_largest [x] l 0).
  - cbn. lia.
  - intros k Hk. cbn [length] in Hk. assert (k = 0) as -> by lia.
    cbn [nth]. lra.
  - intros k Hk. lia.
Qed.

(** X20.  What one pass of the loop appends, in exact arithmetic and for
    a positive temperature: when the model returns logits [1, s, V] for
    the ids so far, the id appended is the first position of the largest
    logit of the last position; the loop returns the longer row if that
    id is the end-of-sequence id and goes on with it otherwise. *)
Theorem greedy_step_takes_largest_logit
    {St : Type} (model : St -> tensor Z -> Z -> St * result (tensor R))
    (eos_token_id : Z) (st st' : St) (ids : tensor Z) (outputs : tensor R)
    (temperature : R) (n L s V : nat) :
  (0 < temperature)%R ->
  wf ids -> shape ids = [1; L] ->
  model st ids 0%Z = (st', Ok outputs) ->
  shape outputs = [1; s; V] -> 0 < s -> 0 < V ->
  exists a : nat,
    a < V /\
    (forall k, k < V ->
       Rle (get outputs [0; s - 1; k]) (get outputs [0; s - 1; a])) /\
    (forall k, k < a ->
       Rlt (get outputs [0; s - 1; k]) (get outputs [0; s - 1; a])) /\
    greedy_loop Rdiv Rltb model eos_token_id (Datatypes.S n) st ids temperature =
      let ids' := {| shape := [1; L + 1];
                     data := data ids ++ [Z.of_nat a] |} in
      if (Z.of_nat a =? eos_token_id)%Z then (st', Ok ids')
      else greedy_loop Rdiv Rltb model eos_token_id n st' ids' temperature.
Proof.
  intros Ht Hwf Hs Hmodel Hso Hpos HV. cbn [greedy_loop].
  rewrite Hmodel. cbn [bind].
  destruct (last_position_ok outputs 1 s V Hso Hpos)
    as (lastp & Hlast & Hwp & Hsp).
  rewrite Hlast. cbn [bind].
  rewrite (argmax_last_tmap Rltb (fun x => x / temperature)%R
             (fun a b => Rltb_div temperature a b Ht) lastp 1 V Hwp Hsp).
  assert (Hrow : row lastp [0] =
                 map (fun k => get outputs [0; s - 1; k]) (seq 0 V)).
  { unfold last_position in Hlast. rewrite Hso in Hlast.
    destruct (Nat.eqb_spec s 0) as [|_]; [lia|].
    apply Ok_inj in Hlast. subst lastp.
    unfold row. cbn [shape tabulate last app].
    apply map_ext_in. intros k Hk. apply in_seq in Hk.
    now rewrite get_tabulate by (simpl; lia). }
  destruct (argmax_first_largest (row lastp [0])) as (a & Ha & Hlt & Hmax & Hfirst).
  { rewrite Hrow. destruct V; [lia | discriminate]. }
  rewrite Hrow in Hlt, Hmax, Hfirst.
  rewrite length_map, length_seq in Hlt, Hmax.
  exists a. split; [exact Hlt|]. split; [|split].
  - intros k Hk. specialize (Hmax k Hk).
    now rewrite !nth_map_seq in Hmax by lia.
  - intros k Hk. specialize (Hfirst k Hk).
    now rewrite !nth_map_seq in Hfirst by lia.
  - unfold argmax_last. rewrite Hsp. cbn [seq mapM]. rewrite Ha.
    cbn [bind map]. rewrite (cat_last_row ids L (Z.of_nat a) Hwf Hs).
    cbn [bind item data]. cbv zeta.
    destruct (Z.of_nat a =? eos_token_id)%Z; reflexivity.
Qed.

Lemma greedy_step_takes_largest_logit_witness :
  exists a : nat,
    a < 2 /\
    greedy_loop Rdiv Rltb toy_model 7%Z 1 tt (token_row [3; 4]%Z) 2%R =
      (tt, Ok {| shape := [1; 2 + 1]; data := [3; 4]%Z ++ [Z.of_nat a] |}).
Proof.
  destruct (greedy_step_takes_largest_logit toy_model 7%Z tt tt
              (token_row [3; 4]%Z)
              (tabulate [1; 2; 2]
                 (fun idx => match idx with
                             | [_; _; k] => if k =? 0 then 1%R else 2%R
                             | _ => 0%R
                             end))
              2%R 0 2 2 2
              ltac:(lra) eq_refl eq_refl eq_refl eq_refl ltac:(lia) ltac:(lia))
    as (a & Ha & _ & _ & Hloop).
  exists a. split; [exact Ha|].
  rewrite Hloop. cbv zeta. cbn [greedy_loop].
  destruct (Z.of_nat a =? 7)%Z eqn:E; [|reflexivity].
  apply Z.eqb_eq in E. lia.
Defined.

(** ** More on the configuration *)

(** X21.  With [n_kv_heads] left at its default [None] the model is
    plain multi-head attention: [__post_init__] makes [n_kv_heads] equal
    to [n_heads], [Attention.__init__] then has [n_rep = 1], and
    [repeat_kv] returns the keys and values it is given. *)
Theorem default_kv_heads_plain_attention
    {T : Type} `{Engine T} (rand : list nat -> T)
    (f : ModelArgsFields) (a : ModelArgs) (att : Attention T) :
  f_n_kv_heads f = None ->
  post_init f = Ok a ->
  Attention_new rand a = Ok att ->
  n_kv_heads a = n_heads a /\
  att_n_kv_heads att = att_n_heads_q att /\
  att_n_rep att = 1%Z /\
  forall (x : tensor T) (b s h d : nat),
    shape x = [b; s; h; d] -> repeat_kv x (att_n_rep att) = Ok x.
Proof.
  intros Hnone Hp Ha.
  destruct (post_init_fields _ _ Hp) as (_ & Hh & Hkv & _).
  rewrite Hnone, <- Hh in Hkv.
  unfold Attention_new in Ha. rewrite Hkv in Ha.
  inv_bind Ha. rename x into n_rep, E into Erep.
  apply py_floordiv_ok_inv in Erep as (Hne & Erep).
  rewrite Z.div_same in Erep by assumption. subst n_rep.
  inv_bind Ha. inv_bind Ha. inv_bind Ha. inv_bind Ha. inv_bind Ha.
  apply Ok_inj in Ha. subst att.
  cbn [att_n_kv_heads att_n_heads_q att_n_rep].
  split; [exact Hkv|]. split; [reflexivity|]. split; [reflexivity|].
  intros t b s h d Hs. unfold repeat_kv. now rewrite Hs.
Qed.

Lemma default_kv_heads_plain_attention_witness :
  exists (a : ModelArgs) (att : Attention unit),
    post_init ModelArgs_defaults = Ok a /\
    Attention_new (fun _ => tt) a = Ok att /\
    n_kv_heads a = 32%Z /\ att_n_rep att = 1%Z.
Proof.
  destruct (post_init ModelArgs_defaults) as [a|e] eqn:Ep;
    [|vm_compute in Ep; discriminate].
  assert (Ea : exists att : Attention unit,
             Attention_new (fun _ => tt) a = Ok att /\ n_heads a = 32%Z).
  { vm_compute in Ep. apply Ok_inj in Ep. subst a.
    unfold Attention_new.
    cbn [n_heads n_kv_heads dim py_floordiv Z.eqb Z.div bind].
    change (32 / 32)%Z with 1%Z. change (4096 / 32)%Z with 128%Z.
    unfold Linear_new.
    cbn [Z.mul Pos.mul Z.leb Z.compare andb guard bind].
    eexists. split; reflexivity. }
  destruct Ea as (att & Ha & Hn).
  destruct (default_kv_heads_plain_attention (fun _ : list nat => tt)
              ModelArgs_defaults a att eq_refl Ep Ha) as (Hkv & _ & Hrep & _).
  exists a, att. repeat split; try assumption. now rewrite Hkv.
Defined.

(** X22.  An invariant of every configuration object that exists:
    [multiple_of] is not zero and [intermediate_size] is a multiple of
    it, whatever its sign, so that rounding it again changes nothing; and
    every layer built from the object has a feed-forward width that is a
    multiple of [multiple_of] too. *)
Theorem model_args_invariant
    {T : Type} `{Engine T} (rand : list nat -> T)
    (f : ModelArgsFields) (a : ModelArgs) :
  post_init f = Ok a ->
  multiple_of a <> 0%Z /\
  (multiple_of a | intermediate_size a)%Z /\
  find_multiple (intermediate_size a) (multiple_of a)
    = Ok (intermediate_size a) /\
  forall (layer_id : Z) (blk : TransformerBlock T),
    TransformerBlock_new rand layer_id a = Ok blk ->
    exists hidden : Z,
      (multiple_of a | hidden)%Z /\
      shape (w1 (feed_forward blk)) = [Z.to_nat hidden; Z.to_nat (dim a)] /\
      shape (w3 (feed_forward blk)) = [Z.to_nat hidden; Z.to_nat (dim a)] /\
      shape (w2 (feed_forward blk)) = [Z.to_nat (dim a); Z.to_nat hidden].
Proof.
  intros Hp.
  destruct (post_init_fields _ _ Hp) as (_ & _ & _ & Hm & _ & n & _ & Hf).
  rewrite <- Hm in Hf.
  assert (Hmult : forall n k m, find_multiple n k = Ok m ->
            k <> 0%Z /\ (k | m)%Z).
  { intros n0 k m Hfm. destruct (find_multiple_inv _ _ _ Hfm) as (Hk & Hcase).
    split; [exact Hk|].
    pose proof (Z.div_mod n0 k Hk) as Hdm.
    destruct Hcase as [(E & ->) | (E & ->)].
    - now apply Z.mod_divide.
    - exists (n0 / k + 1)%Z. lia. }
  destruct (Hmult _ _ _ Hf) as (Hk & Hdiv).
  split; [exact Hk|]. split; [exact Hdiv|]. split.
  - unfold find_multiple, py_mod.
    destruct (Z.eqb_spec (multiple_of a) 0) as [|_]; [contradiction|].
    cbn [bind]. apply Z.mod_divide in Hdiv; [|assumption]. now rewrite Hdiv.
  - intros layer_id blk Hb. unfold TransformerBlock_new in Hb.
    inv_bind Hb. clear E x.
    inv_bind Hb. rename x into att, E into Ea.
    inv_bind Hb. rename x into ff, E into Ef.
    inv_bind Hb. rename x into an, E into Ean.
    inv_bind Hb. rename x into fn, E into Efn.
    apply Ok_inj in Hb. subst blk.
    cbn [feed_forward]. unfold FeedForward_new in Ef.
    inv_bind Ef. rename x into hidden, E into Eh.
    inv_bind Ef. rename x into t1, E into E1.
    inv_bind Ef. rename x into t2, E into E2.
    inv_bind Ef. rename x into t3, E into E3.
    apply Ok_inj in Ef. subst ff. cbn [w1 w2 w3].
    apply Linear_new_inv in E1 as (_ & _ & ->).
    apply Linear_new_inv in E2 as (_ & _ & ->).
    apply Linear_new_inv in E3 as (_ & _ & ->).
    exists hidden. split; [|repeat split].
    unfold FeedForward_hidden_dim in Eh.
    inv_bind Eh. clear E. inv_bind Eh.
    now destruct (Hmult _ _ _ Eh).
Qed.

Lemma model_args_invariant_witness :
  exists a : ModelArgs,
    post_init main_fields = Ok a /\
    (multiple_of a | intermediate_size a)%Z.
Proof.
  destruct (post_init main_fields) as [a|e] eqn:Ep;
    [|vm_compute in Ep; discriminate].
  exists a. split; [reflexivity|].
  exact (proj1 (proj2 (model_args_invariant (fun _ : list nat => tt)
                         main_fields a Ep))).
Defined.

(** ** Head counts that do not divide *)

Section UnevenHeads.
  Context {T : Type} `{Engine T}.

Lemma matmul_heads_mismatch (a b : tensor T) (b1 h1 h2 n m p : nat) :
    shape a = [b1; h1; n; m] -> shape b = [b1; h2; m; p] ->
    h1 <> h2 -> h1 <> 1 -> h2 <> 1 ->
    matmul a b = Raise RuntimeError.
  Proof.
    intros Ha Hb H1 H2 H3. unfold matmul.
    rewrite Ha, Hb, Nat.eqb_refl.
    unfold broadcast_shapes. cbn [rev app broadcast_rev bind].
    rewrite broadcast_dim_same. cbn [bind].
    unfold broadcast_dim.
    destruct (Nat.eqb_spec h1 h2) as [|_]; [contradiction|].
    destruct (Nat.eqb_spec h1 1) as [|_]; [contradiction|].
    destruct (Nat.eqb_spec h2 1) as [|_]; [contradiction|].
    reflexivity.
  Qed.

Lemma Attention_forward_uneven_heads (att : Attention T) (x : tensor T)
      (freqs : tensor (complex T)) (mask : option (tensor T))
      (B S Hn KV F D : nat) :
    att_n_heads_q att = Z.of_nat Hn ->
    att_n_kv_heads att = Z.of_nat KV ->
    att_n_rep att = Z.of_nat (Hn / KV) ->
    att_head_dim att = Z.of_nat (F * 2) ->
    shape (wq att) = [Hn * (F * 2); D] ->
    shape (wk att) = [KV * (F * 2); D] ->
    shape (wv att) = [KV * (F * 2); D] ->
    0 < KV -> KV <= Hn -> Hn mod KV <> 0 ->
    shape x = [B; S; D] ->
    wf freqs -> shape freqs = [S; F] ->
    0 < B -> 0 < S ->
    Attention_forward att x freqs mask = Raise RuntimeError.
  Proof.
    intros Hh Hkv Hrep Hhd Hq Hk Hv HKV Hle Hmod Hsx Hwf Hsf HB HS.
    assert (HR : 1 <= Hn / KV) by (apply Nat.div_le_lower_bound; lia).
    pose proof (Nat.div_mod_eq Hn KV) as Hdm.
    assert (HKV2 : 2 <= KV).
    { destruct (Nat.eq_dec KV 1) as [->|]; [|lia].
      rewrite Nat.mod_1_r in Hmod. contradiction. }
    unfold Attention_forward. rewrite Hsx.
    rewrite (linear_ok (wq att) x (Hn * (F * 2)) D [B; S]) by assumption.
    rewrite (linear_ok (wk att) x (KV * (F * 2)) D [B; S]) by assumption.
    rewrite (linear_ok (wv att) x (KV * (F * 2)) D [B; S]) by assumption.
    cbn [bind app]. rewrite Hh, Hkv, Hhd, Hrep.
    rewrite !view_heads. cbn [bind].
    rewrite (apply_rotary_emb_ok _ _ freqs B S Hn KV F)
      by (try apply wf_tabulate; try reflexivity; assumption || lia).
    cbn [bind fst snd].
    rewrite (repeat_kv_tabulate _ B S KV (F * 2) (Hn / KV))
      by (try apply wf_tabulate; try reflexivity; lia).
    cbn [bind].
    rewrite (repeat_kv_tabulate _ B S KV (F * 2) (Hn / KV))
      by (try apply wf_tabulate; try reflexivity; lia).
    cbn [bind].
    rewrite (transpose_1_2_ok _ B S Hn (F * 2)) by reflexivity.
    cbn [bind].
    rewrite (transpose_1_2_ok _ B S (KV * (Hn / KV)) (F * 2)) by reflexivity.
    cbn [bind].
    rewrite (transpose_1_2_ok _ B S (KV * (Hn / KV)) (F * 2)) by reflexivity.
    cbn [bind].
    rewrite (transpose_last_ok _ B (KV * (Hn / KV)) S (F * 2)) by reflexivity.
    cbn [bind].
    now rewrite (matmul_heads_mismatch _ _ B Hn (KV * (Hn / KV)) S (F * 2) S)
      by (reflexivity || nia).
  Qed.

End UnevenHeads.

(** X23.  Head counts that do not divide are found out by the first
    forward pass: an attention module built from a configuration whose
    [n_heads] is not a multiple of its [n_kv_heads] (with
    [n_kv_heads <= n_heads] and [dim = n_heads * 2 F]) raises
    [RuntimeError] on every input [B, S, dim], at the product of queries
    and keys, whose numbers of heads cannot be broadcast. *)
Theorem attention_uneven_heads_fails
    {T : Type} `{Engine T} (rand : list nat -> T) (args : ModelArgs)
    (att : Attention T) (x : tensor T) (freqs : tensor (complex T))
    (mask : option (tensor T)) (B S Hn KV F : nat) :
  n_heads args = Z.of_nat Hn ->
  n_kv_heads args = Z.of_nat KV ->
  dim args = Z.of_nat (Hn * (F * 2)) ->
  0 < KV -> KV <= Hn -> Hn mod KV <> 0 ->
  Attention_new rand args = Ok att ->
  shape x = [B; S; Hn * (F * 2)] ->
  wf freqs -> shape freqs = [S; F] ->
  0 < B -> 0 < S ->
  Attention_forward att x freqs mask = Raise RuntimeError.
Proof.
  intros Hh Hkv Hd HKV Hle Hmod Ha Hsx Hwf Hsf HB HS.
  unfold Attention_new, py_floordiv in Ha. rewrite Hh, Hkv, Hd in Ha.
  destruct (Z.eqb_spec (Z.of_nat KV) 0) as [|_]; [lia|].
  destruct (Z.eqb_spec (Z.of_nat Hn) 0) as [|_]; [lia|].
  rewrite of_nat_div_mul, <- Nat2Z.inj_div in Ha by lia.
  cbn [bind] in Ha. rewrite <- !Nat2Z.inj_mul in Ha.
  inv_bind Ha. rename x0 into q, E into Eq.
  inv_bind Ha. rename x0 into k, E into Ek.
  inv_bind Ha. rename x0 into v, E into Ev.
  inv_bind Ha. rename x0 into o, E into Eo.
  apply Ok_inj in Ha. subst att.
  apply Linear_new_shape in Eq, Ek, Ev.
  apply (Attention_forward_uneven_heads _ x freqs mask B S Hn KV F
           (Hn * (F * 2))); try assumption; reflexivity.
Qed.

Lemma attention_uneven_heads_fails_witness :
  exists (a : ModelArgs) (att : Attention unit),
    post_init uneven_heads_fields = Ok a /\
    Attention_new (fun _ => tt) a = Ok att /\
    Attention_forward att (full [1; 3; 10] tt) (full [3; 1] (tt, tt)) None
      = Raise RuntimeError.
Proof.
  destruct (post_init uneven_heads_fields) as [a|e] eqn:Ep;
    [|vm_compute in Ep; discriminate].
  destruct (post_init_fields _ _ Ep) as (Hd & Hh & Hkv & _).
  destruct (Attention_new (fun _ : list nat => tt) a) as [att|e] eqn:Ea.
  2:{ vm_compute in Ep. apply Ok_inj in Ep. subst a.
      vm_compute in Ea. discriminate. }
  exists a, att. split; [reflexivity|]. split; [exact Ea|].
  apply (attention_uneven_heads_fails (fun _ : list nat => tt) a att
           (full [1; 3; 10] tt) (full [3; 1] (tt, tt)) None 1 3 5 2 1);
    try assumption; try reflexivity; try lia.
  cbn. lia.
Defined.
